(** * The VFS access bridge: RESTful gateway and socket worker

    A shallow embedding of [packages/vfs-http-adapter/restful.js] and
    [packages/vfs-socket/worker.js].  JavaScript objects used as
    dictionaries are finite maps, event emitters are objects in a heap
    that carry the list of listeners subscribed to them, closures are
    constructors recording what they capture, and every call that leaves
    the module (to the peer, to the VFS, to a stream method, to the HTTP
    response) is appended to an explicit trace or written to a response
    record.  Code that can throw returns [option]. *)

From stdpp Require Import gmap strings list fin_maps sorting.
From Stdlib Require Import ZArith Lia Ascii String DecimalString DecimalZ DecimalPos.

Set Warnings "-register-all,-clear-no-such-hyp".

Open Scope Z_scope.

(** ** Characters that cannot be written inside a literal *)

Definition nl : string := String (ascii_of_nat 10) EmptyString.
Definition dq : string := String (ascii_of_nat 34) EmptyString.
Definition bs : string := String (ascii_of_nat 92) EmptyString.

(** ** Numbers converted to strings: the decimal numeral of an integer *)

Definition show_Z (z : Z) : string := NilZero.string_of_int (Z.to_int z).

(** ** JSON values, as [JSON.parse] produces them.  Numbers are restricted
    to integers and objects keep their properties in enumeration order. *)

Module Json.

Inductive json : Type :=
| JNull
| JBool (b : bool)
| JNum (n : Z)
| JStr (s : string)
| JArr (items : list json)
| JObj (props : list (string * json)).

(** [ToBoolean] on a parsed value: [null], [false], [0] and the empty
    string are falsy, every array and object is truthy. *)
Definition truthy (v : json) : bool :=
  match v with
  | JNull => false
  | JBool b => b
  | JNum n => negb (Z.eqb n 0)
  | JStr s => negb (String.eqb s "")
  | JArr _ | JObj _ => true
  end.

Fixpoint assoc {A : Type} (k : string) (l : list (string * A)) : option A :=
  match l with
  | [] => None
  | (k', v) :: rest => if String.eqb k k' then Some v else assoc k rest
  end.

(** [v.k] for a property name [k] that no prototype defines: reading a
    property of [null] throws a TypeError ([None]); on a primitive or an
    array the property is undefined ([Some None]). *)
Definition member (v : json) (k : string) : option (option json) :=
  match v with
  | JNull => None
  | JObj props => Some (assoc k props)
  | _ => Some None
  end.

(** Truthiness of a property read: [undefined] is falsy. *)
Definition truthy_opt (o : option json) : bool :=
  match o with
  | Some v => truthy v
  | None => false
  end.

(** *** [JSON.stringify] *)

Definition hex_digit (n : nat) : ascii :=
  ascii_of_nat (if (n <? 10)%nat then 48 + n else 87 + n).

(** One character inside a string literal: the quote and the backslash
    are escaped, control characters use the short escapes or [\u00XX],
    every other byte is copied. *)
Definition escape_char (c : ascii) : string :=
  let n := nat_of_ascii c in
  if (n =? 34)%nat then bs +:+ dq
  else if (n =? 92)%nat then bs +:+ bs
  else if (n =? 8)%nat then bs +:+ "b"
  else if (n =? 12)%nat then bs +:+ "f"
  else if (n =? 10)%nat then bs +:+ "n"
  else if (n =? 13)%nat then bs +:+ "r"
  else if (n =? 9)%nat then bs +:+ "t"
  else if (n <? 32)%nat then
    bs +:+ "u00" +:+ String (hex_digit (n / 16)) (String (hex_digit (n mod 16)) "")
  else String c "".

Fixpoint escape (s : string) : string :=
  match s with
  | "" => ""
  | String c rest => escape_char c +:+ escape rest
  end.

Definition quote (s : string) : string := dq +:+ escape s +:+ dq.

Fixpoint stringify (v : json) : string :=
  match v with
  | JNull => "null"
  | JBool true => "true"
  | JBool false => "false"
  | JNum n => show_Z n
  | JStr s => quote s
  | JArr [] => "[]"
  | JArr (x :: rest) =>
    "[" +:+ stringify x +:+
    (fix more (l : list json) : string :=
       match l with
       | [] => ""
       | y :: l' => "," +:+ stringify y +:+ more l'
       end) rest +:+ "]"
  | JObj [] => "{}"
  | JObj ((k, x) :: rest) =>
    "{" +:+ quote k +:+ ":" +:+ stringify x +:+
    (fix more (l : list (string * json)) : string :=
       match l with
       | [] => ""
       | (k', y) :: l' => "," +:+ quote k' +:+ ":" +:+ stringify y +:+ more l'
       end) rest +:+ "}"
  end.

(** *** [JSON.parse], for the values of this model.  A number with a
    fraction or an exponent and an escape above [\u007f] are refused. *)

Definition is_ws (c : ascii) : bool :=
  let n := nat_of_ascii c in
  ((n =? 32) || (n =? 9) || (n =? 10) || (n =? 13))%nat.

Fixpoint skip_ws (s : string) : string :=
  match s with
  | "" => ""
  | String c rest => if is_ws c then skip_ws rest else s
  end.

Fixpoint strip_prefix (p s : string) : option string :=
  match p, s with
  | "", _ => Some s
  | String a p', String b s' => if Ascii.eqb a b then strip_prefix p' s' else None
  | String _ _, "" => None
  end.

Definition hex_value (c : ascii) : option nat :=
  let n := nat_of_ascii c in
  if ((48 <=? n) && (n <=? 57))%nat then Some (n - 48)%nat
  else if ((97 <=? n) && (n <=? 102))%nat then Some (n - 87)%nat
  else if ((65 <=? n) && (n <=? 70))%nat then Some (n - 55)%nat
  else None.

Definition hex4 (a b c d : ascii) : option nat :=
  match hex_value a, hex_value b, hex_value c, hex_value d with
  | Some a, Some b, Some c, Some d => Some (((a * 16 + b) * 16 + c) * 16 + d)%nat
  | _, _, _, _ => None
  end.

Definition cons_char (c : ascii) (r : option (string * string)) : option (string * string) :=
  match r with
  | Some (str, rest) => Some (String c str, rest)
  | None => None
  end.

(** The characters of a string literal, after its opening quote. *)
Fixpoint parse_chars (s : string) : option (string * string) :=
  match s with
  | "" => None
  | String c r =>
    let n := nat_of_ascii c in
    if (n =? 34)%nat then Some ("", r)
    else if (n =? 92)%nat then
      match r with
      | "" => None
      | String e r' =>
        let m := nat_of_ascii e in
        if ((m =? 34) || (m =? 92) || (m =? 47))%nat then cons_char e (parse_chars r')
        else if (m =? 98)%nat then cons_char (ascii_of_nat 8) (parse_chars r')
        else if (m =? 102)%nat then cons_char (ascii_of_nat 12) (parse_chars r')
        else if (m =? 110)%nat then cons_char (ascii_of_nat 10) (parse_chars r')
        else if (m =? 114)%nat then cons_char (ascii_of_nat 13) (parse_chars r')
        else if (m =? 116)%nat then cons_char (ascii_of_nat 9) (parse_chars r')
        else if (m =? 117)%nat then
          match r' with
          | String h1 (String h2 (String h3 (String h4 r''))) =>
            match hex4 h1 h2 h3 h4 with
            | Some cp =>
              if (cp <? 128)%nat then cons_char (ascii_of_nat cp) (parse_chars r'')
              else None
            | None => None
            end
          | _ => None
          end
        else None
      end
    else if (n <? 32)%nat then None
    else cons_char c (parse_chars r)
  end.

Definition is_num_char (c : ascii) : bool :=
  let n := nat_of_ascii c in
  ((n =? 45) || ((48 <=? n) && (n <=? 57)))%nat.

Fixpoint span_num (s : string) : string * string :=
  match s with
  | "" => ("", "")
  | String c r =>
    if is_num_char c then let '(tok, rest) := span_num r in (String c tok, rest)
    else ("", s)
  end.

(** What may not follow an integer: a digit, a fraction or an exponent. *)
Definition follows_number (s : string) : bool :=
  match s with
  | "" => true
  | String c _ =>
    let n := nat_of_ascii c in
    negb (is_num_char c || (n =? 46) || (n =? 101) || (n =? 69))%nat
  end.

Definition parse_number (s : string) : option (Z * string) :=
  let '(tok, rest) := span_num s in
  match NilZero.int_of_string tok with
  | Some d =>
    let z := Z.of_int d in
    if String.eqb (show_Z z) tok && follows_number rest then Some (z, rest) else None
  | None => None
  end.

Fixpoint parse_value (fuel : nat) (s : string) : option (json * string) :=
  match fuel with
  | O => None
  | S fuel =>
    match skip_ws s with
    | "" => None
    | String c r =>
      let n := nat_of_ascii c in
      if (n =? 110)%nat then option_map (pair JNull) (strip_prefix "ull" r)
      else if (n =? 116)%nat then option_map (pair (JBool true)) (strip_prefix "rue" r)
      else if (n =? 102)%nat then option_map (pair (JBool false)) (strip_prefix "alse" r)
      else if (n =? 34)%nat then
        match parse_chars r with
        | Some (str, rest) => Some (JStr str, rest)
        | None => None
        end
      else if (n =? 91)%nat then
        match skip_ws r with
        | "" => None
        | String c' r' =>
          if (nat_of_ascii c' =? 93)%nat then Some (JArr [], r')
          else
            match parse_items fuel r with
            | Some (items, rest) => Some (JArr items, rest)
            | None => None
            end
        end
      else if (n =? 123)%nat then
        match skip_ws r with
        | "" => None
        | String c' r' =>
          if (nat_of_ascii c' =? 125)%nat then Some (JObj [], r')
          else
            match parse_members fuel r with
            | Some (props, rest) => Some (JObj props, rest)
            | None => None
            end
        end
      else
        match parse_number (String c r) with
        | Some (z, rest) => Some (JNum z, rest)
        | None => None
        end
    end
  end
with parse_items (fuel : nat) (s : string) : option (list json * string) :=
  match fuel with
  | O => None
  | S fuel =>
    match parse_value fuel s with
    | None => None
    | Some (v, rest) =>
      match skip_ws rest with
      | "" => None
      | String c r =>
        if (nat_of_ascii c =? 44)%nat then
          match parse_items fuel r with
          | Some (vs, rest') => Some (v :: vs, rest')
          | None => None
          end
        else if (nat_of_ascii c =? 93)%nat then Some ([v], r)
        else None
      end
    end
  end
with parse_members (fuel : nat) (s : string) : option (list (string * json) * string) :=
  match fuel with
  | O => None
  | S fuel =>
    match skip_ws s with
    | "" => None
    | String q r =>
      if (nat_of_ascii q =? 34)%nat then
        match parse_chars r with
        | None => None
        | Some (k, rest) =>
          match skip_ws rest with
          | "" => None
          | String colon r1 =>
            if (nat_of_ascii colon =? 58)%nat then
              match parse_value fuel r1 with
              | None => None
              | Some (v, rest1) =>
                match skip_ws rest1 with
                | "" => None
                | String c r2 =>
                  if (nat_of_ascii c =? 44)%nat then
                    match parse_members fuel r2 with
                    | Some (ps, rest') => Some ((k, v) :: ps, rest')
                    | None => None
                    end
                  else if (nat_of_ascii c =? 125)%nat then Some ([(k, v)], r2)
                  else None
                end
              end
            else None
          end
        end
      else None
    end
  end.

(** The whole text is one value, with blanks around it at most. *)
Definition parse (s : string) : option json :=
  match parse_value (S (String.length s)) s with
  | Some (v, rest) => if String.eqb (skip_ws rest) "" then Some v else None
  | None => None
  end.

End Json.

(** ** The RESTful gateway, [restful.js] *)

Module Restful.
Import Json.

(** [err.code]: absent, a number, or a string. *)
Inductive code_value : Type :=
| CodeUndefined
| CodeNum (n : Z)
| CodeStr (s : string).

(** What reaches the error handler: a bare string (as in
    [abort("Unsupported HTTP method", 501)]) or an error object with its
    [code], its [message] and the result of its [toString()]. *)
Inductive error : Type :=
| ErrText (s : string)
| ErrObject (code : code_value) (message : option string) (to_string : string).

Definition err_code (e : error) : code_value :=
  match e with
  | ErrText _ => CodeUndefined
  | ErrObject c _ _ => c
  end.

Definition err_toString (e : error) : string :=
  match e with
  | ErrText s => s
  | ErrObject _ _ t => t
  end.

(** [err.message || err.toString()] *)
Definition err_message_or_toString (e : error) : string :=
  match e with
  | ErrText s => s
  | ErrObject _ (Some m) t => if String.eqb m "" then t else m
  | ErrObject _ None t => t
  end.

(** The HTTP response object: [statusCode] starts at 200, [setHeader]
    overwrites, [end] records the body. *)
Record response : Type := mkResponse {
  headersSent : bool;
  statusCode : Z;
  headers : gmap string string;
  body : option string
}.

Definition fresh_response : response :=
  {| headersSent := false; statusCode := 200; headers := ∅; body := None |}.

Definition setStatus (c : Z) (res : response) : response :=
  {| headersSent := headersSent res; statusCode := c;
     headers := headers res; body := body res |}.

Definition setHeader (name value : string) (res : response) : response :=
  {| headersSent := headersSent res; statusCode := statusCode res;
     headers := <[name := value]> (headers res); body := body res |}.

Definition res_end (chunk : string) (res : response) : response :=
  {| headersSent := true; statusCode := statusCode res;
     headers := headers res; body := Some chunk |}.

Definition isValidStatusCode (statusCode : Z) : bool :=
  (100 <=? statusCode) && (statusCode <=? 999).

(** [if (code)] on the optional fourth argument. *)
Definition code_given (code : option Z) : option Z :=
  match code with
  | Some c => if c =? 0 then None else Some c
  | None => None
  end.

(** [typeof err.code == "number"] and [err.code === s]. *)
Definition code_is_number (c : code_value) : option Z :=
  match c with
  | CodeNum n => Some n
  | _ => None
  end.

Definition code_is (c : code_value) (s : string) : bool :=
  match c with
  | CodeStr s' => String.eqb s' s
  | _ => false
  end.

(** The chain of tests that chooses [res.statusCode]. *)
Definition status_of (err : error) (code : option Z) : Z :=
  match code_given code with
  | Some c => c
  | None =>
    match code_is_number (err_code err) with
    | Some n =>
      if isValidStatusCode n then n else 500
    | None =>
      if code_is (err_code err) "EBADREQUEST" then 400
      else if code_is (err_code err) "EACCES" then 403
      else if code_is (err_code err) "ENOENT" then 200
      else if code_is (err_code err) "ENOTREADY" then 503
      else if code_is (err_code err) "EISDIR" then 503
      else 500
    end
  end.

(** [Buffer.byteLength]: strings are sequences of bytes here. *)
Definition byteLength (s : string) : Z := Z.of_nat (String.length s).

(** The default [errorHandler(req, res, err, code)]. *)
Definition errorHandler (res : response) (err : error) (code : option Z) : response :=
  if headersSent res then res_end "" res
  else
    let res := setStatus (status_of err code) res in
    let message := err_message_or_toString err +:+ nl in
    let res := setHeader "Content-Type" "text/x-error" res in
    let res := setHeader "Content-Length" (show_Z (byteLength message)) res in
    res_end message res.

(** Whether the handler writes to [console.error]: everything but
    [ENOENT] is logged. *)
Definition errorHandler_logs (err : error) : bool :=
  match err_code err with
  | CodeStr s => negb (String.eqb s "ENOENT")
  | _ => true
  end.

(** *** [jsonEncoder]: the closure's state is the flag [first]; each
    event of the input stream makes the output stream emit events. *)

Inductive input_event (A : Type) : Type :=
| InData (entry : A)
| InEnd.
Arguments InData {A} entry.
Arguments InEnd {A}.

Inductive output_event : Type :=
| OutData (chunk : string)
| OutEnd.

Section JsonEncoder.
Context {A : Type}.
(** [JSON.stringify] on the entries of the object stream. *)
Variable JSON_stringify : A → string.

Definition encoder_on_data (first : bool) (entry : A) : bool * list output_event :=
  if first then (false, [OutData ("[" +:+ nl +:+ "  " +:+ JSON_stringify entry)])
  else (first, [OutData ("," +:+ nl +:+ "  " +:+ JSON_stringify entry)]).

Definition encoder_on_end (first : bool) : bool * list output_event :=
  if first then (first, [OutData "[]"; OutEnd])
  else (first, [OutData (nl +:+ "]"); OutEnd]).

Definition encoder_step (first : bool) (ev : input_event A) : bool * list output_event :=
  match ev with
  | InData entry => encoder_on_data first entry
  | InEnd => encoder_on_end first
  end.

(** The events the encoder emits while the input delivers [evs]. *)
Fixpoint encoder_run (first : bool) (evs : list (input_event A)) : list output_event :=
  match evs with
  | [] => []
  | ev :: rest =>
    let '(first', out) := encoder_step first ev in
    out ++ encoder_run first' rest
  end.

(** An object stream that yields [entries] and then ends. *)
Definition stream_of (entries : list A) : list (input_event A) :=
  map InData entries ++ [InEnd].

(** What a consumer that concatenates the [data] chunks up to [end]
    has read. *)
Fixpoint collect (out : list output_event) : string :=
  match out with
  | [] => ""
  | OutData chunk :: rest => chunk +:+ collect rest
  | OutEnd :: _ => ""
  end.

Definition jsonEncoder_output (entries : list A) : string :=
  collect (encoder_run true (stream_of entries)).

End JsonEncoder.

(** The methods of the source stream the encoder may call. *)
Inductive stream_call : Type :=
| CallPause (s : nat)
| CallResume (s : nat).

(** A source stream: its identity, whether it is still [readable], and
    whether it has [pause] and [resume]. *)
Record source : Type := mkSource {
  src_id : nat;
  src_readable : bool;
  src_has_pause : bool;
  src_has_resume : bool
}.

(** [output.pause] and [output.resume] of the encoder built over
    [input]: [None] when the method was not installed, otherwise the
    calls it makes. *)
Definition encoder_pause (input : source) : option (list stream_call) :=
  if src_has_pause input then Some [CallPause (src_id input)] else None.

Definition encoder_resume (input : source) : option (list stream_call) :=
  if src_has_resume input then Some [CallResume (src_id input)] else None.

(** *** The GET callback [onGet(err, meta)] *)

Record partial_content : Type := mkPartial {
  pc_start : Z;
  pc_end : Z;
  pc_size : Z
}.

(** The [meta] object of a read: each own property is [Some], the two
    flags are read by truthiness only. *)
Record meta : Type := mkMeta {
  rangeNotSatisfiable : option error;
  etag : option string;
  notModified : bool;
  partialContent : option partial_content;
  mime : option string;
  size : option Z;
  metadataSize : option Z;
  metadataStringLength : option Z;
  stream : option source
}.

(** What the request closure holds when the callback runs. *)
Record get_state : Type := mkGetState {
  tryAgain : bool;
  opt_head : bool;
  encoding_null : bool
}.

(** What the callback does besides writing the response. *)
Inductive get_action : Type :=
| Readdir                    (* vfs.readdir(path, options, onGet) *)
| OnStreamError (s : nat)    (* meta.stream.on("error", abort) *)
| PipeJson (s : nat)         (* jsonEncoder(meta.stream, base).pipe(res) *)
| Pipe (s : nat)             (* meta.stream.pipe(res) *)
| OnReqClose (s : nat)       (* req.on("close", ...) *)
| Destroy (s : nat).         (* meta.stream.destroy() *)

Record get_result : Type := mkGetResult {
  g_res : response;
  g_state : get_state;
  g_actions : list get_action
}.

(** A number placed in a header or a message. *)
Definition show_num (n : option Z) : string :=
  match n with
  | Some n => show_Z n
  | None => "undefined"
  end.

Definition show_sum (a b : option Z) : string :=
  match a, b with
  | Some a, Some b => show_Z (a + b)
  | _, _ => "NaN"
  end.

Definition set_if {B : Type} (o : option B) (f : B → response → response)
    (res : response) : response :=
  match o with
  | Some b => f b res
  | None => res
  end.

Definition MAX_STREAM_SIZE : Z := 8 * 1024 * 1024.

(** [meta.size > 8 * 1024 * 1024]; an absent size compares false. *)
Definition oversized (m : meta) : bool :=
  match size m with
  | Some n => MAX_STREAM_SIZE <? n
  | None => false
  end.

Definition oversize_message (m : meta) : string :=
  "File size is bigger than allowed " +:+ "(8MB). Size is " +:+ show_num (size m) +:+ " bytes".

Definition content_headers (noMime : bool) (st : get_state) (m : meta)
    (res : response) : response :=
  let res :=
    set_if (mime m) (fun mi res =>
      if noMime then
        setHeader "X-VFS-Content-Type" mi
          (setHeader "Content-Type" "application/octet-stream" res)
      else setHeader "Content-Type" mi res) res in
  let res :=
    set_if (size m) (fun sz res =>
      let res := setHeader "Content-Length" (show_Z sz) res in
      set_if (partialContent m) (fun pc res =>
        setHeader "Content-Range"
          ("bytes " +:+ show_Z (pc_start pc) +:+ "-" +:+ show_Z (pc_end pc)
             +:+ "/" +:+ show_Z (pc_size pc)) res) res) res in
  if encoding_null st then setHeader "Content-Type" "application/json" res
  else res.

Definition onGet (noMime : bool) (date : string) (st : get_state)
    (res : response) (err : option error) (m : meta) : get_result :=
  let res := setHeader "Date" date res in
  match err with
  | Some e =>
    if tryAgain st then
      mkGetResult res (mkGetState false (opt_head st) true) [Readdir]
    else mkGetResult (errorHandler res e None) st []
  | None =>
    match rangeNotSatisfiable m with
    | Some e => mkGetResult (errorHandler res e (Some 416)) st []
    | None =>
      let res := set_if (etag m) (setHeader "ETag") res in
      let res := if notModified m then setStatus 304 res else res in
      let res := if bool_decide (is_Some (partialContent m)) then setStatus 206 res else res in
      let res :=
        if bool_decide (is_Some (stream m)) || opt_head st
        then content_headers noMime st m res else res in
      match stream m with
      | Some s =>
        if oversized m then
          mkGetResult (errorHandler res (ErrText (oversize_message m)) (Some 513)) st []
        else
          let res :=
            set_if (metadataSize m) (fun ms res =>
              setHeader "Content-Length" (show_sum (size m) (Some ms))
                (setHeader "X-Metadata-Length" (show_num (metadataStringLength m))
                   (setHeader "X-Content-Length" (show_num (size m)) res))) res in
          mkGetResult res st
            [OnStreamError (src_id s);
             (if encoding_null st then PipeJson (src_id s) else Pipe (src_id s));
             OnReqClose (src_id s)]
      | None => mkGetResult (res_end "" res) st []
      end
    end
  end.

(** The listener that [onGet] puts on the request's [close] event. *)
Definition on_req_close (s : source) : source * list get_action :=
  if src_readable s then
    (mkSource (src_id s) false (src_has_pause s) (src_has_resume s),
     [Destroy (src_id s)])
  else (s, []).

Definition get_action_eqb (a b : get_action) : bool :=
  match a, b with
  | Readdir, Readdir => true
  | OnStreamError s, OnStreamError t
  | PipeJson s, PipeJson t
  | Pipe s, Pipe t
  | OnReqClose s, OnReqClose t
  | Destroy s, Destroy t => Nat.eqb s t
  | _, _ => false
  end.

(** The request emits [close]: the listener runs if [onGet] subscribed
    it, and nothing happens otherwise. *)
Definition req_close (r : get_result) (s : source) : list get_action :=
  if existsb (get_action_eqb (OnReqClose (src_id s))) (g_actions r)
  then snd (on_req_close s)
  else [].

(** *** POST to a path without trailing slash: the JSON command *)

Inductive command : Type :=
| VfsRename
| VfsCopy
| VfsSymlink
| VfsMetadata.

(** The [options] object handed to the command. *)
Record post_options : Type := mkPostOptions {
  opt_from : option json;
  opt_target : option json;
  opt_metadata : option json
}.

Definition no_options : post_options := mkPostOptions None None None.

Inductive post_outcome : Type :=
| PostThrows                                   (* an exception leaves the listener *)
| PostAbort (err : error)                      (* abort(err) *)
| PostCommand (c : command) (path : string) (o : post_options).

(** [new Error(msg)] has no code, and prints as [Error: msg]. *)
Definition new_Error (msg : string) : error :=
  ErrObject CodeUndefined (Some msg) ("Error: " +:+ msg).

(** The chain of tests on the parsed [message]. *)
Definition select_command (path data : string) (message : json) : post_outcome :=
  match member message "renameFrom" with
  | None => PostThrows
  | Some renameFrom =>
    if truthy_opt renameFrom then
      PostCommand VfsRename path (mkPostOptions renameFrom None None)
    else
      match member message "copyFrom" with
      | None => PostThrows
      | Some copyFrom =>
        if truthy_opt copyFrom then
          PostCommand VfsCopy path (mkPostOptions copyFrom None None)
        else
          match member message "linkTo" with
          | None => PostThrows
          | Some linkTo =>
            if truthy_opt linkTo then
              PostCommand VfsSymlink path (mkPostOptions None linkTo None)
            else
              match member message "metadata" with
              | None => PostThrows
              | Some metadata =>
                if truthy_opt metadata then
                  PostCommand VfsMetadata path (mkPostOptions None None metadata)
                else PostAbort (new_Error ("Invalid command in POST " +:+ data))
              end
          end
      end
  end.

Section PostEnd.
(** [JSON.parse]: the parsed value, or the exception it throws. *)
Variable JSON_parse : string → error + json.

(** The listener on the request's [end] event; [data] is the buffered
    body. *)
Definition post_on_end (path data : string) : post_outcome :=
  match JSON_parse data with
  | inl err => PostAbort err
  | inr message => select_command path data message
  end.

End PostEnd.

(** The VFS calls an outcome stands for. *)
Definition vfs_calls (o : post_outcome) : list (command * string * post_options) :=
  match o with
  | PostCommand c path opts => [(c, path, opts)]
  | _ => []
  end.

(** The callback of the command: an error is aborted, success ends the
    response as [text/plain]. *)
Definition post_reply (res : response) (err : option error) : response :=
  match err with
  | Some e => errorHandler res e None
  | None => res_end "" (setHeader "Content-Type" "text/plain" res)
  end.

End Restful.

(** ** The middleware of [restful.js]: from the request to the VFS call *)

Module Gateway.
Import Json Restful.

(** *** Strings as the middleware cuts them *)

(** [s[s.length - 1] === "/"]; the empty string has no last character. *)
Definition ends_with_slash (s : string) : bool :=
  match String.get (String.length s - 1) s with
  | Some c => Ascii.eqb c "/"
  | None => false
  end.

(** [s.substr(start, len)] and [s.substr(start)] *)
Definition substr (start len : nat) (s : string) : string :=
  String.substring start len s.

Definition substr_from (start : nat) (s : string) : string :=
  String.substring start (String.length s - start) s.

(** [s.indexOf(c)]; [None] stands for -1. *)
Fixpoint indexOf (c : ascii) (s : string) : option nat :=
  match s with
  | "" => None
  | String x r =>
    if Ascii.eqb x c then Some O else option_map S (indexOf c r)
  end.

(** [s.substr(p + 1)] for [p = s.indexOf(c)] *)
Definition after_index (p : option nat) (s : string) : string :=
  match p with
  | Some p => substr_from (S p) s
  | None => s
  end.

(** [s.split(sep)] for a separator of one character. *)
Fixpoint split_on (sep : ascii) (s : string) : list string :=
  match s with
  | "" => [""]
  | String c r =>
    if Ascii.eqb c sep then "" :: split_on sep r
    else
      match split_on sep r with
      | h :: t => String c h :: t
      | [] => [String c ""]
      end
  end.

Definition nonempty (s : string) : bool :=
  match s with
  | "" => false
  | _ => true
  end.

(** A header or an option read for its truthiness. *)
Definition str_truthy (o : option string) : bool :=
  match o with
  | Some s => nonempty s
  | None => false
  end.

(** *** [parseInt(s, 10)] *)

(** A number read from a header: integers are exact, as they are in the
    source below 2^53. *)
Inductive number : Type :=
| NaN
| Num (n : Z).

Definition MAX_SAFE_INTEGER : Z := 9007199254740991.

(** White space that [parseInt] skips; a header value holds one
    character per byte. *)
Definition is_js_space (c : ascii) : bool :=
  let n := nat_of_ascii c in
  ((n =? 9) || (n =? 10) || (n =? 11) || (n =? 12) || (n =? 13) || (n =? 32)
   || (n =? 160))%nat.

Fixpoint trim_left (s : string) : string :=
  match s with
  | "" => ""
  | String c r => if is_js_space c then trim_left r else s
  end.

Definition is_digit (c : ascii) : bool :=
  let n := nat_of_ascii c in ((48 <=? n) && (n <=? 57))%nat.

Fixpoint span_digits (s : string) : string * string :=
  match s with
  | "" => ("", "")
  | String c r =>
    if is_digit c then let '(tok, rest) := span_digits r in (String c tok, rest)
    else ("", s)
  end.

(** The sign, then the longest run of digits; [NaN] when there is no
    digit. *)
Definition parseInt (s : string) : number :=
  let s := trim_left s in
  let '(negative, s) :=
    match s with
    | String c r =>
      if (nat_of_ascii c =? 45)%nat then (true, r)
      else if (nat_of_ascii c =? 43)%nat then (false, r)
      else (false, s)
    | "" => (false, s)
    end in
  match NilZero.uint_of_string (fst (span_digits s)) with
  | Some d => Num (if negative then - Z.of_uint d else Z.of_uint d)
  | None => NaN
  end.

(** [parseInt(h, 10)] on a header that may be missing: [undefined] is
    read as the string of that name. *)
Definition parseInt_header (h : option string) : number :=
  match h with
  | Some s => parseInt s
  | None => parseInt "undefined"
  end.

(** [x < n]; a comparison with [NaN] is false. *)
Definition num_lt (x : number) (n : Z) : bool :=
  match x with
  | Num v => v <? n
  | NaN => false
  end.

(** *** The request and the mount *)

Record mount_options : Type := mkMountOptions {
  mo_readOnly : bool;
  mo_autoIndex : option string;
  mo_noMime : bool
}.

(** The request: [pathname] is [unescape(req.uri.pathname)], the header
    names are in lower case. *)
Record request : Type := mkRequest {
  req_method : string;
  req_pathname : string;
  req_headers : gmap string string
}.

(** [if (mount[mount.length - 1] !== "/") mount += "/"] *)
Definition normalize_mount (mount : string) : string :=
  if ends_with_slash mount then mount else mount +:+ "/".

Definition MAX_BUFFER_FILESIZE : Z := 10485760.

(** *** The options of a GET *)

Record range : Type := mkRange {
  range_start : option number;
  range_end : option number;
  range_etag : option string
}.

Record get_options : Type := mkGetOptions {
  go_etag : option string;
  go_range : option range;
  go_metadata : bool
}.

(** [options.range] from the [Range] header; [None] when reading
    [parts[1].length] throws. *)
Definition parse_range (hdrs : gmap string string) (value : string) : option range :=
  let p := indexOf "=" value in
  let parts := split_on "-" (after_index p value) in
  match parts with
  | p0 :: p1 :: _ =>
    Some {| range_start := if nonempty p0 then Some (parseInt p0) else None;
            range_end := if nonempty p1 then Some (parseInt p1) else None;
            range_etag := hdrs !! "if-range" |}
  | _ => None
  end.

(** *** The multipart boundary *)

(** Letters compared without regard to case, as the [i] flag does. *)
Definition lower (c : ascii) : ascii :=
  let n := nat_of_ascii c in
  if ((65 <=? n) && (n <=? 90))%nat then ascii_of_nat (n + 32) else c.

(** What follows [p] at the head of [s], when [s] starts with [p]. *)
Fixpoint strip_ci (p s : string) : option string :=
  match p, s with
  | "", _ => Some s
  | String a p', String b s' =>
    if Ascii.eqb (lower a) (lower b) then strip_ci p' s' else None
  | String _ _, "" => None
  end.

(** [(/multipart/i).test(s)] *)
Fixpoint test_multipart (s : string) : bool :=
  match strip_ci "multipart" s with
  | Some _ => true
  | None =>
    match s with
    | String _ r => test_multipart r
    | "" => false
    end
  end.

Fixpoint take_until (stop : ascii) (s : string) : string * string :=
  match s with
  | "" => ("", "")
  | String c r =>
    if Ascii.eqb c stop then ("", s)
    else let '(tok, rest) := take_until stop r in (String c tok, rest)
  end.

(** The two alternatives after [boundary=]: a quoted run without quote,
    or a run without semicolon; each of at least one character. *)
Definition boundary_at (rest : string) : option string :=
  let plain := fst (take_until ";" rest) in
  let unquoted := if nonempty plain then Some plain else None in
  match rest with
  | String c r =>
    if (nat_of_ascii c =? 34)%nat then
      match take_until (ascii_of_nat 34) r with
      | (String x b, String _ _) => Some (String x b)
      | _ => unquoted
      end
    else unquoted
  | "" => unquoted
  end.

(** [contentType.match(...)] with the boundary expression, followed by
    [match[1] || match[2]]: the leftmost position where the word
    [boundary=] (in any case) is followed by one of the two
    alternatives. *)
Fixpoint match_boundary (s : string) : option string :=
  match
    match strip_ci "boundary=" s with
    | Some rest => boundary_at rest
    | None => None
    end
  with
  | Some b => Some b
  | None =>
    match s with
    | String _ r => match_boundary r
    | "" => None
    end
  end.

(** *** The parts of an upload *)

Definition is_word_char (c : ascii) : bool :=
  let n := nat_of_ascii c in
  (((48 <=? n) && (n <=? 57)) || ((65 <=? n) && (n <=? 90))
   || ((97 <=? n) && (n <=? 122)) || (n =? 95))%nat.

(** The group of the expression at the head of [s]: the key, an equals
    sign, a quote, a run without quote and a quote. *)
Definition quoted_at (key s : string) : option string :=
  match strip_prefix (key +:+ "=" +:+ dq) s with
  | Some rest =>
    match take_until (ascii_of_nat 34) rest with
    | (value, String _ _) => Some value
    | _ => None
    end
  | None => None
  end.

(** [s.match(...)] for the expression that asks for a word boundary,
    then [key], an equals sign and a quoted value: the leftmost match.
    The keys start with a letter, so the boundary is there when the
    character before ([inside] tells whether it belongs to a word) does
    not. *)
Fixpoint match_quoted (key : string) (inside : bool) (s : string) : option string :=
  match (if inside then None else quoted_at key s) with
  | Some value => Some value
  | None =>
    match s with
    | String c r => match_quoted key (is_word_char c) r
    | "" => None
    end
  end.

Inductive part_outcome : Type :=
| PartError (msg : string)          (* parser.error(msg) *)
| PartMkfile (path : string).       (* vfs.mkfile(path, {stream: stream}, ...) *)

(** A file name in a concatenation; [null] is written out. *)
Definition show_filename (f : option string) : string :=
  match f with
  | Some s => s
  | None => "null"
  end.

(** The listener on the parser's [part] event, for the path of the
    request and the part's [Content-Disposition] header. *)
Definition on_part (path : string) (contentDisposition : option string)
    : part_outcome :=
  match contentDisposition with
  | Some cd =>
    if negb (nonempty cd) then PartError "Missing Content-Disposition header in part"
    else
      let m1 := match_quoted "name" false cd in
      let m2 := match_quoted "filename" false cd in
      match m1, m2 with
      | None, None => PartError "Missing filename in Content-Disposition header in part"
      | _, _ =>
        let filename :=
          match m1 with
          | Some x => if nonempty x then Some x else m2
          | None => m2
          end in
        PartMkfile (path +:+ "/" +:+ show_filename filename)
      end
  | None => PartError "Missing Content-Disposition header in part"
  end.

(** *** What the middleware does with a request *)

Inductive handled : Type :=
| Next                                   (* next() *)
| Throws                                 (* an exception leaves the middleware *)
| Abort (err : error) (code : option Z)  (* abort(err, code) *)
| Readfile (path : string) (o : get_options) (st : get_state)
| Readdir_ (path : string) (o : get_options) (st : get_state)
| Mkdir (path : string)                  (* vfs.mkdir(path, {parents: true}, ...) *)
| Mkfile (path : string) (bufferWrite : bool)
| Rmdir (path : string)
| Rmfile (path : string)
| Multipart (path boundary : string)     (* multipart(req, boundary) *)
| ReadBody (path : string)               (* req.on("data"), req.on("end") *)
| Stat (path : string).

Definition is_method (req : request) (m : string) : bool :=
  String.eqb (req_method req) m.

(** The GET branch, for the path below the mount. *)
Definition handle_get (mo : mount_options) (req : request) (head : bool)
    (path : string) : handled :=
  let hdrs := req_headers req in
  let range :=
    match hdrs !! "range" with
    | Some value =>
      match parse_range hdrs value with
      | Some r => Some (Some r)
      | None => None
      end
    | None => Some None
    end in
  match range with
  | None => Throws
  | Some range =>
    let o := mkGetOptions (hdrs !! "if-none-match") range
               (str_truthy (hdrs !! "x-request-metadata")) in
    if ends_with_slash path then
      match mo_autoIndex mo with
      | Some index =>
        if nonempty index then Readfile (path +:+ index) o (mkGetState true head false)
        else Readdir_ path o (mkGetState false head true)
      | None => Readdir_ path o (mkGetState false head true)
      end
    else Readfile path o (mkGetState false head false)
  end.

(** The POST branch for a path that ends with a slash. *)
Definition handle_upload (req : request) (path : string) : handled :=
  match req_headers req !! "content-type" with
  | Some contentType =>
    if negb (nonempty contentType) then
      Abort (new_Error "Missing Content-Type header") (Some 400)
    else if negb (test_multipart contentType) then
      Abort (new_Error "Content-Type should be multipart") (Some 400)
    else
      match match_boundary contentType with
      | Some boundary => Multipart path boundary
      | None => Abort (new_Error "Missing multipart boundary") (Some 400)
      end
  | None => Abort (new_Error "Missing Content-Type header") (Some 400)
  end.

(** The middleware [function (req, res, next)], for the [mount] it was
    set up with. *)
Definition handle (mo : mount_options) (mount : string) (req : request) : handled :=
  if mo_readOnly mo && negb (is_method req "GET" || is_method req "HEAD") then Next
  else
    let mount := normalize_mount mount in
    let path := req_pathname req in
    if negb (String.eqb (substr 0 (String.length mount) path) mount) then Next
    else
      let path := substr_from (String.length mount - 1) path in
      if is_method req "HEAD" || is_method req "GET" then
        handle_get mo req (is_method req "HEAD") path
      else if is_method req "PUT" then
        if ends_with_slash path then Mkdir path
        else
          Mkfile path
            (num_lt (parseInt_header (req_headers req !! "content-length"))
               MAX_BUFFER_FILESIZE)
      else if is_method req "DELETE" then
        if ends_with_slash path then Rmdir path else Rmfile path
      else if is_method req "POST" then
        if ends_with_slash path then handle_upload req path else ReadBody path
      else if is_method req "PROPFIND" then Stat path
      else Abort (ErrText "Unsupported HTTP method") (Some 501).

(** The path the request goes on with: the one its VFS call is made
    with, or the one the upload and the command will use. *)
Definition target_path (h : handled) : option string :=
  match h with
  | Readfile p _ _ | Readdir_ p _ _ | Mkdir p | Mkfile p _ | Rmdir p | Rmfile p
  | Multipart p _ | ReadBody p | Stat p => Some p
  | _ => None
  end.

(** Whether the request goes on to change the file system. *)
Definition writes (h : handled) : bool :=
  match h with
  | Mkdir _ | Mkfile _ _ | Rmdir _ | Rmfile _ | Multipart _ _ | ReadBody _ => true
  | _ => false
  end.

(** The response of a request that is answered at once. *)
Definition answer (res : response) (h : handled) : option response :=
  match h with
  | Abort err code => Some (errorHandler res err code)
  | _ => None
  end.

(** *** The callback of PROPFIND *)

Definition propfind_reply (res : response) (err : option error) (meta : json)
    : response :=
  match err with
  | Some e => errorHandler res e None
  | None =>
    res_end (stringify meta +:+ nl)
      (setHeader "Content-Type" "application/json" res)
  end.

(** *** One GET from the request to the last callback *)

(** What the VFS hands to [onGet]. *)
Definition vfs_result : Type := option error * meta.

(** A GET whose first read is answered by [first] and, when [onGet]
    asks for the directory instead, whose second read is answered by
    [second]. *)
Definition get_exchange (mo : mount_options) (date : string) (res : response)
    (st : get_state) (first second : vfs_result) : get_result :=
  let r := onGet (mo_noMime mo) date st res (fst first) (snd first) in
  if existsb (get_action_eqb Readdir) (g_actions r) then
    onGet (mo_noMime mo) date (g_state r) (g_res r) (fst second) (snd second)
  else r.

End Gateway.

(** ** The socket worker, [worker.js] *)

Module Worker.
Import Json.

(** *** Data model *)

(** The identity of a JavaScript object (a stream, a process, a pty, a
    socket, a watcher or an api). *)
Definition ref : Type := nat.

Inductive event : Type :=
| EvError | EvData | EvEnd | EvClose | EvExit | EvKill | EvChange | EvDrain.

Definition event_eqb (a b : event) : bool :=
  match a, b with
  | EvError, EvError | EvData, EvData | EvEnd, EvEnd | EvClose, EvClose
  | EvExit, EvExit | EvKill, EvKill | EvChange, EvChange | EvDrain, EvDrain => true
  | _, _ => false
  end.

(** Error objects: each field is [Some] when the object owns the
    property. *)
Record error : Type := mkError {
  e_stack : option string;
  e_code : option json;
  e_message : option json;
  e_stdout : option json;
  e_stderr : option json
}.

(** [new Error(msg)] followed by [err.code = code]; the frames the engine
    appends to [stack] are left out. *)
Definition new_Error (msg : string) (code : string) : error :=
  {| e_stack := Some ("Error: " +:+ msg); e_code := Some (JStr code);
     e_message := Some (JStr msg); e_stdout := None; e_stderr := None |}.


(** Tokens, the serialisable stand-ins sent to the peer. *)
Inductive token : Type :=
| TokStream (id : Z) (readable writable : option bool)
| TokProcess (pid : Z) (stdio : option (token * token * token))
| TokPty (id : Z) (readable writable : option bool) (pid : Z)
| TokWatcher (id : Z)
| TokApi (name : string) (names : list string).

(** The closures the worker subscribes to local objects, each recording
    the variables it captures. *)
Inductive listener : Type :=
| LStreamError (id : Z)
| LStreamData (id : Z) (stream : ref)
| LStreamEnd (id : Z)
| LStreamClose (id : Z)
| LProcExit (pid : Z)
| LProcClose (pid : Z) (onlyPid : bool) (process : ref)
| LPtyKill (pid : Z)
| LWatcherChange (id : Z).

(** How a [pause] or [resume] property is implemented: by the object
    itself, or as the method of its socket bound by [storePty]. *)
Inductive flow_method : Type :=
| OwnMethod
| BoundTo (socket : ref).

(** [process.kill]: the object's own, or the one [storeProcess] installs,
    which calls [vfs.killtree(pid, ...)]. *)
Inductive kill_method : Type :=
| OwnKill
| Killtree (pid : Z).

(** A local object with the properties the worker reads and writes. *)
Record object : Type := mkObject {
  o_token : option token;
  o_id : option Z;
  o_readable : option bool;
  o_writable : option bool;
  o_pause : option flow_method;
  o_resume : option flow_method;
  o_socket : option ref;
  o_pid : Z;
  o_unreffed : bool;
  o_kill : kill_method;
  o_stdin : option ref;
  o_stdout : option ref;
  o_stderr : option ref;
  o_name : string;
  o_names : list string;
  o_listeners : list (event * listener)
}.

(** A proxy stream made by [makeStreamProxy]. *)
Record proxy : Type := mkProxy {
  p_readable : option bool;
  p_writable : option bool
}.

(** What the events and the calls carry. *)
Inductive payload : Type :=
| NoPayload
| Chunk (c : string)
| Failure (e : error)
| ExitStatus (code signal : option Z).

Inductive method_name : Type :=
| MPause | MResume | MDestroy | MWrite | MEnd | MKill | MUnref | MClose.

(** A value found under a key of a [meta] object: absent, plain data, or
    a live local object. *)
Inductive value : Type :=
| VUndefined
| VNull
| VData (d : json)
| VObject (r : ref).

(** A value placed under a key of the projected result. *)
Inductive projected : Type :=
| PToken (t : token)
| PUndefined
| PValue (v : value).

(** The serialisable form of an error. *)
Record envelope : Type := mkEnvelope {
  stack : string;
  code : option json;
  message : option json;
  stdout : option json;
  stderr : option json
}.

(** How [processCallback] calls the callback it was given:
    [callback(nerr)] or [callback(nerr, token)]. *)
Inductive delivery : Type :=
| EnvelopeOnly (nerr : envelope)
| Projected (nerr : option envelope) (token : list (string * projected)).

(** The [meta] an api hands to its callback when it reports no error. *)
Inductive result : Type :=
| RAbsent
| RPrimitive (d : json)
| RObject (props : list (string * value)).

(** The arguments a callback is applied to. *)
Inductive arguments : Type :=
| Args0                                   (* cb() *)
| ArgsRaw (meta : result)                 (* callback(err, meta), err falsy *)
| ArgsMarshalled (d : delivery)
| ArgsError (nerr : envelope)             (* cb(err) *)
| ArgsServerTime (elapsed : Z).           (* cb(null, {serverTime: elapsed}) *)

(** An argument the peer sends with a call; functions are identified by
    a number. *)
Inductive peer_arg : Type :=
| PStr (s : string)
| PData (d : json)
| PFun (cb : nat).

(** The closures that [call] and [wrapPingCall] put in the place of a
    callback. *)
Inductive inner_callback : Type :=
| FromPeer (cb : nat)
| PingWrap (start : Z) (cb : peer_arg).

(** An argument handed to an api: what the peer sent, a closure of
    [wrapPingCall], or a closure routed through the marshaller. *)
Inductive api_arg : Type :=
| Plain (a : peer_arg)
| Wrapper (callback : inner_callback)
| Marshalled (callback : inner_callback).

(** Everything that leaves the worker. *)
Inductive effect : Type :=
| RemoteOnError (id : Z) (p : payload)
| RemoteOnData (id : Z) (p : payload)
| RemoteOnEnd (id : Z) (p : payload)
| RemoteOnClose (id : Z)
| RemoteOnExit (pid : Z) (p : payload)
| RemoteOnProcessClose (pid : Z) (p : payload)
| RemoteOnPtyKill (pid : Z)
| RemoteOnChange (id : Z) (p : payload)
| VfsKilltree (pid : Z)
| Call (target : ref) (m : method_name) (p : payload)
| Emit (target : ref) (ev : event) (p : payload)
| ProxyEmit (id : Z) (ev : event) (p : payload)
| PeerCallback (cb : nat) (a : arguments)
| ApiApply (api : ref) (fnName : string) (args : list api_arg).

(** [this.remoteApi]: which callbacks the peer offers, and what its
    [onData] answers ([false] when the call returned [false]). *)
Record remote_api : Type := mkRemote {
  r_onError : bool;
  r_onData : option (Z → payload → bool);
  r_onEnd : bool;
  r_onClose : bool;
  r_onExit : bool;
  r_onProcessClose : bool;
  r_onPtyKill : bool;
  r_onChange : bool
}.

(** The variables of one [Worker]. *)
Record state : Type := mkState {
  heap : gmap ref object;
  proxyStreams : gmap Z proxy;
  streams : gmap Z ref;
  watchers : gmap Z ref;
  processes : gmap Z ref;
  apis : gmap string ref;
  nextStreamID : Z;
  nextWatcherID : Z;
  remote : remote_api;
  clock : Z;
  trace : list effect
}.

Definition full_remote : remote_api :=
  mkRemote true (Some (fun _ _ => true)) true true true true true true.

(** The state right after [Worker(vfs)] ran, over the given objects;
    [clock] is what [Date.now()] returns. *)
Definition init (h : gmap ref object) (r : remote_api) : state :=
  {| heap := h; proxyStreams := ∅; streams := ∅; watchers := ∅;
     processes := ∅; apis := ∅; nextStreamID := 1; nextWatcherID := 1;
     remote := r; clock := 0; trace := [] |}.

(** *** Computations: state passing, [None] for an exception (or a loop
    that never ends) *)

Definition M (A : Type) : Type := state → option (A * state).

Definition ret {A : Type} (a : A) : M A := fun st => Some (a, st).

Definition bind {A B : Type} (m : M A) (k : A → M B) : M B :=
  fun st =>
    match m st with
    | Some (a, st') => k a st'
    | None => None
    end.

Definition throw {A : Type} : M A := fun _ => None.

Definition get : M state := fun st => Some (st, st).

Definition modify (f : state → state) : M unit := fun st => Some (tt, f st).

Notation "x <- m ;; k" := (bind m (fun x => k))
  (at level 100, m at next level, right associativity).
Notation "m ;;; k" := (bind m (fun _ => k))
  (at level 100, right associativity).

Definition of_option {A : Type} (o : option A) : M A :=
  match o with
  | Some a => ret a
  | None => throw
  end.

(** [xs.forEach(f)] *)
Fixpoint forEach {A : Type} (xs : list A) (f : A → M unit) : M unit :=
  match xs with
  | [] => ret tt
  | x :: rest => f x ;;; forEach rest f
  end.

Definition when (b : bool) (m : M unit) : M unit :=
  if b then m else ret tt.

(** [Object.keys] of a dictionary keyed by integers: ascending. *)
Definition Object_keys {V : Type} (m : gmap Z V) : list Z :=
  merge_sort Z.le (map fst (map_to_list m)).

(** *** Field updates *)

Definition upd_heap (f : gmap ref object → gmap ref object) (st : state) : state :=
  mkState (f (heap st)) (proxyStreams st) (streams st) (watchers st) (processes st)
    (apis st) (nextStreamID st) (nextWatcherID st) (remote st) (clock st) (trace st).

Definition upd_proxyStreams (f : gmap Z proxy → gmap Z proxy) (st : state) : state :=
  mkState (heap st) (f (proxyStreams st)) (streams st) (watchers st) (processes st)
    (apis st) (nextStreamID st) (nextWatcherID st) (remote st) (clock st) (trace st).

Definition upd_streams (f : gmap Z ref → gmap Z ref) (st : state) : state :=
  mkState (heap st) (proxyStreams st) (f (streams st)) (watchers st) (processes st)
    (apis st) (nextStreamID st) (nextWatcherID st) (remote st) (clock st) (trace st).

Definition upd_watchers (f : gmap Z ref → gmap Z ref) (st : state) : state :=
  mkState (heap st) (proxyStreams st) (streams st) (f (watchers st)) (processes st)
    (apis st) (nextStreamID st) (nextWatcherID st) (remote st) (clock st) (trace st).

Definition upd_processes (f : gmap Z ref → gmap Z ref) (st : state) : state :=
  mkState (heap st) (proxyStreams st) (streams st) (watchers st) (f (processes st))
    (apis st) (nextStreamID st) (nextWatcherID st) (remote st) (clock st) (trace st).

Definition upd_apis (f : gmap string ref → gmap string ref) (st : state) : state :=
  mkState (heap st) (proxyStreams st) (streams st) (watchers st) (processes st)
    (f (apis st)) (nextStreamID st) (nextWatcherID st) (remote st) (clock st) (trace st).

Definition set_nextStreamID (n : Z) (st : state) : state :=
  mkState (heap st) (proxyStreams st) (streams st) (watchers st) (processes st)
    (apis st) n (nextWatcherID st) (remote st) (clock st) (trace st).

Definition set_nextWatcherID (n : Z) (st : state) : state :=
  mkState (heap st) (proxyStreams st) (streams st) (watchers st) (processes st)
    (apis st) (nextStreamID st) n (remote st) (clock st) (trace st).

(** Time passes between two steps of the worker. *)
Definition set_clock (t : Z) (st : state) : state :=
  mkState (heap st) (proxyStreams st) (streams st) (watchers st) (processes st)
    (apis st) (nextStreamID st) (nextWatcherID st) (remote st) t (trace st).

Definition upd_trace (f : list effect → list effect) (st : state) : state :=
  mkState (heap st) (proxyStreams st) (streams st) (watchers st) (processes st)
    (apis st) (nextStreamID st) (nextWatcherID st) (remote st) (clock st) (f (trace st)).

Definition with_token (t : option token) (o : object) : object :=
  mkObject t (o_id o) (o_readable o) (o_writable o) (o_pause o) (o_resume o)
    (o_socket o) (o_pid o) (o_unreffed o) (o_kill o) (o_stdin o) (o_stdout o)
    (o_stderr o) (o_name o) (o_names o) (o_listeners o).

Definition with_id (i : Z) (o : object) : object :=
  mkObject (o_token o) (Some i) (o_readable o) (o_writable o) (o_pause o) (o_resume o)
    (o_socket o) (o_pid o) (o_unreffed o) (o_kill o) (o_stdin o) (o_stdout o)
    (o_stderr o) (o_name o) (o_names o) (o_listeners o).

Definition with_pause (m : flow_method) (o : object) : object :=
  mkObject (o_token o) (o_id o) (o_readable o) (o_writable o) (Some m) (o_resume o)
    (o_socket o) (o_pid o) (o_unreffed o) (o_kill o) (o_stdin o) (o_stdout o)
    (o_stderr o) (o_name o) (o_names o) (o_listeners o).

Definition with_resume (m : flow_method) (o : object) : object :=
  mkObject (o_token o) (o_id o) (o_readable o) (o_writable o) (o_pause o) (Some m)
    (o_socket o) (o_pid o) (o_unreffed o) (o_kill o) (o_stdin o) (o_stdout o)
    (o_stderr o) (o_name o) (o_names o) (o_listeners o).

Definition with_unreffed (o : object) : object :=
  mkObject (o_token o) (o_id o) (o_readable o) (o_writable o) (o_pause o) (o_resume o)
    (o_socket o) (o_pid o) true (o_kill o) (o_stdin o) (o_stdout o)
    (o_stderr o) (o_name o) (o_names o) (o_listeners o).

Definition with_kill (k : kill_method) (o : object) : object :=
  mkObject (o_token o) (o_id o) (o_readable o) (o_writable o) (o_pause o) (o_resume o)
    (o_socket o) (o_pid o) (o_unreffed o) k (o_stdin o) (o_stdout o)
    (o_stderr o) (o_name o) (o_names o) (o_listeners o).

(** [emitter.on(ev, l)]: listeners run in the order they were added. *)
Definition add_listener (ev : event) (l : listener) (o : object) : object :=
  mkObject (o_token o) (o_id o) (o_readable o) (o_writable o) (o_pause o) (o_resume o)
    (o_socket o) (o_pid o) (o_unreffed o) (o_kill o) (o_stdin o) (o_stdout o)
    (o_stderr o) (o_name o) (o_names o) (o_listeners o ++ [(ev, l)]).

(** *** Primitive steps *)

Definition log (e : effect) : M unit := modify (upd_trace (fun t => t ++ [e])).

(** Reading through a reference; a reference to nothing is [undefined],
    and reading a property of it throws. *)
Definition get_obj (r : ref) : M object :=
  st <- get ;; of_option (heap st !! r).

(** Writing a property of the object behind [r]. *)
Definition update_obj (r : ref) (f : object → object) : M unit :=
  o <- get_obj r ;; modify (upd_heap (insert r (f o))).

Definition on (r : ref) (ev : event) (l : listener) : M unit :=
  update_obj r (add_listener ev l).

Definition is_true (o : option bool) : bool :=
  match o with
  | Some b => b
  | None => false
  end.

(** [x.pause && x.pause()] and [x.resume && x.resume()] *)
Definition call_flow (self : ref) (name : method_name) (m : option flow_method) : M unit :=
  match m with
  | Some OwnMethod => log (Call self name NoPayload)
  | Some (BoundTo socket) => log (Call socket name NoPayload)
  | None => ret tt
  end.

(** [process.kill()] *)
Definition call_kill (self : ref) (o : object) (p : payload) : M unit :=
  match o_kill o with
  | OwnKill => log (Call self MKill p)
  | Killtree pid => log (VfsKilltree pid)
  end.

(** *** Rolling identifiers *)

Definition RING : Z := 10000.

Definition next_id (cursor : Z) : Z := Z.rem (cursor + 1) RING.

(** [while (m.hasOwnProperty(cursor)) cursor = (cursor + 1) % 10000].  The
    loop tests at most [fuel] slots; [None] when all of them were taken. *)
Fixpoint probe {V : Type} (fuel : nat) (m : gmap Z V) (cursor : Z) : option Z :=
  match fuel with
  | O => None
  | S fuel' =>
    if bool_decide (is_Some (m !! cursor)) then probe fuel' m (next_id cursor)
    else Some cursor
  end.

(** One allocation: advance the cursor once, then skip occupied slots.
    After [RING] tests every slot has been seen, so running out of fuel is
    the loop that never ends. *)
Definition allocate {V : Type} (m : gmap Z V) (cursor : Z) : option Z :=
  probe (Z.to_nat RING) m (next_id cursor).

(** *** Listeners *)

(** [x.id] for the stdio stream [x] of a process. *)
Definition id_of (r : option ref) : M (option Z) :=
  match r with
  | Some r => o <- get_obj r ;; ret (o_id o)
  | None => throw
  end.

(** [delete streams[i]]; an undefined index names no entry. *)
Definition delete_stream (i : option Z) : M unit :=
  match i with
  | Some i => modify (upd_streams (delete i))
  | None => ret tt
  end.

Definition run_listener (l : listener) (p : payload) : M unit :=
  st <- get ;;
  match l with
  | LStreamError id =>
    when (r_onError (remote st)) (log (RemoteOnError id p))
  | LStreamData id stream =>
    match r_onData (remote st) with
    | Some answer =>
      log (RemoteOnData id p) ;;;
      if answer id p then ret tt
      else (o <- get_obj stream ;; call_flow stream MPause (o_pause o))
    | None => ret tt
    end
  | LStreamEnd id =>
    modify (upd_streams (delete id)) ;;;
    when (r_onEnd (remote st)) (log (RemoteOnEnd id p))
  | LStreamClose id =>
    modify (upd_streams (delete id)) ;;;
    when (r_onClose (remote st)) (log (RemoteOnClose id))
  | LProcExit pid =>
    modify (upd_processes (delete pid)) ;;;
    when (r_onExit (remote st)) (log (RemoteOnExit pid p))
  | LProcClose pid onlyPid process =>
    modify (upd_processes (delete pid)) ;;;
    (if onlyPid then ret tt
     else
       o <- get_obj process ;;
       out <- id_of (o_stdout o) ;; delete_stream out ;;;
       err <- id_of (o_stderr o) ;; delete_stream err ;;;
       inp <- id_of (o_stdin o) ;; delete_stream inp) ;;;
    when (r_onProcessClose (remote st)) (log (RemoteOnProcessClose pid p))
  | LPtyKill pid =>
    when (r_onPtyKill (remote st)) (log (RemoteOnPtyKill pid))
  | LWatcherChange id =>
    when (r_onChange (remote st)) (log (RemoteOnChange id p))
  end.

Definition listeners_for (ev : event) (o : object) : list listener :=
  map snd (filter (fun el => event_eqb (fst el) ev = true) (o_listeners o)).

(** [target.emit(ev, p)]: the event is observable by anyone subscribed,
    and the worker's own listeners run in subscription order. *)
Definition emit (target : ref) (ev : event) (p : payload) : M unit :=
  o <- get_obj target ;;
  log (Emit target ev p) ;;;
  forEach (listeners_for ev o) (fun l => run_listener l p).

(** *** The handle registry *)

Definition storeStream (stream : ref) : M token :=
  o <- get_obj stream ;;
  match o_token o with
  | Some t => ret t
  | None =>
    st <- get ;;
    id <- of_option (allocate (streams st) (nextStreamID st)) ;;
    modify (set_nextStreamID id) ;;;
    modify (upd_streams (insert id stream)) ;;;
    update_obj stream (with_id id) ;;;
    on stream EvError (LStreamError id) ;;;
    when (is_true (o_readable o))
      (on stream EvData (LStreamData id stream) ;;;
       on stream EvEnd (LStreamEnd id)) ;;;
    on stream EvClose (LStreamClose id) ;;;
    let token := TokStream id (o_readable o) (o_writable o) in
    update_obj stream (with_token (Some token)) ;;;
    ret token
  end.

(** [processes.token]: the dictionary is keyed by pid, so the property
    named [token] is never defined on it. *)
Definition processes_token (m : gmap Z ref) : option token := None.

(** What [storeProcess] returns: [onlyPid ? pid : token]. *)
Inductive stored : Type :=
| StoredPid (pid : Z)
| StoredToken (t : option token).

Definition storeProcess (process : ref) (onlyPid : bool) : M stored :=
  o <- get_obj process ;;
  let pid := o_pid o in
  st <- get ;;
  match processes_token (processes st) with
  | Some _ => ret (if onlyPid then StoredPid (o_pid o) else StoredToken (o_token o))
  | None =>
    modify (upd_processes (insert pid process)) ;;;
    on process EvExit (LProcExit pid) ;;;
    on process EvClose (LProcClose pid onlyPid process) ;;;
    update_obj process (with_kill (Killtree pid)) ;;;
    update_obj process (with_token (Some (TokProcess pid None))) ;;;
    if onlyPid then ret (StoredPid pid)
    else
      stdin <- of_option (o_stdin o) ;; tin <- storeStream stdin ;;
      stdout <- of_option (o_stdout o) ;; tout <- storeStream stdout ;;
      stderr <- of_option (o_stderr o) ;; terr <- storeStream stderr ;;
      let token := TokProcess pid (Some (tin, tout, terr)) in
      update_obj process (with_token (Some token)) ;;;
      ret (StoredToken (Some token))
  end.

(** [pty.resume = pty.socket.resume.bind(pty.socket)] when the pty has
    none of its own and its socket has one; same for [pause]. *)
Definition bound_method (socket : ref) (m : flow_method) : flow_method :=
  match m with
  | OwnMethod => BoundTo socket
  | BoundTo inner => BoundTo inner
  end.

Definition socket_method (pick : object → option flow_method) (o : object)
    : M (option flow_method) :=
  match pick o, o_socket o with
  | None, Some socket =>
    so <- get_obj socket ;;
    ret (option_map (bound_method socket) (pick so))
  | _, _ => ret None
  end.

Definition storePty (pty : ref) : M (option token) :=
  o <- get_obj pty ;;
  st <- get ;;
  if bool_decide (processes st !! o_pid o = Some pty) then ret (o_token o)
  else
    s <- storeProcess pty true ;;
    let pid := match s with StoredPid pid => pid | StoredToken _ => o_pid o end in
    update_obj pty (with_token None) ;;;
    o <- get_obj pty ;;
    res <- socket_method o_resume o ;;
    match res with Some m => update_obj pty (with_resume m) | None => ret tt end ;;;
    o <- get_obj pty ;;
    pau <- socket_method o_pause o ;;
    match pau with Some m => update_obj pty (with_pause m) | None => ret tt end ;;;
    t <- storeStream pty ;;
    update_obj pty (with_token None) ;;;
    let token :=
      match t with
      | TokStream id r w => TokPty id r w pid
      | other => other
      end in
    update_obj pty (with_token (Some token)) ;;;
    on pty EvKill (LPtyKill pid) ;;;
    ret (Some token).

Definition storeWatcher (watcher : ref) : M token :=
  st <- get ;;
  id <- of_option (allocate (watchers st) (nextWatcherID st)) ;;
  modify (set_nextWatcherID id) ;;;
  modify (upd_watchers (insert id watcher)) ;;;
  update_obj watcher (with_id id) ;;;
  on watcher EvChange (LWatcherChange id) ;;;
  ret (TokWatcher id).

Definition storeApi (api : ref) : M token :=
  o <- get_obj api ;;
  let name := o_name o in
  modify (upd_apis (insert name api)) ;;;
  ret (TokApi name (o_names o)).

(** [makeStreamProxy(token)] for a stream token sent by the peer. *)
Definition makeStreamProxy (id : Z) (readable writable : option bool) : M unit :=
  modify (upd_proxyStreams (insert id (mkProxy readable writable))).

(** *** Endpoints called by the peer *)

Definition write (id : Z) (chunk : string) : M unit :=
  st <- get ;;
  match streams st !! id with
  | None => ret tt
  | Some stream => log (Call stream MWrite (Chunk chunk))
  end.

Definition end_ (id : Z) (chunk : option string) : M unit :=
  st <- get ;;
  match streams st !! id with
  | None => ret tt
  | Some stream =>
    modify (upd_streams (delete id)) ;;;
    match chunk with
    | Some c => if String.eqb c "" then log (Call stream MEnd NoPayload)
                else log (Call stream MEnd (Chunk c))
    | None => log (Call stream MEnd NoPayload)
    end
  end.

Definition resume (id : Z) : M unit :=
  st <- get ;;
  match streams st !! id with
  | None => ret tt
  | Some stream => o <- get_obj stream ;; call_flow stream MResume (o_resume o)
  end.

Definition pause (id : Z) : M unit :=
  st <- get ;;
  match streams st !! id with
  | None => ret tt
  | Some stream => o <- get_obj stream ;; call_flow stream MPause (o_pause o)
  end.

Definition kill (pid : Z) (code : option Z) : M unit :=
  st <- get ;;
  match processes st !! pid with
  | None => ret tt
  | Some process => o <- get_obj process ;; call_kill process o (ExitStatus code None)
  end.

Definition unref (pid : Z) : M unit :=
  st <- get ;;
  match processes st !! pid with
  | None => ret tt
  | Some process =>
    log (Call process MUnref NoPayload) ;;;
    update_obj process with_unreffed
  end.

Definition closeWatcher (id : Z) : M unit :=
  st <- get ;;
  match watchers st !! id with
  | None => ret tt
  | Some watcher =>
    modify (upd_watchers (delete id)) ;;;
    log (Call watcher MClose NoPayload)
  end.

Definition onData (id : Z) (chunk : string) : M unit :=
  st <- get ;;
  match proxyStreams st !! id with
  | None => ret tt
  | Some _ => log (ProxyEmit id EvData (Chunk chunk))
  end.

Definition onEnd (id : Z) (p : payload) : M unit :=
  st <- get ;;
  match proxyStreams st !! id with
  | None => ret tt
  | Some _ =>
    modify (upd_proxyStreams (delete id)) ;;;
    log (ProxyEmit id EvEnd p)
  end.

Definition onClose (id : Z) : M unit :=
  st <- get ;;
  match proxyStreams st !! id with
  | None => ret tt
  | Some _ =>
    modify (upd_proxyStreams (delete id)) ;;;
    log (ProxyEmit id EvClose NoPayload)
  end.

(** *** Channel events *)

(** The listener on the channel's [drain]. *)
Definition on_drain : M unit :=
  st <- get ;;
  forEach (Object_keys (streams st)) (fun id =>
    st <- get ;;
    stream <- of_option (streams st !! id) ;;
    o <- get_obj stream ;;
    when (is_true (o_readable o)) (call_flow stream MResume (o_resume o))) ;;;
  st <- get ;;
  forEach (Object_keys (proxyStreams st)) (fun id =>
    st <- get ;;
    p <- of_option (proxyStreams st !! id) ;;
    when (is_true (p_writable p)) (log (ProxyEmit id EvDrain NoPayload))).



(** *** The callback marshaller *)

Definition show_stack (s : option string) : string :=
  match s with
  | Some s => s
  | None => "undefined"
  end.

(** The serialisable copy of [err]; [node_pid] is [process.pid] of the
    server. *)
Definition make_envelope (node_pid : Z) (err : error) : envelope :=
  {| stack := show_Z node_pid +:+ ": " +:+ show_stack (e_stack err);
     code := e_code err;
     message := e_message err;
     stdout := e_stdout err;
     stderr := e_stderr err |}.

(** [token[key] = v] *)
Fixpoint set_prop {A : Type} (key : string) (v : A) (l : list (string * A))
    : list (string * A) :=
  match l with
  | [] => [(key, v)]
  | (k, w) :: rest =>
    if String.eqb k key then (k, v) :: rest else (k, w) :: set_prop key v rest
  end.

(** [meta[key] == undefined] *)
Definition is_absent (v : value) : bool :=
  match v with
  | VUndefined | VNull => true
  | _ => false
  end.

(** The live object under a resource key; a store function applied to
    plain data ends in an exception. *)
Definition as_object (v : value) : M ref :=
  match v with
  | VObject r => ret r
  | _ => throw
  end.

Definition of_token_opt (t : option token) : projected :=
  match t with
  | Some t => PToken t
  | None => PUndefined
  end.

(** [storeProcess(p)] is called without [onlyPid] and returns the token. *)
Definition of_stored (s : stored) : projected :=
  match s with
  | StoredToken t => of_token_opt t
  | StoredPid _ => PUndefined
  end.

(** The [switch (key)] of the walk. *)
Definition project (key : string) (v : value) : M projected :=
  if String.eqb key "stream" then
    r <- as_object v ;; t <- storeStream r ;; ret (PToken t)
  else if String.eqb key "process" then
    r <- as_object v ;; s <- storeProcess r false ;; ret (of_stored s)
  else if String.eqb key "pty" then
    r <- as_object v ;; t <- storePty r ;; ret (of_token_opt t)
  else if String.eqb key "watcher" then
    r <- as_object v ;; t <- storeWatcher r ;; ret (PToken t)
  else if String.eqb key "api" then
    r <- as_object v ;; t <- storeApi r ;; ret (PToken t)
  else ret (PValue v).

(** The loop over [Object.keys(meta || {})]. *)
Fixpoint walk (meta : list (string * value)) (keys : list string)
    (token : list (string * projected)) : M (list (string * projected)) :=
  match keys with
  | [] => ret token
  | key :: rest =>
    match assoc key meta with
    | None => walk meta rest token
    | Some v =>
      if is_absent v then walk meta rest token
      else p <- project key v ;; walk meta rest (set_prop key p token)
    end
  end.

(** [processCallback(err, meta, callback)]: the result is the call made
    on [callback].  [meta] is absent or an object. *)
Definition processCallback (node_pid : Z) (err : option error)
    (meta : option (list (string * value))) : M delivery :=
  let nerr := option_map (make_envelope node_pid) err in
  match nerr, meta with
  | Some nerr, None => ret (EnvelopeOnly nerr)
  | _, _ =>
    let props := match meta with Some props => props | None => [] end in
    token <- walk props (map fst props) [] ;;
    ret (Projected nerr token)
  end.

(** The callback [route(name)] hands to the VFS, for the peer's
    callback [cb]. *)
Definition route_callback (node_pid : Z) (cb : nat) (err : option error)
    (meta : option (list (string * value))) : M unit :=
  d <- processCallback node_pid err meta ;;
  log (PeerCallback cb (ArgsMarshalled d)).

(** *** [ping], [wrapPingCall] and [call] *)

(** Applying a value received from the peer as a function. *)
Definition apply_peer (f : option peer_arg) (a : arguments) : M unit :=
  match f with
  | Some (PFun cb) => log (PeerCallback cb a)
  | _ => throw
  end.

(** The endpoint [ping(callback)]; [args] are the arguments the peer
    sent, [callback] the first of them. *)
Definition ping (args : list peer_arg) : M unit :=
  apply_peer (head args) Args0.

(** The first argument of a callback, when it is truthy. *)
Definition error_of (a : arguments) : option envelope :=
  match a with
  | ArgsMarshalled (EnvelopeOnly nerr) => Some nerr
  | ArgsMarshalled (Projected (Some nerr) _) => Some nerr
  | ArgsError nerr => Some nerr
  | _ => None
  end.

Definition invoke (f : inner_callback) (a : arguments) : M unit :=
  match f with
  | FromPeer cb => log (PeerCallback cb a)
  | PingWrap start cb =>
    match error_of a with
    | Some nerr => apply_peer (Some cb) (ArgsError nerr)
    | None =>
      st <- get ;;
      apply_peer (Some cb) (ArgsServerTime (clock st - start))
    end
  end.

(** [wrapPingCall(name, fnName, args)], at time [now]. *)
Definition wrapPingCall (now : Z) (name fnName : string) (args : list peer_arg)
    : list api_arg :=
  match args with
  | [PStr s; cb] =>
    if String.eqb name "ping" && String.eqb fnName "ping" && String.eqb s "serverTime"
    then [Plain (PStr s); Wrapper (PingWrap now cb)]
    else map Plain args
  | _ => map Plain args
  end.

(** [if (typeof args[args.length - 1] == "function")]: the last argument
    is replaced by a closure that goes through [processCallback]. *)
Definition marshal_last (a : api_arg) : api_arg :=
  match a with
  | Plain (PFun cb) => Marshalled (FromPeer cb)
  | Wrapper f => Marshalled f
  | other => other
  end.

Definition wrap_last (args : list api_arg) : list api_arg :=
  match reverse args with
  | last :: front => reverse front ++ [marshal_last last]
  | [] => []
  end.

Definition call (name fnName : string) (args : list peer_arg) : M unit :=
  st <- get ;;
  match apis st !! name with
  | None => ret tt
  | Some api =>
    let args := wrapPingCall (clock st) name fnName args in
    let args := wrap_last args in
    o <- get_obj api ;;
    if existsb (String.eqb fnName) (o_names o)
    then log (ApiApply api fnName args)
    else throw
  end.

(** What an api passes to its callback: an error with the usual [meta],
    or no error and any result. *)
Inductive api_outcome : Type :=
| OutcomeError (e : error) (meta : option (list (string * value)))
| OutcomeValue (meta : result).

(** An api calls back the closure [call] gave it. *)
Definition marshalled_callback (node_pid : Z) (callback : inner_callback)
    (o : api_outcome) : M unit :=
  match o with
  | OutcomeError e meta =>
    d <- processCallback node_pid (Some e) meta ;;
    invoke callback (ArgsMarshalled d)
  | OutcomeValue (RObject props) =>
    d <- processCallback node_pid None (Some props) ;;
    invoke callback (ArgsMarshalled d)
  | OutcomeValue meta => invoke callback (ArgsRaw meta)
  end.

End Worker.

(** ** More endpoints of the worker: [destroy], [route], [subscribe] *)

Module Endpoints.
Import Json Worker.

(** *** [destroy(id)] *)

(** The [destroy] property of a local stream, which the worker only
    reads: missing (or falsy), present but not a function, or a method. *)
Inductive destroy_prop : Type :=
| NoDestroy
| DestroyNotFunction
| DestroyFunction.

(** The handle is released first; a property that is not a function is
    only reported on the console. *)
Definition destroy (destroy_of : ref → destroy_prop) (id : Z) : M unit :=
  st <- get ;;
  match streams st !! id with
  | None => ret tt
  | Some stream =>
    modify (upd_streams (delete id)) ;;;
    match destroy_of stream with
    | NoDestroy => ret tt
    | DestroyNotFunction => ret tt
    | DestroyFunction => log (Call stream MDestroy NoPayload)
    end
  end.

(** *** [route(name)] *)

(** The stream token a peer puts under [options.stream]; its [id] is an
    integer. *)
Record stream_token : Type := mkStreamToken {
  tok_id : Z;
  tok_readable : option bool;
  tok_writable : option bool
}.

(** How the wrapped function ends: it returns after the console
    message, it calls the peer's callback with an error object of its
    own, or it calls the VFS function, with the proxy in the place of
    [options.stream]. *)
Inductive routed : Type :=
| RouteIgnored
| RouteRefused (cb : nat) (err : error)
| RouteVfs (name : string) (path : json) (stream : option Z) (cb : nat).

(** [route(name)(path, options, callback)]: [path] is [None] when it is
    [null] or [undefined]; [options] is [None] when it is [null] or
    [undefined], and otherwise holds the token under [options.stream],
    if there is one. *)
Definition route (name : string) (path : option json)
    (options : option (option stream_token)) (callback : peer_arg) : M routed :=
  match callback with
  | PFun cb =>
    match options with
    | None => throw
    | Some stream =>
      match stream with
      | Some t => makeStreamProxy (tok_id t) (tok_readable t) (tok_writable t)
      | None => ret tt
      end ;;;
      match path with
      | None =>
        ret (RouteRefused cb
               (new_Error "refusing to process invalid request: missing path"
                  "EINVALIDPATH"))
      | Some p => ret (RouteVfs name p (option_map tok_id stream) cb)
      end
    end
  | _ => ret RouteIgnored
  end.

(** *** [subscribe] and [unsubscribe] *)







(** A peer's requests, one after the other. *)
Inductive request : Type :=
| Subscribe (name : string) (callback : peer_arg)
| Unsubscribe (name : string) (callback : peer_arg).



End Endpoints.

(** * Strings *)

Module StringFacts.

Lemma append_cons (x : ascii) (a b : string) :
  String x a +:+ b = String x (a +:+ b).
Proof. reflexivity. Qed.

Lemma append_nil_l (a : string) : "" +:+ a = a.
Proof. reflexivity. Qed.

Lemma append_assoc (a b c : string) : (a +:+ b) +:+ c = a +:+ (b +:+ c).
Proof.
  induction a as [|x a IH]; [done|].
  rewrite !append_cons. by rewrite IH.
Qed.

Lemma append_nil_r (a : string) : a +:+ "" = a.
Proof.
  induction a as [|x a IH]; [done|].
  rewrite append_cons. by rewrite IH.
Qed.

Lemma length_append (a b : string) :
  String.length (a +:+ b) = (String.length a + String.length b)%nat.
Proof.
  induction a as [|x a IH]; [done|].
  rewrite append_cons. cbn. by rewrite IH.
Qed.

End StringFacts.

(** * JSON: what is printed parses back *)

Module JsonFacts.
Import Json StringFacts.

(** ** Blanks *)

Fixpoint all_ws (w : string) : bool :=
  match w with
  | "" => true
  | String c rest => is_ws c && all_ws rest
  end.

Lemma skip_ws_app (w s : string) : all_ws w = true → skip_ws (w +:+ s) = skip_ws s.
Proof.
  induction w as [|c w IH]; [done|].
  cbn [all_ws]. intros H. apply andb_true_iff in H as [Hc Hw].
  rewrite append_cons. cbn [skip_ws]. rewrite Hc. by apply IH.
Qed.

Lemma skip_ws_head (c : ascii) (r : string) :
  is_ws c = false → skip_ws (String c r) = String c r.
Proof. intros H. cbn [skip_ws]. by rewrite H. Qed.

(** ** String literals *)

Lemma parse_chars_escape_char (c : ascii) (s : string) :
  parse_chars (escape_char c +:+ s) = cons_char c (parse_chars s).
Proof.
  destruct c as [b0 b1 b2 b3 b4 b5 b6 b7].
  destruct b0, b1, b2, b3, b4, b5, b6, b7; reflexivity.
Qed.

Lemma parse_chars_escape (s rest : string) :
  parse_chars (escape s +:+ dq +:+ rest) = Some (s, rest).
Proof.
  induction s as [|c s IH]; [reflexivity|].
  cbn [escape]. rewrite append_assoc, parse_chars_escape_char, IH. reflexivity.
Qed.

Lemma parse_chars_quote (s rest : string) :
  parse_chars (escape s +:+ dq) = Some (s, "") ∧
  quote s +:+ rest = String (ascii_of_nat 34) (escape s +:+ dq +:+ rest).
Proof.
  split.
  - rewrite <- (append_nil_r dq). apply parse_chars_escape.
  - unfold quote. rewrite !append_assoc. reflexivity.
Qed.

(** ** Numbers *)

Lemma span_num_stop (rest : string) :
  follows_number rest = true → span_num rest = ("", rest).
Proof.
  destruct rest as [|c r]; [done|].
  cbn [follows_number span_num]. intros H.
  destruct (is_num_char c); [done|reflexivity].
Qed.

Lemma span_num_digits (d : Decimal.uint) (rest : string) :
  follows_number rest = true →
  span_num (NilEmpty.string_of_uint d +:+ rest) = (NilEmpty.string_of_uint d, rest).
Proof.
  intros Hrest. induction d as [|d IH|d IH|d IH|d IH|d IH|d IH|d IH|d IH|d IH|d IH];
    cbn [NilEmpty.string_of_uint]; rewrite ?append_nil_l, ?append_cons;
    [by apply span_num_stop|..];
    cbn [span_num]; rewrite IH; reflexivity.
Qed.

Lemma show_Z_cases (n : Z) :
  ∃ d, d ≠ Decimal.Nil ∧
    ((Z.to_int n = Decimal.Pos d ∧ show_Z n = NilEmpty.string_of_uint d) ∨
     (Z.to_int n = Decimal.Neg d ∧ show_Z n = String "-" (NilEmpty.string_of_uint d))).
Proof.
  unfold show_Z. destruct n as [|p|p]; cbn [Z.to_int NilZero.string_of_int].
  - exists (Decimal.D0 Decimal.Nil). split; [done|]. by left.
  - exists (Pos.to_uint p). split; [apply DecimalPos.Unsigned.to_uint_nonnil|]. left.
    split; [done|]. unfold NilZero.string_of_uint.
    pose proof (DecimalPos.Unsigned.to_uint_nonnil p). by destruct (Pos.to_uint p).
  - exists (Pos.to_uint p). split; [apply DecimalPos.Unsigned.to_uint_nonnil|]. right.
    split; [done|]. unfold NilZero.string_of_uint.
    pose proof (DecimalPos.Unsigned.to_uint_nonnil p). by destruct (Pos.to_uint p).
Qed.

Lemma span_num_show_Z (n : Z) (rest : string) :
  follows_number rest = true →
  span_num (show_Z n +:+ rest) = (show_Z n, rest).
Proof.
  intros Hrest. destruct (show_Z_cases n) as (d & _ & [[_ ->]|[_ ->]]).
  - by apply span_num_digits.
  - rewrite append_cons. cbn [span_num].
    change (is_num_char "-") with true. cbn iota.
    by rewrite span_num_digits.
Qed.

Lemma int_of_string_show_Z (n : Z) :
  NilZero.int_of_string (show_Z n) = Some (Z.to_int n).
Proof.
  unfold show_Z. apply NilZero.isi.
  - destruct (show_Z_cases n) as (d & Hd & [[-> _]|[-> _]]); congruence.
  - destruct (show_Z_cases n) as (d & Hd & [[-> _]|[-> _]]); congruence.
Qed.

Lemma parse_number_show_Z (n : Z) (rest : string) :
  follows_number rest = true →
  parse_number (show_Z n +:+ rest) = Some (n, rest).
Proof.
  intros Hrest. unfold parse_number.
  rewrite span_num_show_Z by done. rewrite int_of_string_show_Z.
  cbn zeta. rewrite of_to, String.eqb_refl, Hrest. reflexivity.
Qed.

(** A numeral starts with a digit or a minus sign, which is no blank and
    opens no other kind of value. *)
Lemma show_Z_head (n : Z) :
  ∃ c r, show_Z n = String c r ∧ is_num_char c = true.
Proof.
  destruct (show_Z_cases n) as (d & Hd & [[_ ->]|[_ ->]]).
  - destruct d; try done; cbn [NilEmpty.string_of_uint]; eauto.
  - eauto.
Qed.

Lemma num_char_dispatch (c : ascii) :
  is_num_char c = true →
  is_ws c = false ∧
  (nat_of_ascii c =? 110)%nat = false ∧ (nat_of_ascii c =? 116)%nat = false ∧
  (nat_of_ascii c =? 102)%nat = false ∧ (nat_of_ascii c =? 34)%nat = false ∧
  (nat_of_ascii c =? 91)%nat = false ∧ (nat_of_ascii c =? 123)%nat = false ∧
  (nat_of_ascii c =? 93)%nat = false.
Proof.
  destruct c as [b0 b1 b2 b3 b4 b5 b6 b7].
  destruct b0, b1, b2, b3, b4, b5, b6, b7; cbn; intros H; try discriminate H;
    repeat split.
Qed.

(** ** Values *)

(** Induction over values, with the hypothesis on every element of an
    array and on every member of an object. *)
Section json_induction.
Variable P : json → Prop.
Hypothesis Hnull : P JNull.
Hypothesis Hbool : ∀ b, P (JBool b).
Hypothesis Hnum : ∀ n, P (JNum n).
Hypothesis Hstr : ∀ s, P (JStr s).
Hypothesis Harr : ∀ items, Forall P items → P (JArr items).
Hypothesis Hobj : ∀ props, Forall (λ kv, P kv.2) props → P (JObj props).

Fixpoint json_induction (v : json) : P v :=
  match v with
  | JNull => Hnull
  | JBool b => Hbool b
  | JNum n => Hnum n
  | JStr s => Hstr s
  | JArr items =>
    Harr items
      ((fix go (l : list json) : Forall P l :=
          match l with
          | [] => List.Forall_nil P
          | x :: l' => @List.Forall_cons _ P x l' (json_induction x) (go l')
          end) items)
  | JObj props =>
    Hobj props
      ((fix go (l : list (string * json)) : Forall (λ kv, P kv.2) l :=
          match l with
          | [] => List.Forall_nil _
          | kv :: l' => @List.Forall_cons _ _ kv l' (json_induction kv.2) (go l')
          end) props)
  end.

End json_induction.

(** The fuel a value needs: one unit per value and one per element. *)
Fixpoint weight (v : json) : nat :=
  match v with
  | JArr items =>
    S ((fix go (l : list json) : nat :=
          match l with
          | [] => O
          | x :: l' => S (weight x + go l')
          end) items)
  | JObj props =>
    S ((fix go (l : list (string * json)) : nat :=
          match l with
          | [] => O
          | kv :: l' => S (weight kv.2 + go l')
          end) props)
  | _ => 1%nat
  end.

Fixpoint weight_items (l : list json) : nat :=
  match l with
  | [] => O
  | x :: l' => S (weight x + weight_items l')
  end.

Fixpoint weight_members (l : list (string * json)) : nat :=
  match l with
  | [] => O
  | kv :: l' => S (weight kv.2 + weight_members l')
  end.

Lemma weight_arr (items : list json) : weight (JArr items) = S (weight_items items).
Proof. reflexivity. Qed.

Lemma weight_obj (props : list (string * json)) :
  weight (JObj props) = S (weight_members props).
Proof. reflexivity. Qed.

(** The elements after the first, each behind a comma and the blanks
    [sep]; the members of an object likewise. *)
Fixpoint more_items (sep : string) (l : list json) : string :=
  match l with
  | [] => ""
  | y :: l' => "," +:+ sep +:+ stringify y +:+ more_items sep l'
  end.

Fixpoint more_members (l : list (string * json)) : string :=
  match l with
  | [] => ""
  | (k, y) :: l' => "," +:+ quote k +:+ ":" +:+ stringify y +:+ more_members l'
  end.

Lemma stringify_arr (x : json) (l : list json) :
  stringify (JArr (x :: l)) = "[" +:+ stringify x +:+ more_items "" l +:+ "]".
Proof.
  cbn [stringify]. do 3 f_equal.
  induction l as [|y l IH]; [done|]. cbn [more_items]. by rewrite IH.
Qed.

Lemma stringify_obj (k : string) (x : json) (l : list (string * json)) :
  stringify (JObj ((k, x) :: l)) =
    "{" +:+ quote k +:+ ":" +:+ stringify x +:+ more_members l +:+ "}".
Proof.
  reflexivity.
Qed.

(** One step of each parser, by computation. *)
Lemma parse_value_blanks (fuel : nat) (w s : string) :
  all_ws w = true → parse_value fuel (w +:+ s) = parse_value fuel s.
Proof.
  intros Hw. destruct fuel as [|fuel]; [done|].
  cbn [parse_value]. by rewrite skip_ws_app.
Qed.

Lemma parse_value_quote (fuel : nat) (body : string) :
  parse_value (S fuel) (String (ascii_of_nat 34) body) =
    match parse_chars body with
    | Some (str, rest) => Some (JStr str, rest)
    | None => None
    end.
Proof. reflexivity. Qed.

Lemma parse_value_bracket (fuel : nat) (r : string) :
  parse_value (S fuel) (String "[" r) =
    match skip_ws r with
    | "" => None
    | String c' r' =>
      if (nat_of_ascii c' =? 93)%nat then Some (JArr [], r')
      else
        match parse_items fuel r with
        | Some (items, rest) => Some (JArr items, rest)
        | None => None
        end
    end.
Proof. reflexivity. Qed.

Lemma parse_value_brace (fuel : nat) (r : string) :
  parse_value (S fuel) (String "{" r) =
    match skip_ws r with
    | "" => None
    | String c' r' =>
      if (nat_of_ascii c' =? 125)%nat then Some (JObj [], r')
      else
        match parse_members fuel r with
        | Some (props, rest) => Some (JObj props, rest)
        | None => None
        end
    end.
Proof. reflexivity. Qed.

Lemma parse_value_number (fuel : nat) (c : ascii) (r : string) :
  is_num_char c = true →
  parse_value (S fuel) (String c r) =
    match parse_number (String c r) with
    | Some (z, rest) => Some (JNum z, rest)
    | None => None
    end.
Proof.
  destruct c as [b0 b1 b2 b3 b4 b5 b6 b7].
  destruct b0, b1, b2, b3, b4, b5, b6, b7; intros H; try discriminate H; reflexivity.
Qed.

Lemma parse_items_step (fuel : nat) (s : string) :
  parse_items (S fuel) s =
    match parse_value fuel s with
    | None => None
    | Some (v, rest) =>
      match skip_ws rest with
      | "" => None
      | String c r =>
        if (nat_of_ascii c =? 44)%nat then
          match parse_items fuel r with
          | Some (vs, rest') => Some (v :: vs, rest')
          | None => None
          end
        else if (nat_of_ascii c =? 93)%nat then Some ([v], r)
        else None
      end
    end.
Proof. reflexivity. Qed.

Lemma parse_members_quote (fuel : nat) (body : string) :
  parse_members (S fuel) (String (ascii_of_nat 34) body) =
    match parse_chars body with
    | None => None
    | Some (k, rest) =>
      match skip_ws rest with
      | "" => None
      | String colon r1 =>
        if (nat_of_ascii colon =? 58)%nat then
          match parse_value fuel r1 with
          | None => None
          | Some (v, rest1) =>
            match skip_ws rest1 with
            | "" => None
            | String c r2 =>
              if (nat_of_ascii c =? 44)%nat then
                match parse_members fuel r2 with
                | Some (ps, rest') => Some ((k, v) :: ps, rest')
                | None => None
                end
              else if (nat_of_ascii c =? 125)%nat then Some ([(k, v)], r2)
              else None
            end
          end
        else None
      end
    end.
Proof. reflexivity. Qed.

Lemma ws_not_number (c : ascii) :
  is_ws c = true →
  negb (is_num_char c || (nat_of_ascii c =? 46) || (nat_of_ascii c =? 101)
        || (nat_of_ascii c =? 69))%nat = true.
Proof.
  destruct c as [b0 b1 b2 b3 b4 b5 b6 b7].
  destruct b0, b1, b2, b3, b4, b5, b6, b7; intros H; try discriminate H; reflexivity.
Qed.

Lemma follows_blanks (w : string) (c : ascii) (rest : string) :
  all_ws w = true →
  follows_number (String c rest) = true →
  follows_number (w +:+ String c rest) = true.
Proof.
  destruct w as [|b w]; [done|]. cbn [all_ws]. intros H _.
  apply andb_true_iff in H as [Hb _]. rewrite append_cons.
  cbn [follows_number]. by apply ws_not_number.
Qed.

(** A printed value starts with a character that is no blank and does
    not close an array. *)
Lemma stringify_head (v : json) :
  ∃ c r, stringify v = String c r ∧ is_ws c = false ∧
         (nat_of_ascii c =? 93)%nat = false.
Proof.
  destruct v as [|[]|n|s|[|x l]|[|[k x] l]];
    try (eexists _, _; split; [reflexivity|]; split; reflexivity).
  destruct (show_Z_head n) as (c & r & Heq & Hc).
  exists c, r. split; [exact Heq|].
  apply num_char_dispatch in Hc. tauto.
Qed.

(** A value reads back: after any blanks, with enough fuel, and before
    anything that cannot continue a number. *)
Definition reads_back (v : json) : Prop :=
  ∀ fuel w rest,
    (weight v ≤ fuel)%nat → all_ws w = true → follows_number rest = true →
    parse_value fuel (w +:+ stringify v +:+ rest) = Some (v, rest).

(** The elements of an array, printed with blanks [w0] before the first
    element, [sep] after every comma and [w1] before the closing
    bracket. *)
Lemma parse_items_reads (l : list json) :
  Forall reads_back l →
  ∀ x fuel w0 sep w1 rest,
    reads_back x →
    (weight_items (x :: l) ≤ fuel)%nat →
    all_ws w0 = true → all_ws sep = true → all_ws w1 = true →
    parse_items fuel
      (w0 +:+ stringify x +:+ more_items sep l +:+ w1 +:+ "]" +:+ rest)
    = Some (x :: l, rest).
Proof.
  induction l as [|y l IH]; intros Hall x fuel w0 sep w1 rest Hx Hfuel Hw0 Hsep Hw1.
  - destruct fuel as [|fuel]; [cbn in Hfuel; lia|].
    rewrite parse_items_step. cbn [more_items]. rewrite append_nil_l.
    rewrite (Hx fuel w0 (w1 +:+ "]" +:+ rest)); [| cbn in Hfuel; lia | done |].
    2:{ by apply follows_blanks. }
    rewrite skip_ws_app by done. reflexivity.
  - destruct fuel as [|fuel]; [cbn in Hfuel; lia|].
    apply Forall_cons in Hall as [Hy Hall].
    rewrite parse_items_step. cbn [more_items]. rewrite !append_assoc.
    rewrite (Hx fuel w0); [| cbn in Hfuel; lia | done | reflexivity].
    change (skip_ws ("," +:+ sep +:+ stringify y +:+ more_items sep l +:+ w1 +:+ "]" +:+ rest))
      with (String "," (sep +:+ stringify y +:+ more_items sep l +:+ w1 +:+ "]" +:+ rest)).
    cbn iota. change (nat_of_ascii "," =? 44)%nat with true. cbn iota.
    rewrite (IH Hall y fuel sep sep w1 rest); [reflexivity|done| |done|done|done].
    cbn in Hfuel |- *. lia.
Qed.

Lemma parse_members_reads (l : list (string * json)) :
  Forall (λ kv, reads_back kv.2) l →
  ∀ k x fuel rest,
    reads_back x →
    (weight_members ((k, x) :: l) ≤ fuel)%nat →
    parse_members fuel
      (quote k +:+ ":" +:+ stringify x +:+ more_members l +:+ "}" +:+ rest)
    = Some ((k, x) :: l, rest).
Proof.
  induction l as [|[k' y] l IH]; intros Hall k x fuel rest Hx Hfuel.
  - destruct fuel as [|fuel]; [cbn in Hfuel; lia|].
    destruct (parse_chars_quote k (":" +:+ stringify x +:+ more_members [] +:+ "}" +:+ rest))
      as [_ ->].
    rewrite parse_members_quote, parse_chars_escape.
    change (skip_ws (":" +:+ stringify x +:+ more_members [] +:+ "}" +:+ rest))
      with (String ":" ("" +:+ stringify x +:+ "}" +:+ rest)).
    cbn iota. change (nat_of_ascii ":" =? 58)%nat with true. cbn iota.
    rewrite (Hx fuel "" ("}" +:+ rest)); [reflexivity| cbn in Hfuel; lia |done|reflexivity].
  - destruct fuel as [|fuel]; [cbn in Hfuel; lia|].
    apply Forall_cons in Hall as [Hy Hall]. cbn [snd] in Hy.
    destruct (parse_chars_quote k
      (":" +:+ stringify x +:+ more_members ((k', y) :: l) +:+ "}" +:+ rest)) as [_ ->].
    rewrite parse_members_quote, parse_chars_escape.
    change (skip_ws (":" +:+ stringify x +:+ more_members ((k', y) :: l) +:+ "}" +:+ rest))
      with (String ":" ("" +:+ stringify x +:+ more_members ((k', y) :: l) +:+ "}" +:+ rest)).
    cbn iota. change (nat_of_ascii ":" =? 58)%nat with true. cbn iota.
    cbn [more_members]. rewrite !append_assoc.
    rewrite (Hx fuel ""); [| cbn in Hfuel; lia | done | reflexivity].
    change (skip_ws ("," +:+ quote k' +:+ ":" +:+ stringify y +:+ more_members l +:+ "}" +:+ rest))
      with (String "," (quote k' +:+ ":" +:+ stringify y +:+ more_members l +:+ "}" +:+ rest)).
    cbn iota. change (nat_of_ascii "," =? 44)%nat with true. cbn iota.
    rewrite (IH Hall k' y fuel rest); [reflexivity|done|].
    cbn in Hfuel |- *. lia.
Qed.

(** Every value reads back. *)
Lemma reads_back_all (v : json) : reads_back v.
Proof.
  induction v as [|b|n|s|items IH|props IH] using json_induction;
    intros fuel w rest Hfuel Hw Hrest;
    (destruct fuel as [|fuel]; [cbn in Hfuel; lia|]);
    rewrite parse_value_blanks by done.
  - reflexivity.
  - by destruct b.
  - cbn [stringify]. destruct (show_Z_head n) as (c & r & Heq & Hc).
    pose proof (parse_number_show_Z n rest Hrest) as Hp.
    rewrite Heq in Hp |- *. rewrite append_cons in Hp |- *.
    rewrite parse_value_number by done. by rewrite Hp.
  - cbn [stringify]. destruct (parse_chars_quote s rest) as [_ ->].
    by rewrite parse_value_quote, parse_chars_escape.
  - destruct items as [|x l]; [reflexivity|].
    apply Forall_cons in IH as [Hx Hl].
    rewrite stringify_arr, !append_assoc.
    change ("[" +:+ stringify x +:+ more_items "" l +:+ "]" +:+ rest)
      with (String "[" (stringify x +:+ more_items "" l +:+ "]" +:+ rest)).
    rewrite parse_value_bracket.
    destruct (stringify_head x) as (c & r & Heq & Hc & Hclose).
    rewrite Heq, append_cons, skip_ws_head by done. rewrite Hclose.
    rewrite <- append_cons, <- Heq.
    pose proof (parse_items_reads l Hl x fuel "" "" "" rest Hx) as Hitems.
    rewrite !append_nil_l in Hitems. rewrite Hitems; try done.
    rewrite weight_arr in Hfuel. lia.
  - destruct props as [|[k x] l]; [reflexivity|].
    apply Forall_cons in IH as [Hx Hl]. cbn [snd] in Hx.
    rewrite stringify_obj, !append_assoc.
    change ("{" +:+ quote k +:+ ":" +:+ stringify x +:+ more_members l +:+ "}" +:+ rest)
      with (String "{" (quote k +:+ ":" +:+ stringify x +:+ more_members l +:+ "}" +:+ rest)).
    rewrite parse_value_brace.
    destruct (parse_chars_quote k (":" +:+ stringify x +:+ more_members l +:+ "}" +:+ rest))
      as [_ Hq].
    rewrite Hq at 1. rewrite skip_ws_head by reflexivity.
    change (nat_of_ascii (ascii_of_nat 34) =? 125)%nat with false. cbn iota.
    rewrite (parse_members_reads l Hl k x fuel rest); try done.
    rewrite weight_obj in Hfuel. lia.
Qed.

(** ** The whole text *)

Lemma length_more_items (sep : string) (l : list json) :
  Forall (λ v, (weight v ≤ String.length (stringify v))%nat) l →
  (weight_items l ≤ String.length (more_items sep l))%nat.
Proof.
  induction 1 as [|y l Hy Hl IH]; [done|].
  cbn [weight_items more_items]. rewrite !length_append. cbn [String.length]. lia.
Qed.

Lemma length_more_members (l : list (string * json)) :
  Forall (λ kv, (weight kv.2 ≤ String.length (stringify kv.2))%nat) l →
  (weight_members l ≤ String.length (more_members l))%nat.
Proof.
  induction 1 as [|[k y] l Hy Hl IH]; [done|].
  cbn [weight_members more_members snd] in *. rewrite !length_append.
  cbn [String.length]. lia.
Qed.

Lemma weight_le_length (v : json) : (weight v ≤ String.length (stringify v))%nat.
Proof.
  induction v as [|b|n|s|items IH|props IH] using json_induction.
  - cbn. lia.
  - destruct b; cbn; lia.
  - cbn [stringify weight]. destruct (show_Z_head n) as (c & r & -> & _). cbn. lia.
  - cbn [stringify weight]. unfold quote. rewrite !length_append. cbn. lia.
  - destruct items as [|x l]; [cbn; lia|].
    apply Forall_cons in IH as [Hx Hl].
    rewrite stringify_arr, weight_arr, !length_append.
    pose proof (length_more_items "" l Hl). cbn [weight_items String.length]. lia.
  - destruct props as [|[k x] l]; [cbn; lia|].
    apply Forall_cons in IH as [Hx Hl]. cbn [snd] in Hx.
    rewrite stringify_obj, weight_obj, !length_append.
    pose proof (length_more_members l Hl). cbn [weight_members String.length snd]. lia.
Qed.

(** [JSON.parse(JSON.stringify(v))] is [v]. *)
Lemma parse_stringify (v : json) : parse (stringify v) = Some v.
Proof.
  unfold parse.
  pose proof (reads_back_all v (S (String.length (stringify v))) "" ""
                ltac:(pose proof (weight_le_length v); lia) eq_refl eq_refl) as H.
  rewrite append_nil_l, append_nil_r in H. rewrite H. reflexivity.
Qed.

(** An array printed with blanks after the opening bracket, after every
    comma and before the closing bracket parses to its elements. *)
Lemma parse_spaced_array (x : json) (l : list json) (sep w1 : string) :
  all_ws sep = true → all_ws w1 = true →
  parse ("[" +:+ sep +:+ stringify x +:+ more_items sep l +:+ w1 +:+ "]")
    = Some (JArr (x :: l)).
Proof.
  intros Hsep Hw1. unfold parse.
  set (text := "[" +:+ sep +:+ stringify x +:+ more_items sep l +:+ w1 +:+ "]").
  assert (Hlen : (weight_items (x :: l) ≤ String.length text)%nat).
  { unfold text. rewrite !length_append.
    pose proof (weight_le_length x).
    pose proof (length_more_items sep l
      (proj2 (Forall_forall _ _) (λ v _, weight_le_length v))).
    cbn [weight_items String.length]. lia. }
  unfold text.
  change ("[" +:+ sep +:+ stringify x +:+ more_items sep l +:+ w1 +:+ "]")
    with (String "[" (sep +:+ stringify x +:+ more_items sep l +:+ w1 +:+ "]")).
  cbn [String.length].
  rewrite parse_value_bracket. rewrite skip_ws_app by done.
  destruct (stringify_head x) as (c & r & Heq & Hc & Hclose).
  rewrite Heq at 1. rewrite append_cons, skip_ws_head by done. rewrite Hclose.
  pose proof (parse_items_reads l
    (proj2 (Forall_forall _ _) (λ v _, reads_back_all v))
    x (S (String.length (sep +:+ stringify x +:+ more_items sep l +:+ w1 +:+ "]")))
    sep sep w1 "" (reads_back_all x)) as Hitems.
  rewrite append_nil_r in Hitems. rewrite Hitems; [reflexivity| |done|done|done].
  unfold text in Hlen.
  change ("[" +:+ sep +:+ stringify x +:+ more_items sep l +:+ w1 +:+ "]")
    with (String "[" (sep +:+ stringify x +:+ more_items sep l +:+ w1 +:+ "]")) in Hlen.
  cbn [String.length] in Hlen. exact Hlen.
Qed.

End JsonFacts.

(** * Properties of the RESTful gateway *)

Module RestfulFacts.
Import Json Restful StringFacts JsonFacts.

Lemma code_given_falsy (code : option Z) :
  code_given code = None ↔ code = None ∨ code = Some 0.
Proof.
  unfold code_given. destruct code as [c|].
  - destruct (Z.eqb_spec c 0) as [->|Hc]; split; intros H; auto; try discriminate.
    destruct H as [H|H]; [discriminate | congruence].
  - split; auto.
Qed.

Lemma errorHandler_unsent (res : response) (err : error) (code : option Z) :
  headersSent res = false →
  errorHandler res err code =
    res_end (err_message_or_toString err +:+ nl)
      (setHeader "Content-Length" (show_Z (byteLength (err_message_or_toString err +:+ nl)))
         (setHeader "Content-Type" "text/x-error"
            (setStatus (status_of err code) res))).
Proof. intros H. unfold errorHandler. rewrite H. reflexivity. Qed.

Lemma errorHandler_statusCode (res : response) (err : error) (code : option Z) :
  headersSent res = false →
  statusCode (errorHandler res err code) = status_of err code.
Proof. intros H. rewrite errorHandler_unsent by done. reflexivity. Qed.

(** C6, the claim as stated fails: the handler is also entered with an
    explicit status, which wins over [err.code].  [onGet] passes 416
    with [meta.rangeNotSatisfiable]; when that error carries a code the
    claim maps (here [ENOENT], claimed to give 200), the status sent is
    still 416. *)
Lemma errorHandler_explicit_code_wins :
  headersSent fresh_response = false ∧
  err_code (ErrObject (CodeStr "ENOENT") (Some "no such file") "Error: no such file")
    = CodeStr "ENOENT" ∧
  statusCode
    (errorHandler fresh_response
       (ErrObject (CodeStr "ENOENT") (Some "no such file") "Error: no such file")
       (Some 416)) = 416 ∧
  (416 =? 200) = false.
Proof. repeat split. Qed.

(** C6 (amended): with the headers not yet sent, an explicit truthy
    status is the status sent whatever [err.code] is; without one (the
    argument absent or falsy) a numeric [err.code] within [100, 999] is
    the status, the five named codes map to 400, 403, 200, 503 and 503,
    and anything else gives 500.  In both cases the body is
    [err.message || err.toString()] followed by a newline, sent as
    [text/x-error] with its length.  When the headers were already sent,
    the response is ended with an empty body and nothing else about it
    changes. *)
Theorem errorHandler_mapping (res : response) (err : error) (code : option Z) :
  let res' := errorHandler res err code in
  (headersSent res = false →
     (∀ c, code = Some c → c ≠ 0 → statusCode res' = c) ∧
     (code = None ∨ code = Some 0 →
        (∀ n, err_code err = CodeNum n → 100 ≤ n ≤ 999 → statusCode res' = n) ∧
        (err_code err = CodeStr "EBADREQUEST" → statusCode res' = 400) ∧
        (err_code err = CodeStr "EACCES" → statusCode res' = 403) ∧
        (err_code err = CodeStr "ENOENT" → statusCode res' = 200) ∧
        (err_code err = CodeStr "ENOTREADY" → statusCode res' = 503) ∧
        (err_code err = CodeStr "EISDIR" → statusCode res' = 503) ∧
        ((∀ n, err_code err = CodeNum n → ¬ 100 ≤ n ≤ 999) →
         (∀ s, err_code err = CodeStr s →
            s ∉ ["EBADREQUEST"; "EACCES"; "ENOENT"; "ENOTREADY"; "EISDIR"]) →
         statusCode res' = 500)) ∧
     body res' = Some (err_message_or_toString err +:+ nl) ∧
     headers res' !! "Content-Type" = Some "text/x-error" ∧
     headers res' !! "Content-Length" =
       Some (show_Z (Z.of_nat (String.length (err_message_or_toString err +:+ nl)))) ∧
     headersSent res' = true) ∧
  (headersSent res = true →
     res' = mkResponse true (statusCode res) (headers res) (Some "")).
Proof.
  cbv zeta. split.
  - intros Hsent. rewrite errorHandler_unsent by done.
    cbn [statusCode res_end setHeader setStatus body headers headersSent].
    split; [|split; [|split; [|split; [|split]]]].
    + intros c -> Hc. unfold status_of, code_given.
      by destruct (Z.eqb_spec c 0).
    + intros Hcode. apply code_given_falsy in Hcode.
      unfold status_of. rewrite Hcode.
      repeat split.
      * intros n -> Hn. cbn. unfold isValidStatusCode.
        destruct (Z.leb_spec 100 n), (Z.leb_spec n 999); cbn; lia.
      * by intros ->.
      * by intros ->.
      * by intros ->.
      * by intros ->.
      * by intros ->.
      * intros Hnum Hstr. destruct (err_code err) as [|n|s] eqn:E; cbn.
        -- done.
        -- unfold isValidStatusCode.
           destruct (Z.leb_spec 100 n), (Z.leb_spec n 999); cbn; try done.
           exfalso. apply (Hnum n eq_refl). lia.
        -- specialize (Hstr s eq_refl). unfold code_is.
           destruct (String.eqb_spec s "EBADREQUEST") as [->|_]; [exfalso; apply Hstr; set_solver|].
           destruct (String.eqb_spec s "EACCES") as [->|_]; [exfalso; apply Hstr; set_solver|].
           destruct (String.eqb_spec s "ENOENT") as [->|_]; [exfalso; apply Hstr; set_solver|].
           destruct (String.eqb_spec s "ENOTREADY") as [->|_]; [exfalso; apply Hstr; set_solver|].
           destruct (String.eqb_spec s "EISDIR") as [->|_]; [exfalso; apply Hstr; set_solver|].
           done.
    + done.
    + rewrite lookup_insert_ne by done. by rewrite lookup_insert_eq.
    + by rewrite lookup_insert_eq.
    + done.
  - intros Hsent. unfold errorHandler. rewrite Hsent. reflexivity.
Qed.

(** The mapping at work: an [ENOENT] error answers 200 with its message
    when no status is passed, and 416 with the same body when [onGet]
    passes 416. *)
Lemma errorHandler_mapping_ENOENT :
  let err := ErrObject (CodeStr "ENOENT") (Some "no such file") "Error: no such file" in
  statusCode (errorHandler fresh_response err None) = 200 ∧
  body (errorHandler fresh_response err None) = Some ("no such file" +:+ nl) ∧
  statusCode (errorHandler fresh_response err (Some 416)) = 416 ∧
  body (errorHandler fresh_response err (Some 416)) = Some ("no such file" +:+ nl).
Proof.
  pose proof (errorHandler_mapping fresh_response
    (ErrObject (CodeStr "ENOENT") (Some "no such file") "Error: no such file")
    None) as [H _].
  pose proof (errorHandler_mapping fresh_response
    (ErrObject (CodeStr "ENOENT") (Some "no such file") "Error: no such file")
    (Some 416)) as [H' _].
  cbv zeta in H, H'.
  destruct (H eq_refl) as (_ & Hmap & Hbody & _).
  destruct (Hmap (or_introl eq_refl)) as (_ & _ & _ & H200 & _).
  destruct (H' eq_refl) as (H416 & _ & Hbody' & _).
  split; [exact (H200 eq_refl)|].
  split; [exact Hbody|].
  split; [apply (H416 416 eq_refl); lia | exact Hbody'].
Defined.

(** *** The oversized stream *)

Lemma headersSent_setHeader (k v : string) (res : response) :
  headersSent (setHeader k v res) = headersSent res.
Proof. reflexivity. Qed.

Lemma headersSent_setStatus (c : Z) (res : response) :
  headersSent (setStatus c res) = headersSent res.
Proof. reflexivity. Qed.

Lemma headersSent_set_if {B : Type} (o : option B) (f : B → response → response)
    (res : response) :
  (∀ b r, headersSent (f b r) = headersSent r) →
  headersSent (set_if o f res) = headersSent res.
Proof. intros Hf. destruct o; cbn; auto. Qed.

Lemma headersSent_content_headers (noMime : bool) (st : get_state) (m : meta)
    (res : response) :
  headersSent (content_headers noMime st m res) = headersSent res.
Proof.
  unfold content_headers.
  destruct (encoding_null st); rewrite ?headersSent_setHeader;
    (rewrite headersSent_set_if;
     [rewrite headersSent_set_if; [done|intros; by destruct noMime]
     |intros; rewrite headersSent_set_if; [done|done]]).
Qed.

Lemma oversized_iff (m : meta) :
  oversized m = true ↔ ∃ sz, size m = Some sz ∧ 8 * 1024 * 1024 < sz.
Proof.
  unfold oversized, MAX_STREAM_SIZE. destruct (size m) as [n|].
  - destruct (Z.ltb_spec (8 * 1024 * 1024) n); split.
    + eauto.
    + done.
    + done.
    + intros (sz & [= ->] & ?). lia.
  - split; [done|]. by intros (? & ? & ?).
Qed.

(** C8, the claim as stated fails: for a stream of 9437184 bytes the
    answer is 513 with the message, but the callback returns right after
    the error handler: it calls nothing on the stream and does not
    subscribe the listener that would destroy it when the request
    closes. *)
Lemma onGet_oversized_not_destroyed :
  let s := mkSource 7 true true true in
  let m := mkMeta None None false None None (Some (9 * 1024 * 1024)) None None (Some s) in
  let r := onGet false "Thu, 01 Jan 1970 00:00:00 GMT" (mkGetState false false false)
             fresh_response None m in
  statusCode (g_res r) = 513 ∧
  body (g_res r) =
    Some ("File size is bigger than allowed (8MB). Size is 9437184 bytes" +:+ nl) ∧
  existsb (get_action_eqb (Destroy 7)) (g_actions r ++ req_close r s) = false.
Proof. repeat split. Qed.

(** C8 (amended): when the read succeeded, [meta] has no
    [rangeNotSatisfiable], carries a stream and a size above 8 MiB, and
    the headers are not yet sent, the response is 513 with the body
    "File size is bigger than allowed (8MB). Size is <size> bytes" and a
    newline, sent as [text/x-error]; the stream is neither piped nor
    subscribed to, and the request gets no [close] listener, so the
    gateway calls nothing on the stream. *)
Theorem onGet_oversized (noMime : bool) (date : string) (st : get_state)
    (res : response) (m : meta) (s : source) (sz : Z) :
  headersSent res = false →
  rangeNotSatisfiable m = None →
  stream m = Some s →
  size m = Some sz →
  8 * 1024 * 1024 < sz →
  let r := onGet noMime date st res None m in
  statusCode (g_res r) = 513 ∧
  body (g_res r) =
    Some ("File size is bigger than allowed (8MB). Size is " +:+ show_Z sz
            +:+ " bytes" +:+ nl) ∧
  headers (g_res r) !! "Content-Type" = Some "text/x-error" ∧
  g_actions r = [] ∧
  req_close r s = [].
Proof.
  intros Hsent Hrange Hstream Hsize Hbig. cbv zeta.
  assert (Hover : oversized m = true) by (apply oversized_iff; eauto).
  unfold onGet. rewrite Hrange, Hstream, Hover.
  set (res1 := content_headers _ _ _ _).
  assert (Hs1 : headersSent res1 = false).
  { unfold res1. rewrite headersSent_content_headers.
    destruct (bool_decide _), (notModified m); cbn;
      rewrite ?headersSent_set_if; done. }
  rewrite bool_decide_eq_true_2 by eauto. cbn [orb].
  fold res1. rewrite errorHandler_unsent by done.
  unfold req_close, oversize_message, show_num. rewrite Hsize.
  cbn [g_res g_actions statusCode body headers res_end setHeader setStatus
       status_of code_given existsb].
  repeat split.
  - cbn [err_message_or_toString]. rewrite !append_assoc. reflexivity.
  - rewrite lookup_insert_ne by done. by rewrite lookup_insert_eq.
Qed.

(** The scenario of a 9 MiB file. *)
Lemma onGet_oversized_9MiB :
  let s := mkSource 7 true true true in
  let m := mkMeta None None false None (Some "text/plain") (Some 9437184) None None (Some s) in
  let r := onGet false "Thu, 01 Jan 1970 00:00:00 GMT" (mkGetState false false false)
             fresh_response None m in
  statusCode (g_res r) = 513 ∧
  body (g_res r) =
    Some ("File size is bigger than allowed (8MB). Size is 9437184 bytes" +:+ nl) ∧
  g_actions r = [].
Proof.
  cbv zeta.
  pose proof (onGet_oversized false "Thu, 01 Jan 1970 00:00:00 GMT"
    (mkGetState false false false) fresh_response
    (mkMeta None None false None (Some "text/plain") (Some 9437184) None None
       (Some (mkSource 7 true true true)))
    (mkSource 7 true true true) 9437184
    eq_refl eq_refl eq_refl eq_refl eq_refl) as H.
  cbv zeta in H. destruct H as (H1 & H2 & _ & H4 & _).
  split; [exact H1|]. split; [exact H2 | exact H4].
Defined.

(** *** The directory listing *)

(** After the first entry the encoder puts a comma, a newline and two
    spaces before every entry, and closes with a newline and a bracket. *)
Lemma encoder_run_later {A : Type} (str : A → string) (l : list A) :
  encoder_run str false (stream_of l) =
    map (λ y, OutData ("," +:+ nl +:+ "  " +:+ str y)) l
      ++ [OutData (nl +:+ "]"); OutEnd].
Proof.
  induction l as [|y l IH]; [reflexivity|].
  unfold stream_of in *. cbn [map app encoder_run encoder_step encoder_on_data].
  by rewrite IH.
Qed.

Lemma encoder_run_stream {A : Type} (str : A → string) (entries : list A) :
  encoder_run str true (stream_of entries) =
    match entries with
    | [] => [OutData "[]"; OutEnd]
    | x :: l =>
      OutData ("[" +:+ nl +:+ "  " +:+ str x)
        :: map (λ y, OutData ("," +:+ nl +:+ "  " +:+ str y)) l
        ++ [OutData (nl +:+ "]"); OutEnd]
    end.
Proof.
  destruct entries as [|x l]; [reflexivity|].
  change (stream_of (x :: l)) with (InData x :: stream_of l).
  cbn [encoder_run encoder_step encoder_on_data app].
  by rewrite encoder_run_later.
Qed.

Lemma collect_later (l : list json) :
  collect (map (λ y, OutData ("," +:+ nl +:+ "  " +:+ stringify y)) l
             ++ [OutData (nl +:+ "]"); OutEnd])
  = more_items (nl +:+ "  ") l +:+ nl +:+ "]".
Proof.
  induction l as [|y l IH]; [reflexivity|].
  cbn [map app collect more_items]. rewrite IH.
  by rewrite !append_assoc.
Qed.

Lemma jsonEncoder_output_cons (x : json) (l : list json) :
  jsonEncoder_output stringify (x :: l) =
    "[" +:+ (nl +:+ "  ") +:+ stringify x +:+ more_items (nl +:+ "  ") l +:+ nl +:+ "]".
Proof.
  unfold jsonEncoder_output. rewrite encoder_run_stream.
  cbn [collect]. rewrite collect_later. by rewrite !append_assoc.
Qed.

(** What the consumer of the encoder reads is the JSON text of the
    array of the entries. *)
Lemma jsonEncoder_output_parses (entries : list json) :
  parse (jsonEncoder_output stringify entries) = Some (JArr entries).
Proof.
  destruct entries as [|x l]; [reflexivity|].
  rewrite jsonEncoder_output_cons. by apply parse_spaced_array.
Qed.

Lemma lookup_set_if {B : Type} (o : option B) (f : B → response → response)
    (res : response) (k : string) :
  (∀ b r, headers (f b r) !! k = headers r !! k) →
  headers (set_if o f res) !! k = headers res !! k.
Proof. intros Hf. destruct o; cbn; auto. Qed.

(** C7: for a directory listing (the read succeeded, the closure has
    [options.encoding === null], [meta] carries the object stream and is
    neither unsatisfiable nor oversized) the response gets Content-Type
    [application/json] and the stream is piped through the encoder.  The
    encoder emits, for the first entry, an opening bracket, a newline, two
    spaces and the entry's JSON text; for every later entry a comma, a
    newline, two spaces and its JSON text; at the end a newline and a
    closing bracket, or exactly the text of the empty array when the stream
    had no entry.  For every sequence of JSON values the concatenated
    chunks parse to the array of that sequence.  The encoder has [pause]
    (resp. [resume]) exactly when the source has it, and it then calls the
    source's method. *)
Theorem jsonEncoder_listing (noMime : bool) (date : string) (st : get_state)
    (res : response) (m : meta) (s : source) (entries : list json) :
  encoding_null st = true →
  rangeNotSatisfiable m = None →
  stream m = Some s →
  oversized m = false →
  let r := onGet noMime date st res None m in
  headers (g_res r) !! "Content-Type" = Some "application/json" ∧
  g_actions r = [OnStreamError (src_id s); PipeJson (src_id s); OnReqClose (src_id s)] ∧
  encoder_run stringify true (stream_of entries) =
    match entries with
    | [] => [OutData "[]"; OutEnd]
    | x :: l =>
      OutData ("[" +:+ nl +:+ "  " +:+ stringify x)
        :: map (λ y, OutData ("," +:+ nl +:+ "  " +:+ stringify y)) l
        ++ [OutData (nl +:+ "]"); OutEnd]
    end ∧
  jsonEncoder_output stringify [] = "[]" ∧
  parse (jsonEncoder_output stringify entries) = Some (JArr entries) ∧
  (src_has_pause s = true → encoder_pause s = Some [CallPause (src_id s)]) ∧
  (src_has_pause s = false → encoder_pause s = None) ∧
  (src_has_resume s = true → encoder_resume s = Some [CallResume (src_id s)]) ∧
  (src_has_resume s = false → encoder_resume s = None).
Proof.
  intros Hnull Hrange Hstream Hsmall. cbv zeta.
  split; [|split].
  - unfold onGet. rewrite Hrange, Hstream, Hsmall.
    rewrite bool_decide_eq_true_2 by eauto. cbn [orb g_res].
    rewrite lookup_set_if.
    2:{ intros b r. cbn [setHeader headers]. by rewrite !lookup_insert_ne. }
    unfold content_headers. rewrite Hnull. cbn [setHeader headers].
    by rewrite lookup_insert_eq.
  - unfold onGet. rewrite Hrange, Hstream, Hsmall, Hnull. reflexivity.
  - split; [apply encoder_run_stream|].
    split; [reflexivity|].
    split; [apply jsonEncoder_output_parses|].
    unfold encoder_pause, encoder_resume.
    repeat split; by intros ->.
Qed.

(** The listing of a directory with the two entries [a] and [b]. *)
Lemma jsonEncoder_listing_two_entries :
  let s := mkSource 3 true true false in
  let m := mkMeta None (Some "etag") false None None None None None (Some s) in
  let r := onGet false "Thu, 01 Jan 1970 00:00:00 GMT" (mkGetState false false true)
             fresh_response None m in
  let entries := [JObj [("name", JStr "a")]; JObj [("name", JStr "b")]] in
  headers (g_res r) !! "Content-Type" = Some "application/json" ∧
  jsonEncoder_output stringify entries =
    "[" +:+ nl +:+ "  {" +:+ dq +:+ "name" +:+ dq +:+ ":" +:+ dq +:+ "a" +:+ dq +:+ "},"
        +:+ nl +:+ "  {" +:+ dq +:+ "name" +:+ dq +:+ ":" +:+ dq +:+ "b" +:+ dq +:+ "}"
        +:+ nl +:+ "]" ∧
  parse (jsonEncoder_output stringify entries) = Some (JArr entries) ∧
  encoder_pause s = Some [CallPause 3] ∧
  encoder_resume s = None.
Proof.
  cbv zeta.
  pose proof (jsonEncoder_listing false "Thu, 01 Jan 1970 00:00:00 GMT"
    (mkGetState false false true) fresh_response
    (mkMeta None (Some "etag") false None None None None None
       (Some (mkSource 3 true true false)))
    (mkSource 3 true true false)
    [JObj [("name", JStr "a")]; JObj [("name", JStr "b")]]
    eq_refl eq_refl eq_refl eq_refl) as H.
  cbv zeta in H.
  destruct H as (Htype & _ & _ & _ & Hparse & Hpause & _ & _ & Hresume).
  split; [exact Htype|]. split; [reflexivity|]. split; [exact Hparse|].
  split; [exact (Hpause eq_refl) | exact (Hresume eq_refl)].
Defined.

(** *** The POST command *)

(** [message.k], for a message that is not [null]. *)
Definition field (message : json) (k : string) : option json :=
  match member message k with
  | Some o => o
  | None => None
  end.

Lemma member_not_null (message : json) (k : string) :
  message ≠ JNull → member message k = Some (field message k).
Proof. intros H. unfold field. destruct message; done. Qed.

(** For every parsed body but [null], the four fields are tested for
    truthiness in the order [renameFrom], [copyFrom], [linkTo],
    [metadata]; the first truthy one selects the command, a falsy value
    counts as absent, and when none is truthy the request is aborted
    with "Invalid command" and no VFS call is made. *)
Theorem select_command_priority (path data : string) (message : json) :
  message ≠ JNull →
  let rf := field message "renameFrom" in
  let cf := field message "copyFrom" in
  let lt := field message "linkTo" in
  let md := field message "metadata" in
  let out := select_command path data message in
  (truthy_opt rf = true →
     out = PostCommand VfsRename path (mkPostOptions rf None None)) ∧
  (truthy_opt rf = false → truthy_opt cf = true →
     out = PostCommand VfsCopy path (mkPostOptions cf None None)) ∧
  (truthy_opt rf = false → truthy_opt cf = false → truthy_opt lt = true →
     out = PostCommand VfsSymlink path (mkPostOptions None lt None)) ∧
  (truthy_opt rf = false → truthy_opt cf = false → truthy_opt lt = false →
   truthy_opt md = true →
     out = PostCommand VfsMetadata path (mkPostOptions None None md)) ∧
  (truthy_opt rf = false → truthy_opt cf = false → truthy_opt lt = false →
   truthy_opt md = false →
     out = PostAbort (new_Error ("Invalid command in POST " +:+ data)) ∧
     vfs_calls out = []) ∧
  (List.length (vfs_calls out) ≤ 1)%nat.
Proof.
  intros Hnn. cbv zeta. unfold select_command.
  rewrite !member_not_null by done.
  destruct (truthy_opt (field message "renameFrom"));
    destruct (truthy_opt (field message "copyFrom"));
    destruct (truthy_opt (field message "linkTo"));
    destruct (truthy_opt (field message "metadata"));
    cbn; repeat split; intros; try done; lia.
Qed.

(** Several truthy fields, one of them an empty string: [copyFrom] wins
    over [linkTo], and the empty [renameFrom] is passed over. *)
Lemma select_command_priority_example :
  select_command "/a" "{}"
    (JObj [("linkTo", JStr "/c"); ("renameFrom", JStr ""); ("copyFrom", JStr "/b")])
  = PostCommand VfsCopy "/a" (mkPostOptions (Some (JStr "/b")) None None).
Proof.
  pose proof (select_command_priority "/a" "{}"
    (JObj [("linkTo", JStr "/c"); ("renameFrom", JStr ""); ("copyFrom", JStr "/b")])
    ltac:(discriminate)) as H.
  cbv zeta in H. destruct H as (_ & H & _).
  exact (H eq_refl eq_refl).
Defined.

(** C10, the case the code misses: the body [null] is valid JSON, no
    field of it is truthy, and reading [message.renameFrom] throws; the
    exception leaves the listener, so no "Invalid command" answer is
    sent. *)
Theorem select_command_null (path : string) :
  parse "null" = Some JNull ∧
  select_command path "null" JNull = PostThrows ∧
  post_on_end (λ data, match parse data with
                       | Some v => inr v
                       | None => inl (new_Error "Unexpected token")
                       end) path "null" = PostThrows ∧
  vfs_calls (select_command path "null" JNull) = [].
Proof. repeat split. Qed.

End RestfulFacts.

(** * The middleware and the callbacks of the gateway *)

Module GatewayFacts.
Import Json Restful Gateway StringFacts JsonFacts RestfulFacts.

(** ** Cutting strings *)

Lemma substring_append_l (a b : string) :
  String.substring 0 (String.length a) (a +:+ b) = a.
Proof.
  induction a as [|c a IH]; [by destruct b|].
  rewrite append_cons. cbn [String.length String.substring]. by rewrite IH.
Qed.

Lemma substring_skip (a b : string) (n : nat) :
  String.substring (String.length a) n (a +:+ b) = String.substring 0 n b.
Proof.
  induction a as [|c a IH]; [done|].
  rewrite append_cons. cbn [String.length String.substring]. apply IH.
Qed.

Lemma substring_whole (b : string) : String.substring 0 (String.length b) b = b.
Proof.
  induction b as [|c b IH]; [done|].
  cbn [String.length String.substring]. by rewrite IH.
Qed.

Lemma substring_prefix (m p : string) :
  String.substring 0 (String.length m) p = m → ∃ rest, p = m +:+ rest.
Proof.
  revert p. induction m as [|c m IH]; intros p H.
  - exists p. by rewrite append_nil_l.
  - destruct p as [|x p]; [done|].
    cbn [String.length String.substring] in H. injection H as -> H.
    destruct (IH p H) as [rest ->]. exists rest. by rewrite append_cons.
Qed.

Lemma substr_from_append (a b : string) :
  substr_from (String.length a) (a +:+ b) = b.
Proof.
  unfold substr_from. rewrite substring_skip, length_append.
  replace (String.length a + String.length b - String.length a)%nat
    with (String.length b) by lia.
  apply substring_whole.
Qed.

Lemma get_last (pre : string) (c : ascii) :
  String.get (String.length (pre +:+ String c "") - 1) (pre +:+ String c "") = Some c.
Proof.
  induction pre as [|x pre IH]; [done|].
  rewrite append_cons. cbn [String.length]. 
  rewrite length_append in *. cbn [String.length] in *.
  replace (S (String.length pre + 1) - 1)%nat with (S (String.length pre + 1 - 1)) by lia.
  cbn [String.get]. apply IH.
Qed.

Lemma string_snoc (s : string) :
  s ≠ "" → ∃ pre c, s = pre +:+ String c "".
Proof.
  induction s as [|x s IH]; [done|]. intros _.
  destruct s as [|y s].
  - exists "", x. done.
  - destruct IH as (pre & c & Heq); [done|].
    exists (String x pre), c. rewrite append_cons. by rewrite Heq.
Qed.

Lemma ends_with_slash_spec (s : string) :
  ends_with_slash s = true ↔ ∃ pre, s = pre +:+ "/".
Proof.
  unfold ends_with_slash. split.
  - intros H. destruct s as [|x s]; [done|].
    destruct (string_snoc (String x s)) as (pre & c & Heq); [done|].
    rewrite Heq in H |- *. rewrite get_last in H.
    apply Ascii.eqb_eq in H as ->. by exists pre.
  - intros [pre ->]. rewrite get_last. done.
Qed.

Lemma normalize_mount_slash (mount : string) :
  ∃ pre, normalize_mount mount = pre +:+ "/".
Proof.
  unfold normalize_mount. destruct (ends_with_slash mount) eqn:E.
  - by apply ends_with_slash_spec.
  - by exists mount.
Qed.

Lemma normalize_mount_idem (mount : string) :
  normalize_mount (normalize_mount mount) = normalize_mount mount.
Proof.
  destruct (normalize_mount_slash mount) as [pre H].
  unfold normalize_mount at 1.
  rewrite (proj2 (ends_with_slash_spec _)); [done|]. eauto.
Qed.

(** The two cuts the middleware makes on the path. *)
Lemma mount_cut (mount path : string) :
  String.eqb (substr 0 (String.length (normalize_mount mount)) path)
    (normalize_mount mount) = true ↔
  ∃ rest, path = normalize_mount mount +:+ rest.
Proof.
  rewrite String.eqb_eq. unfold substr. split.
  - apply substring_prefix.
  - intros [rest ->]. apply substring_append_l.
Qed.

Lemma path_cut (mount rest : string) :
  substr_from (String.length (normalize_mount mount) - 1)
    (normalize_mount mount +:+ rest) = "/" +:+ rest.
Proof.
  destruct (normalize_mount_slash mount) as [pre ->].
  rewrite length_append. cbn [String.length].
  replace (String.length pre + 1 - 1)%nat with (String.length pre) by lia.
  rewrite append_assoc. apply substr_from_append.
Qed.


Lemma is_method_true (req : request) (m : string) :
  is_method req m = true ↔ req_method req = m.
Proof. apply String.eqb_eq. Qed.

Lemma is_method_false (req : request) (m : string) :
  is_method req m = false ↔ req_method req ≠ m.
Proof. apply String.eqb_neq. Qed.

Lemma handle_get_not_next (mo : mount_options) (req : request) (head : bool)
    (path : string) :
  handle_get mo req head path ≠ Next.
Proof. unfold handle_get. repeat case_match; done. Qed.

Lemma handle_upload_not_next (req : request) (path : string) :
  handle_upload req path ≠ Next.
Proof. unfold handle_upload. repeat case_match; done. Qed.

(** X1: the middleware passes the request on with [next()] in exactly
    two cases: the mount is read-only and the method is neither GET nor
    HEAD, or the path does not start with the mount followed by a slash
    (so a request for the mount itself, without the slash, is passed
    on). *)
Theorem handle_next_iff (mo : mount_options) (mount : string) (req : request) :
  handle mo mount req = Next ↔
  (mo_readOnly mo = true ∧ req_method req ≠ "GET" ∧ req_method req ≠ "HEAD") ∨
  (∀ rest, req_pathname req ≠ normalize_mount mount +:+ rest).
Proof.
  unfold handle.
  destruct (mo_readOnly mo && negb (is_method req "GET" || is_method req "HEAD"))
    eqn:Hro.
  - split; [intros _|done]. left.
    apply andb_true_iff in Hro as [-> Hm]. apply negb_true_iff, orb_false_iff in Hm.
    destruct Hm as [Hg Hh]. by rewrite !is_method_false in *.
  - assert (Hnot : ¬ (mo_readOnly mo = true ∧ req_method req ≠ "GET"
                      ∧ req_method req ≠ "HEAD")).
    { intros (Hr & Hg & Hh). rewrite Hr in Hro. cbn in Hro.
      apply negb_false_iff, orb_true_iff in Hro.
      rewrite !is_method_true in Hro. tauto. }
    cbv zeta.
    destruct (String.eqb (substr 0 _ (req_pathname req)) (normalize_mount mount))
      eqn:Hcut; cbn [negb].
    + apply mount_cut in Hcut as [rest Hrest].
      split.
      * intros H. exfalso. revert H.
        repeat case_match; try done; intros Hnext.
        -- by apply handle_get_not_next in Hnext.
        -- by apply handle_upload_not_next in Hnext.
      * intros [H|H]; [done|]. by destruct (H rest).
    + split; [intros _|done]. right. intros rest Hrest.
      assert (String.eqb (substr 0 (String.length (normalize_mount mount))
                (req_pathname req)) (normalize_mount mount) = true)
        by (apply mount_cut; eauto).
      congruence.
Qed.


(** What [handle] does once the path is known to be below the mount. *)
Lemma handle_under_mount (mo : mount_options) (mount : string) (req : request)
    (rest : string) :
  req_pathname req = normalize_mount mount +:+ rest →
  mo_readOnly mo && negb (is_method req "GET" || is_method req "HEAD") = false →
  handle mo mount req =
    let path := "/" +:+ rest in
    if is_method req "HEAD" || is_method req "GET" then
      handle_get mo req (is_method req "HEAD") path
    else if is_method req "PUT" then
      if ends_with_slash path then Mkdir path
      else
        Mkfile path
          (num_lt (parseInt_header (req_headers req !! "content-length"))
             MAX_BUFFER_FILESIZE)
    else if is_method req "DELETE" then
      if ends_with_slash path then Rmdir path else Rmfile path
    else if is_method req "POST" then
      if ends_with_slash path then handle_upload req path else ReadBody path
    else if is_method req "PROPFIND" then Stat path
    else Abort (ErrText "Unsupported HTTP method") (Some 501).
Proof.
  intros Hpath Hro. unfold handle. rewrite Hro. cbv zeta.
  rewrite (proj2 (mount_cut mount (req_pathname req))) by eauto.
  cbn [negb]. rewrite Hpath, path_cut. reflexivity.
Qed.

(** X2: whatever the request goes on to do, the path it works on is the
    part of the request path below the mount, led by a slash; only a GET
    or HEAD of a directory under a mount with [autoIndex] has the index
    file name appended. *)
Theorem handle_target_path (mo : mount_options) (mount : string) (req : request)
    (p : string) :
  target_path (handle mo mount req) = Some p →
  ∃ rest, req_pathname req = normalize_mount mount +:+ rest ∧
    (p = "/" +:+ rest ∨
     ∃ index, mo_autoIndex mo = Some index ∧ index ≠ "" ∧
       (req_method req = "GET" ∨ req_method req = "HEAD") ∧
       ends_with_slash ("/" +:+ rest) = true ∧
       p = "/" +:+ rest +:+ index).
Proof.
  intros Hp.
  destruct (mo_readOnly mo && negb (is_method req "GET" || is_method req "HEAD"))
    eqn:Hro.
  { unfold handle in Hp. by rewrite Hro in Hp. }
  destruct (String.eqb (substr 0 (String.length (normalize_mount mount))
              (req_pathname req)) (normalize_mount mount)) eqn:Hcut.
  2:{ unfold handle in Hp. rewrite Hro in Hp. cbv zeta in Hp. by rewrite Hcut in Hp. }
  apply mount_cut in Hcut as [rest Hrest]. exists rest. split; [done|].
  rewrite (handle_under_mount mo mount req rest) in Hp by done.
  cbv zeta in Hp. unfold handle_get, handle_upload in Hp.
  destruct (is_method req "HEAD" || is_method req "GET") eqn:Hm.
  - assert (Hmeth : req_method req = "GET" ∨ req_method req = "HEAD").
    { apply orb_true_iff in Hm. rewrite !is_method_true in Hm. tauto. }
    repeat case_match; simplify_eq/=; auto.
    all: try (right; eexists; repeat split; try done; by intros ->).
  - repeat case_match; simplify_eq/=; auto.
Qed.


Lemma handle_target_path_example :
  ∃ rest,
    req_pathname (mkRequest "DELETE" "/vfs/docs/a.txt" ∅)
      = normalize_mount "/vfs" +:+ rest ∧
    ("/docs/a.txt" = "/" +:+ rest ∨
     ∃ index, mo_autoIndex (mkMountOptions false (Some "index.html") false) = Some index
       ∧ index ≠ "" ∧
       (req_method (mkRequest "DELETE" "/vfs/docs/a.txt" ∅) = "GET"
        ∨ req_method (mkRequest "DELETE" "/vfs/docs/a.txt" ∅) = "HEAD") ∧
       ends_with_slash ("/" +:+ rest) = true ∧
       "/docs/a.txt" = "/" +:+ rest +:+ index).
Proof.
  exact (handle_target_path (mkMountOptions false (Some "index.html") false) "/vfs"
           (mkRequest "DELETE" "/vfs/docs/a.txt" ∅) "/docs/a.txt" eq_refl).
Defined.

(** X3: under a read-only mount no request reaches a call that changes
    the file system, and none is answered with an error by the
    middleware itself: what is not a GET or a HEAD is passed on. *)
Theorem readOnly_never_writes (mo : mount_options) (mount : string) (req : request)
    (res : response) :
  mo_readOnly mo = true →
  writes (handle mo mount req) = false ∧
  answer res (handle mo mount req) = None.
Proof.
  intros Hro. unfold handle. rewrite Hro. cbn [andb].
  destruct (is_method req "GET" || is_method req "HEAD") eqn:Hm; cbn [negb]; [|done].
  cbv zeta. case_match; [done|].
  rewrite (orb_comm (is_method req "HEAD")), Hm.
  unfold handle_get. repeat case_match; done.
Qed.

Lemma readOnly_never_writes_example :
  writes (handle (mkMountOptions true None false) "/vfs"
            (mkRequest "PUT" "/vfs/a.txt" ∅)) = false ∧
  answer fresh_response
    (handle (mkMountOptions true None false) "/vfs"
       (mkRequest "PUT" "/vfs/a.txt" ∅)) = None.
Proof.
  exact (readOnly_never_writes (mkMountOptions true None false) "/vfs"
           (mkRequest "PUT" "/vfs/a.txt" ∅) fresh_response eq_refl).
Defined.

Definition known_methods : list string :=
  ["GET"; "HEAD"; "PUT"; "DELETE"; "POST"; "PROPFIND"].

(** X4: below a writable mount, a method other than GET, HEAD, PUT,
    DELETE, POST and PROPFIND is answered with status 501 and the text
    "Unsupported HTTP method" followed by a newline, sent as
    [text/x-error] with the length 24. *)
Theorem unsupported_method (mo : mount_options) (mount : string) (req : request)
    (rest : string) (res : response) :
  mo_readOnly mo = false →
  req_pathname req = normalize_mount mount +:+ rest →
  existsb (String.eqb (req_method req)) known_methods = false →
  headersSent res = false →
  ∃ res', answer res (handle mo mount req) = Some res' ∧
    statusCode res' = 501 ∧
    body res' = Some ("Unsupported HTTP method" +:+ nl) ∧
    headers res' !! "Content-Type" = Some "text/x-error" ∧
    headers res' !! "Content-Length" = Some "24".
Proof.
  intros Hro Hpath Hm Hsent.
  rewrite (handle_under_mount mo mount req rest) by (done || by rewrite Hro).
  cbv zeta.
  assert (Hno : ∀ m, m ∈ known_methods → is_method req m = false).
  { intros m Hin. apply not_true_is_false. intros Heq.
    assert (existsb (String.eqb (req_method req)) known_methods = true); [|congruence].
    apply existsb_exists. exists m. split; [by apply list_elem_of_In|done]. }
  rewrite !Hno by (unfold known_methods; set_solver).
  cbn [orb answer]. eexists. split; [reflexivity|].
  unfold errorHandler. rewrite Hsent.
  cbn [statusCode body headers res_end setHeader setStatus].
  repeat split.
  - rewrite lookup_insert_ne by done. by rewrite lookup_insert_eq.
  - by rewrite lookup_insert_eq.
Qed.


Lemma unsupported_method_example :
  ∃ res',
    answer fresh_response
      (handle (mkMountOptions false None false) "/vfs"
         (mkRequest "PATCH" "/vfs/a.txt" ∅)) = Some res' ∧
    statusCode res' = 501 ∧
    body res' = Some ("Unsupported HTTP method" +:+ nl) ∧
    headers res' !! "Content-Type" = Some "text/x-error" ∧
    headers res' !! "Content-Length" = Some "24".
Proof.
  exact (unsupported_method (mkMountOptions false None false) "/vfs"
           (mkRequest "PATCH" "/vfs/a.txt" ∅) "a.txt" fresh_response
           eq_refl eq_refl eq_refl eq_refl).
Defined.

(** ** Numbers in headers *)

Definition stops_digits (rest : string) : Prop :=
  match rest with
  | "" => True
  | String c _ => is_digit c = false
  end.

Lemma span_digits_stop (rest : string) :
  stops_digits rest → span_digits rest = ("", rest).
Proof.
  destruct rest as [|c r]; [done|]. cbn [stops_digits span_digits]. by intros ->.
Qed.

Lemma span_digits_uint (d : Decimal.uint) (rest : string) :
  stops_digits rest →
  span_digits (NilEmpty.string_of_uint d +:+ rest) = (NilEmpty.string_of_uint d, rest).
Proof.
  intros Hrest. induction d as [|d IH|d IH|d IH|d IH|d IH|d IH|d IH|d IH|d IH|d IH];
    cbn [NilEmpty.string_of_uint]; rewrite ?append_nil_l, ?append_cons;
    [by apply span_digits_stop|..];
    cbn [span_digits]; rewrite IH; reflexivity.
Qed.

Lemma uint_head (d : Decimal.uint) :
  d ≠ Decimal.Nil →
  ∃ c r, NilEmpty.string_of_uint d = String c r ∧ is_digit c = true.
Proof. destruct d; [done|..]; intros _; cbn [NilEmpty.string_of_uint]; eauto. Qed.

Lemma digit_plain (c : ascii) :
  is_digit c = true →
  is_js_space c = false ∧ (nat_of_ascii c =? 45)%nat = false
  ∧ (nat_of_ascii c =? 43)%nat = false.
Proof.
  unfold is_digit, is_js_space. cbv zeta. intros H.
  apply andb_true_iff in H as [H1 H2].
  apply Nat.leb_le in H1, H2.
  repeat split; repeat (apply orb_false_iff; split); apply Nat.eqb_neq; lia.
Qed.

Lemma parseInt_digits (d : Decimal.uint) :
  d ≠ Decimal.Nil →
  parseInt (NilEmpty.string_of_uint d) = Num (Z.of_uint d).
Proof.
  intros Hd. unfold parseInt.
  destruct (uint_head d Hd) as (c & r & Heq & Hc).
  destruct (digit_plain c Hc) as (Hsp & Hminus & Hplus).
  rewrite Heq. cbn [trim_left]. rewrite Hsp, Hminus, Hplus. rewrite <- Heq.
  pose proof (span_digits_uint d "" I) as Hspan. rewrite append_nil_r in Hspan.
  rewrite Hspan. cbn [fst].
  replace (NilEmpty.string_of_uint d) with (NilZero.string_of_uint d)
    by (by destruct d).
  by rewrite NilZero.usu.
Qed.

Lemma parseInt_minus_digits (d : Decimal.uint) :
  d ≠ Decimal.Nil →
  parseInt (String "-" (NilEmpty.string_of_uint d)) = Num (- Z.of_uint d).
Proof.
  intros Hd. unfold parseInt. cbn [trim_left].
  change (is_js_space "-") with false. cbn iota.
  change (nat_of_ascii "-" =? 45)%nat with true. cbn iota.
  pose proof (span_digits_uint d "" I) as Hspan. rewrite append_nil_r in Hspan.
  rewrite Hspan. cbn [fst].
  replace (NilEmpty.string_of_uint d) with (NilZero.string_of_uint d)
    by (by destruct d).
  by rewrite NilZero.usu.
Qed.

(** [parseInt] reads back the decimal numeral of every integer. *)
Lemma parseInt_show_Z (n : Z) : parseInt (show_Z n) = Num n.
Proof.
  destruct (show_Z_cases n) as (d & Hd & [[Hint ->]|[Hint ->]]).
  - rewrite parseInt_digits by done. f_equal.
    rewrite <- (DecimalZ.of_to n), Hint. reflexivity.
  - rewrite parseInt_minus_digits by done. f_equal.
    rewrite <- (DecimalZ.of_to n), Hint. reflexivity.
Qed.

(** The numeral of a natural number is made of digits. *)
Lemma show_Z_nonneg (n : Z) :
  0 ≤ n → ∃ d, d ≠ Decimal.Nil ∧ show_Z n = NilEmpty.string_of_uint d.
Proof.
  intros Hn. destruct (show_Z_cases n) as (d & Hd & [[Hint ->]|[Hint _]]); [eauto|].
  exfalso. destruct n; cbn in Hint; try done; lia.
Qed.


(** ** The [Range] header *)

Lemma indexOf_cons_digit (c x : ascii) (r : string) :
  is_digit x = true → is_digit c = false →
  indexOf c (String x r) = option_map S (indexOf c r).
Proof.
  intros Hx Hc. cbn [indexOf]. destruct (Ascii.eqb_spec x c) as [->|_]; [|done].
  congruence.
Qed.

Lemma indexOf_uint (c : ascii) (d : Decimal.uint) :
  is_digit c = false → indexOf c (NilEmpty.string_of_uint d) = None.
Proof.
  intros Hc. induction d as [|d IH|d IH|d IH|d IH|d IH|d IH|d IH|d IH|d IH|d IH];
    cbn [NilEmpty.string_of_uint]; [done|..];
    rewrite indexOf_cons_digit by done; by rewrite IH.
Qed.

Lemma split_on_single (sep : ascii) (a : string) :
  indexOf sep a = None → split_on sep a = [a].
Proof.
  induction a as [|c a IH]; [done|].
  cbn [indexOf split_on]. destruct (Ascii.eqb c sep); [done|].
  intros H. rewrite IH; [done|]. by destruct (indexOf sep a).
Qed.

Lemma split_on_first (sep : ascii) (a r : string) :
  indexOf sep a = None →
  split_on sep (a +:+ String sep r) = a :: split_on sep r.
Proof.
  induction a as [|c a IH].
  - intros _. rewrite append_nil_l. cbn [split_on]. by rewrite Ascii.eqb_refl.
  - rewrite append_cons. cbn [indexOf split_on]. destruct (Ascii.eqb c sep); [done|].
    intros H. rewrite IH; [done|]. by destruct (indexOf sep a).
Qed.

Lemma split_on_length (sep : ascii) (s : string) :
  (2 ≤ List.length (split_on sep s))%nat ↔ is_Some (indexOf sep s).
Proof.
  induction s as [|c s IH]; cbn [split_on indexOf].
  - cbn. split; [lia|by intros [? ?]].
  - destruct (Ascii.eqb c sep).
    + split; [intros _; by eexists|intros _]. cbn [List.length].
      assert (1 ≤ List.length (split_on sep s))%nat; [|lia].
      clear. destruct s as [|x s]; cbn [split_on]; [cbn; lia|].
      repeat case_match; cbn; lia.
    + destruct (split_on sep s) as [|h t] eqn:E; cbn [List.length] in *.
      * split; [lia|]. intros [? H]. destruct (indexOf sep s); [|done].
        assert (2 ≤ 0)%nat by (apply IH; eauto). lia.
      * rewrite IH. destruct (indexOf sep s); cbn; split; intros [? ?]; eauto; done.
Qed.

(** A [Range] header is read without an exception exactly when a dash
    follows its first equals sign. *)
Lemma parse_range_throws (hdrs : gmap string string) (value : string) :
  parse_range hdrs value = None ↔
  indexOf "-" (after_index (indexOf "=" value) value) = None.
Proof.
  unfold parse_range. cbv zeta.
  pose proof (split_on_length "-" (after_index (indexOf "=" value) value)) as H.
  destruct (split_on "-" _) as [|p0 [|p1 t]] eqn:E; cbn [List.length] in H.
  - split; [intros _|done]. apply eq_None_not_Some. rewrite <- H. lia.
  - split; [intros _|done]. apply eq_None_not_Some. rewrite <- H. lia.
  - split; [done|]. intros Hnone. exfalso.
    apply eq_None_not_Some in Hnone. apply Hnone, H. lia.
Qed.


Lemma show_Z_nonneg_facts (n : Z) :
  0 ≤ n →
  nonempty (show_Z n) = true ∧ indexOf "-" (show_Z n) = None.
Proof.
  intros Hn. destruct (show_Z_nonneg n Hn) as (d & Hd & ->). split.
  - by destruct (uint_head d Hd) as (c & r & -> & _).
  - by apply indexOf_uint.
Qed.

Lemma parse_range_bytes (hdrs : gmap string string) (spec : string) :
  parse_range hdrs ("bytes=" +:+ spec) =
    match split_on "-" spec with
    | p0 :: p1 :: _ =>
      Some {| range_start := if nonempty p0 then Some (parseInt p0) else None;
              range_end := if nonempty p1 then Some (parseInt p1) else None;
              range_etag := hdrs !! "if-range" |}
    | _ => None
    end.
Proof.
  unfold parse_range. cbv zeta.
  change (indexOf "=" ("bytes=" +:+ spec)) with (Some 5%nat).
  cbn [after_index].
  change (substr_from 6 ("bytes=" +:+ spec))
    with (substr_from (String.length "bytes=") ("bytes=" +:+ spec)).
  by rewrite substr_from_append.
Qed.

(** X5: the [Range] header is cut after its first equals sign and at
    the dashes: [bytes=a-b] gives start [a] and end [b], [bytes=a-] gives
    only the start, [bytes=-b] gives only the end [b] (not a suffix
    length), and a value without dash, as [bytes=a], makes the read of
    the second part throw. *)
Theorem range_header_forms (hdrs : gmap string string) (a b : Z) :
  0 ≤ a ≤ MAX_SAFE_INTEGER → 0 ≤ b ≤ MAX_SAFE_INTEGER →
  parse_range hdrs ("bytes=" +:+ show_Z a +:+ "-" +:+ show_Z b)
    = Some (mkRange (Some (Num a)) (Some (Num b)) (hdrs !! "if-range")) ∧
  parse_range hdrs ("bytes=" +:+ show_Z a +:+ "-")
    = Some (mkRange (Some (Num a)) None (hdrs !! "if-range")) ∧
  parse_range hdrs ("bytes=-" +:+ show_Z b)
    = Some (mkRange None (Some (Num b)) (hdrs !! "if-range")) ∧
  parse_range hdrs ("bytes=" +:+ show_Z a) = None.
Proof.
  intros [Ha _] [Hb _].
  destruct (show_Z_nonneg_facts a Ha) as [Hna Hda].
  destruct (show_Z_nonneg_facts b Hb) as [Hnb Hdb].
  change ("bytes=-" +:+ show_Z b) with ("bytes=" +:+ "" +:+ "-" +:+ show_Z b).
  rewrite !parse_range_bytes.
  change ("-" +:+ show_Z b) with (String "-" (show_Z b)).
  change (show_Z a +:+ "-") with (show_Z a +:+ String "-" "").
  rewrite !split_on_first by done.
  rewrite !split_on_single by done.
  rewrite Hna, Hnb, !parseInt_show_Z. done.
Qed.

Lemma range_header_forms_example :
  parse_range ∅ "bytes=0-99" = Some (mkRange (Some (Num 0)) (Some (Num 99)) None) ∧
  parse_range ∅ "bytes=0-" = Some (mkRange (Some (Num 0)) None None) ∧
  parse_range ∅ "bytes=-99" = Some (mkRange None (Some (Num 99)) None) ∧
  parse_range ∅ "bytes=0" = None.
Proof.
  exact (range_header_forms ∅ 0 99 ltac:(unfold MAX_SAFE_INTEGER; lia)
           ltac:(unfold MAX_SAFE_INTEGER; lia)).
Defined.

Lemma handle_get_throws (mo : mount_options) (req : request) (head : bool)
    (path : string) :
  handle_get mo req head path = Throws ↔
  ∃ value, req_headers req !! "range" = Some value ∧
    indexOf "-" (after_index (indexOf "=" value) value) = None.
Proof.
  unfold handle_get. cbv zeta.
  destruct (req_headers req !! "range") as [value|] eqn:Hrange.
  - destruct (parse_range (req_headers req) value) as [r|] eqn:Hparse.
    + split.
      * repeat case_match; done.
      * intros (v & [= <-] & Hdash).
        apply (parse_range_throws (req_headers req)) in Hdash. congruence.
    + split; [intros _|done]. exists value. split; [done|].
      by apply (parse_range_throws (req_headers req)).
  - split.
    + repeat case_match; done.
    + by intros (v & ? & _).
Qed.

(** X6: the middleware throws exactly for a GET or HEAD below the mount
    whose [Range] header has no dash after its first equals sign; the
    exception comes before any VFS call and no response is written. *)
Theorem handle_throws_iff (mo : mount_options) (mount : string) (req : request) :
  handle mo mount req = Throws ↔
  (req_method req = "GET" ∨ req_method req = "HEAD") ∧
  (∃ rest, req_pathname req = normalize_mount mount +:+ rest) ∧
  ∃ value, req_headers req !! "range" = Some value ∧
    indexOf "-" (after_index (indexOf "=" value) value) = None.
Proof.
  split.
  - intros H.
    destruct (mo_readOnly mo && negb (is_method req "GET" || is_method req "HEAD"))
      eqn:Hro.
    { unfold handle in H. by rewrite Hro in H. }
    destruct (String.eqb (substr 0 (String.length (normalize_mount mount))
                (req_pathname req)) (normalize_mount mount)) eqn:Hcut.
    2:{ unfold handle in H. rewrite Hro in H. cbv zeta in H. by rewrite Hcut in H. }
    apply mount_cut in Hcut as [rest Hrest].
    rewrite (handle_under_mount mo mount req rest) in H by done. cbv zeta in H.
    destruct (is_method req "HEAD" || is_method req "GET") eqn:Hm.
    + apply orb_true_iff in Hm. rewrite !is_method_true in Hm.
      apply handle_get_throws in H. split; [tauto|]. split; [eauto|done].
    + exfalso. revert H. unfold handle_upload. repeat case_match; done.
  - intros (Hm & [rest Hrest] & Hrange).
    assert (Hget : is_method req "HEAD" || is_method req "GET" = true).
    { apply orb_true_iff. rewrite !is_method_true. tauto. }
    rewrite (handle_under_mount mo mount req rest); [|done|].
    + cbv zeta. rewrite Hget. by apply handle_get_throws.
    + rewrite (orb_comm (is_method req "GET")), Hget. cbn. apply andb_false_r.
Qed.


(** ** PUT *)

(** X7: a PUT below the mount makes a directory (with its parents) when
    the path ends with a slash and a file otherwise; the upload is
    buffered exactly when the [Content-Length] header reads as a number
    below 10485760, and a missing header means no buffering. *)
Theorem put_dispatch (mo : mount_options) (mount : string) (req : request)
    (rest : string) :
  mo_readOnly mo = false →
  req_pathname req = normalize_mount mount +:+ rest →
  req_method req = "PUT" →
  let path := "/" +:+ rest in
  (ends_with_slash path = true → handle mo mount req = Mkdir path) ∧
  (ends_with_slash path = false →
     (req_headers req !! "content-length" = None →
        handle mo mount req = Mkfile path false) ∧
     (∀ n, req_headers req !! "content-length" = Some (show_Z n) →
        handle mo mount req = Mkfile path (n <? 10485760))).
Proof.
  intros Hro Hpath Hm. cbv zeta.
  rewrite (handle_under_mount mo mount req rest) by (done || by rewrite Hro).
  cbv zeta. unfold is_method. rewrite Hm. cbn [String.eqb Ascii.eqb Bool.eqb orb].
  cbn [String.eqb Ascii.eqb Bool.eqb].
  split; [by intros ->|]. intros ->. split.
  - intros ->. reflexivity.
  - intros n ->. cbn [parseInt_header]. by rewrite parseInt_show_Z.
Qed.


Lemma put_dispatch_example :
  handle (mkMountOptions false None false) "/vfs"
    (mkRequest "PUT" "/vfs/a.txt" {["content-length" := "10485759"]})
  = Mkfile "/a.txt" true.
Proof.
  destruct (put_dispatch (mkMountOptions false None false) "/vfs"
              (mkRequest "PUT" "/vfs/a.txt" {["content-length" := "10485759"]})
              "a.txt" eq_refl eq_refl eq_refl) as [_ H].
  destruct (H eq_refl) as [_ Hlen].
  exact (Hlen 10485759 eq_refl).
Defined.

(** ** The multipart boundary *)

Lemma take_until_fst_nonempty (stop : ascii) (s : string) :
  nonempty (fst (take_until stop s)) = true →
  fst (take_until stop s) ≠ "".
Proof. by destruct (fst (take_until stop s)). Qed.

Lemma boundary_at_nonempty (rest b : string) : boundary_at rest = Some b → b ≠ "".
Proof.
  unfold boundary_at. cbv zeta. intros H.
  assert (Hplain : (if nonempty (fst (take_until ";" rest))
                    then Some (fst (take_until ";" rest)) else None) = Some b → b ≠ "").
  { destruct (nonempty _) eqn:E; [|done]. intros [= <-].
    by apply take_until_fst_nonempty. }
  destruct rest as [|c r]; [auto|].
  destruct (nat_of_ascii c =? 34)%nat; [|auto].
  destruct (take_until (ascii_of_nat 34) r) as [[|x q] [|y t]]; auto.
  by injection H as <-.
Qed.

Lemma match_boundary_nonempty (s b : string) : match_boundary s = Some b → b ≠ "".
Proof.
  induction s as [|c s IH]; cbn [match_boundary].
  - destruct (strip_ci "boundary=" "") as [rest|]; [|done].
    destruct (boundary_at rest) eqn:E; [|done]. intros [= <-].
    by apply boundary_at_nonempty in E.
  - destruct (strip_ci "boundary=" (String c s)) as [rest|]; [|exact IH].
    destruct (boundary_at rest) eqn:E; [|exact IH]. intros [= <-].
    by apply boundary_at_nonempty in E.
Qed.

(** A tail that ends a run: nothing, or something that starts with the
    stop character. *)
Definition starts_with (stop : ascii) (tail : string) : Prop :=
  match tail with
  | "" => True
  | String c _ => c = stop
  end.

Lemma take_until_run (stop : ascii) (b tail : string) :
  indexOf stop b = None → starts_with stop tail →
  take_until stop (b +:+ tail) = (b, tail).
Proof.
  intros Hb Htail. induction b as [|c b IH].
  - rewrite append_nil_l. destruct tail as [|x t]; [done|].
    cbn in Htail. subst x. cbn [take_until]. by rewrite Ascii.eqb_refl.
  - rewrite append_cons. cbn [indexOf take_until] in *.
    destruct (Ascii.eqb c stop); [done|].
    rewrite IH; [done|]. by destruct (indexOf stop b).
Qed.

Lemma boundary_forms (b tail : string) :
  b ≠ "" →
  (indexOf ";" b = None → indexOf (ascii_of_nat 34) b = None →
   starts_with ";" tail →
   match_boundary ("multipart/form-data; boundary=" +:+ b +:+ tail) = Some b) ∧
  (indexOf (ascii_of_nat 34) b = None →
   match_boundary ("multipart/form-data; boundary=" +:+ dq +:+ b +:+ dq +:+ tail)
     = Some b).
Proof.
  intros Hb. split.
  - intros Hsemi Hquote Htail.
    change (match_boundary ("multipart/form-data; boundary=" +:+ b +:+ tail))
      with (match boundary_at (b +:+ tail) with
            | Some x => Some x
            | None => match_boundary ("oundary=" +:+ b +:+ tail)
            end).
    assert (Hat : boundary_at (b +:+ tail) = Some b); [|by rewrite Hat].
    unfold boundary_at. cbv zeta. rewrite take_until_run by done. cbn [fst].
    destruct b as [|c b]; [done|]. rewrite append_cons. cbn [nonempty].
    cbn [indexOf] in Hquote.
    destruct (Ascii.eqb_spec c (ascii_of_nat 34)) as [->|Hc]; [done|].
    destruct (Nat.eqb_spec (nat_of_ascii c) 34) as [E|_]; [|done].
    exfalso. apply Hc. by rewrite <- E, ascii_nat_embedding.
  - intros Hquote.
    change (match_boundary
              ("multipart/form-data; boundary=" +:+ dq +:+ b +:+ dq +:+ tail))
      with (match boundary_at (dq +:+ b +:+ dq +:+ tail) with
            | Some x => Some x
            | None => match_boundary ("oundary=" +:+ dq +:+ b +:+ dq +:+ tail)
            end).
    assert (Hat : boundary_at (dq +:+ b +:+ dq +:+ tail) = Some b); [|by rewrite Hat].
    unfold boundary_at, dq. cbv zeta. rewrite append_cons, append_nil_l.
    change (nat_of_ascii (ascii_of_nat 34) =? 34)%nat with true. cbn iota.
    rewrite append_cons, append_nil_l.
    rewrite (take_until_run (ascii_of_nat 34) b (String (ascii_of_nat 34) tail))
      by done.
    by destruct b.
Qed.


Lemma test_multipart_form_data (tail : string) :
  test_multipart ("multipart/form-data; boundary=" +:+ tail) = true.
Proof. reflexivity. Qed.

(** X8: a POST to a path that ends with a slash is read as a multipart
    upload.  With a content type [multipart/form-data; boundary=b] the
    parser gets [b], up to the next semicolon, or the text between the
    quotes when [b] is quoted; the boundary handed over is never empty.
    An empty content type, one that does not mention multipart, and one
    without boundary are each refused with status 400 and their own
    message. *)
Theorem upload_boundary (mo : mount_options) (mount : string) (req : request)
    (rest ct : string) :
  mo_readOnly mo = false →
  req_pathname req = normalize_mount mount +:+ rest →
  req_method req = "POST" →
  ends_with_slash ("/" +:+ rest) = true →
  req_headers req !! "content-type" = Some ct →
  let path := "/" +:+ rest in
  let h := handle mo mount req in
  (∀ b tail, b ≠ "" → indexOf ";" b = None → indexOf (ascii_of_nat 34) b = None →
     starts_with ";" tail →
     ct = "multipart/form-data; boundary=" +:+ b +:+ tail →
     h = Multipart path b) ∧
  (∀ b tail, b ≠ "" → indexOf (ascii_of_nat 34) b = None →
     ct = "multipart/form-data; boundary=" +:+ dq +:+ b +:+ dq +:+ tail →
     h = Multipart path b) ∧
  (∀ p b, h = Multipart p b → p = path ∧ b ≠ "" ∧ test_multipart ct = true) ∧
  (ct = "" → h = Abort (new_Error "Missing Content-Type header") (Some 400)) ∧
  (ct ≠ "" → test_multipart ct = false →
     h = Abort (new_Error "Content-Type should be multipart") (Some 400)) ∧
  (test_multipart ct = true → match_boundary ct = None →
     h = Abort (new_Error "Missing multipart boundary") (Some 400)).
Proof.
  intros Hro Hpath Hm Hslash Hct. cbv zeta.
  rewrite (handle_under_mount mo mount req rest) by (done || by rewrite Hro).
  cbv zeta. unfold is_method. rewrite Hm. cbn [String.eqb Ascii.eqb Bool.eqb orb].
  cbn [String.eqb Ascii.eqb Bool.eqb]. rewrite Hslash.
  unfold handle_upload. rewrite Hct.
  split; [|split; [|split; [|split; [|split]]]].
  - intros b tail Hb Hsemi Hquote Htail ->.
    rewrite test_multipart_form_data.
    destruct (boundary_forms b tail Hb) as [-> _]; done.
  - intros b tail Hb Hquote ->.
    rewrite test_multipart_form_data.
    destruct (boundary_forms b tail Hb) as [_ ->]; done.
  - intros p b. destruct (nonempty ct); cbn [negb]; [|done].
    destruct (test_multipart ct); cbn [negb]; [|done].
    destruct (match_boundary ct) as [b'|] eqn:E; [|done].
    intros [= <- <-]. by apply match_boundary_nonempty in E.
  - by intros ->.
  - intros Hne ->. destruct ct; [by destruct Hne|done].
  - intros Htest ->. rewrite Htest. destruct ct; [done|]. reflexivity.
Qed.


Lemma upload_boundary_example :
  handle (mkMountOptions false None false) "/vfs"
    (mkRequest "POST" "/vfs/up/"
       {["content-type" := "multipart/form-data; boundary=xYz; charset=utf-8"]})
  = Multipart "/up/" "xYz".
Proof.
  destruct (upload_boundary (mkMountOptions false None false) "/vfs"
              (mkRequest "POST" "/vfs/up/"
                 {["content-type" := "multipart/form-data; boundary=xYz; charset=utf-8"]})
              "up/" "multipart/form-data; boundary=xYz; charset=utf-8")
    as [H _]; [reflexivity..|].
  exact (H "xYz" "; charset=utf-8" ltac:(discriminate) eq_refl eq_refl eq_refl eq_refl).
Defined.

(** ** The GET callback *)

(** Reading a header through the writes made after it. *)
Ltac hdr :=
  cbn [g_res g_actions g_state statusCode body headers headersSent res_end
       setHeader setStatus set_if];
  repeat first [rewrite lookup_insert_eq | rewrite lookup_insert_ne by done].

Lemma lookup_status_if (b : bool) (c : Z) (r : response) (k : string) :
  headers (if b then setStatus c r else r) !! k = headers r !! k.
Proof. by destruct b. Qed.

(** Reading a header past the writes that leave it alone. *)
Ltac skip_writes :=
  repeat first
    [ rewrite lookup_insert_ne by done
    | rewrite lookup_status_if
    | rewrite lookup_set_if by (intros; cbn [headers setHeader]; skip_writes; reflexivity)
    | progress cbn [headers setHeader setStatus g_res] ].

(** X9: when the read reports [notModified] with an etag and hands over
    no stream (and the request is not a HEAD), the answer is 304 with
    the [Date] and [ETag] headers and nothing else added, an empty body,
    and nothing is piped. *)
Theorem onGet_not_modified (noMime : bool) (date : string) (st : get_state)
    (res : response) (m : meta) (tag : string) :
  rangeNotSatisfiable m = None →
  stream m = None →
  partialContent m = None →
  notModified m = true →
  etag m = Some tag →
  opt_head st = false →
  let r := onGet noMime date st res None m in
  statusCode (g_res r) = 304 ∧
  headers (g_res r) = <["ETag" := tag]> (<["Date" := date]> (headers res)) ∧
  body (g_res r) = Some "" ∧
  headersSent (g_res r) = true ∧
  g_actions r = [].
Proof.
  intros Hrange Hstream Hpartial Hnm Htag Hhead. cbv zeta.
  unfold onGet. rewrite Hrange, Hstream, Hpartial, Hnm, Htag, Hhead.
  rewrite bool_decide_eq_false_2 by (by intros [? ?]).
  rewrite bool_decide_eq_false_2 by (by intros [? ?]).
  cbn [orb]. hdr. done.
Qed.

Lemma onGet_not_modified_example :
  let m := mkMeta None (Some "W/1") true None None None None None None in
  let r := onGet false "Thu, 01 Jan 1970 00:00:00 GMT" (mkGetState false false false)
             fresh_response None m in
  statusCode (g_res r) = 304 ∧
  headers (g_res r) =
    <["ETag" := "W/1"]> (<["Date" := "Thu, 01 Jan 1970 00:00:00 GMT"]>
                            (headers fresh_response)) ∧
  body (g_res r) = Some "" ∧
  headersSent (g_res r) = true ∧
  g_actions r = [].
Proof.
  exact (onGet_not_modified false "Thu, 01 Jan 1970 00:00:00 GMT"
           (mkGetState false false false) fresh_response
           (mkMeta None (Some "W/1") true None None None None None None) "W/1"
           eq_refl eq_refl eq_refl eq_refl eq_refl eq_refl).
Defined.

(** X10: a read that reports [partialContent] for a stream of at most
    8 MiB is answered with 206, also when [notModified] is set as well,
    with [Content-Range] "bytes start-end/size" and [Content-Length]
    the size of the part; the stream is piped and the response is not
    ended by the callback. *)
Theorem onGet_partial_content (noMime : bool) (date : string) (st : get_state)
    (res : response) (m : meta) (s : source) (pc : partial_content) (sz : Z) :
  rangeNotSatisfiable m = None →
  stream m = Some s →
  partialContent m = Some pc →
  size m = Some sz →
  sz ≤ 8 * 1024 * 1024 →
  metadataSize m = None →
  let r := onGet noMime date st res None m in
  statusCode (g_res r) = 206 ∧
  headers (g_res r) !! "Content-Range" =
    Some ("bytes " +:+ show_Z (pc_start pc) +:+ "-" +:+ show_Z (pc_end pc)
            +:+ "/" +:+ show_Z (pc_size pc)) ∧
  headers (g_res r) !! "Content-Length" = Some (show_Z sz) ∧
  body (g_res r) = body res ∧
  g_actions r =
    [OnStreamError (src_id s);
     (if encoding_null st then PipeJson (src_id s) else Pipe (src_id s));
     OnReqClose (src_id s)].
Proof.
  intros Hrange Hstream Hpartial Hsize Hsmall Hmeta. cbv zeta.
  assert (Hover : oversized m = false).
  { unfold oversized, MAX_STREAM_SIZE. rewrite Hsize. apply Z.ltb_ge. lia. }
  unfold onGet, content_headers.
  rewrite Hrange, Hstream, Hpartial, Hsize, Hover, Hmeta.
  rewrite !bool_decide_eq_true_2 by eauto. cbn [orb].
  destruct (etag m), (notModified m), (mime m), noMime, (encoding_null st); hdr; done.
Qed.

Lemma onGet_partial_content_example :
  let s := mkSource 4 true true true in
  let m := mkMeta None None true (Some (mkPartial 0 99 1000)) None (Some 100) None None
             (Some s) in
  let r := onGet false "Thu, 01 Jan 1970 00:00:00 GMT" (mkGetState false false false)
             fresh_response None m in
  statusCode (g_res r) = 206 ∧
  headers (g_res r) !! "Content-Range" = Some "bytes 0-99/1000" ∧
  headers (g_res r) !! "Content-Length" = Some "100" ∧
  body (g_res r) = None ∧
  g_actions r = [OnStreamError 4; Pipe 4; OnReqClose 4].
Proof.
  exact (onGet_partial_content false "Thu, 01 Jan 1970 00:00:00 GMT"
           (mkGetState false false false) fresh_response
           (mkMeta None None true (Some (mkPartial 0 99 1000)) None (Some 100) None None
              (Some (mkSource 4 true true true)))
           (mkSource 4 true true true) (mkPartial 0 99 1000) 100
           eq_refl eq_refl eq_refl eq_refl ltac:(lia) eq_refl).
Defined.

(** X11: when the read hands over no stream the response is ended with
    an empty body and nothing is piped.  For a HEAD the content headers
    are still written: [Content-Length] is the size and [Content-Type]
    the mime type (or [application/octet-stream] under [noMime]); for a
    GET neither header is touched. *)
Theorem onGet_head (noMime : bool) (date : string) (st : get_state)
    (res : response) (m : meta) :
  rangeNotSatisfiable m = None →
  stream m = None →
  let r := onGet noMime date st res None m in
  body (g_res r) = Some "" ∧
  headersSent (g_res r) = true ∧
  g_actions r = [] ∧
  (opt_head st = true →
     (∀ sz, size m = Some sz →
        headers (g_res r) !! "Content-Length" = Some (show_Z sz)) ∧
     (∀ mi, mime m = Some mi → encoding_null st = false →
        headers (g_res r) !! "Content-Type" =
          Some (if noMime then "application/octet-stream" else mi))) ∧
  (opt_head st = false →
     headers (g_res r) !! "Content-Length" = headers res !! "Content-Length" ∧
     headers (g_res r) !! "Content-Type" = headers res !! "Content-Type").
Proof.
  intros Hrange Hstream. cbv zeta.
  unfold onGet, content_headers. rewrite Hrange, Hstream.
  rewrite (bool_decide_eq_false_2 (is_Some None)) by (by intros [? ?]).
  cbn [orb]. hdr.
  split; [done|]. split; [done|]. split; [done|]. split.
  - intros ->. split.
    + intros sz ->.
      destruct (etag m), (notModified m), (partialContent m), (mime m), noMime,
        (encoding_null st), (bool_decide _); hdr; done.
    + intros mi -> ->.
      destruct (etag m), (notModified m), (partialContent m), (size m), noMime,
        (bool_decide _); hdr; done.
  - intros ->.
    destruct (etag m), (notModified m), (bool_decide (is_Some (partialContent m)));
      hdr; done.
Qed.

Lemma onGet_head_example :
  let m := mkMeta None None false None (Some "text/plain") (Some 12) None None None in
  let r := onGet false "Thu, 01 Jan 1970 00:00:00 GMT" (mkGetState false true false)
             fresh_response None m in
  body (g_res r) = Some "" ∧
  g_actions r = [] ∧
  headers (g_res r) !! "Content-Length" = Some "12" ∧
  headers (g_res r) !! "Content-Type" = Some "text/plain".
Proof.
  destruct (onGet_head false "Thu, 01 Jan 1970 00:00:00 GMT"
              (mkGetState false true false) fresh_response
              (mkMeta None None false None (Some "text/plain") (Some 12) None None None)
              eq_refl eq_refl) as (Hbody & _ & Hact & Hhead & _).
  destruct (Hhead eq_refl) as [Hlen Htype].
  split; [exact Hbody|]. split; [exact Hact|].
  split; [exact (Hlen 12 eq_refl) | exact (Htype "text/plain" eq_refl eq_refl)].
Defined.

(** X12: when the read carries metadata next to a stream of at most
    8 MiB, [Content-Length] is the sum of the size and the metadata size,
    [X-Content-Length] the size alone and [X-Metadata-Length] the length
    of the metadata string. *)
Theorem onGet_metadata_lengths (noMime : bool) (date : string) (st : get_state)
    (res : response) (m : meta) (s : source) (sz ms ml : Z) :
  rangeNotSatisfiable m = None →
  stream m = Some s →
  size m = Some sz →
  sz ≤ 8 * 1024 * 1024 →
  metadataSize m = Some ms →
  metadataStringLength m = Some ml →
  let r := onGet noMime date st res None m in
  headers (g_res r) !! "Content-Length" = Some (show_Z (sz + ms)) ∧
  headers (g_res r) !! "X-Content-Length" = Some (show_Z sz) ∧
  headers (g_res r) !! "X-Metadata-Length" = Some (show_Z ml).
Proof.
  intros Hrange Hstream Hsize Hsmall Hms Hml. cbv zeta.
  assert (Hover : oversized m = false).
  { unfold oversized, MAX_STREAM_SIZE. rewrite Hsize. apply Z.ltb_ge. lia. }
  unfold onGet. rewrite Hrange, Hstream, Hover, Hms, Hml, Hsize.
  hdr. done.
Qed.

Lemma onGet_metadata_lengths_example :
  let m := mkMeta None None false None None (Some 100) (Some 20) (Some 18)
             (Some (mkSource 4 true true true)) in
  let r := onGet false "Thu, 01 Jan 1970 00:00:00 GMT" (mkGetState false false false)
             fresh_response None m in
  headers (g_res r) !! "Content-Length" = Some "120" ∧
  headers (g_res r) !! "X-Content-Length" = Some "100" ∧
  headers (g_res r) !! "X-Metadata-Length" = Some "18".
Proof.
  exact (onGet_metadata_lengths false "Thu, 01 Jan 1970 00:00:00 GMT"
           (mkGetState false false false) fresh_response
           (mkMeta None None false None None (Some 100) (Some 20) (Some 18)
              (Some (mkSource 4 true true true)))
           (mkSource 4 true true true) 100 20 18
           eq_refl eq_refl eq_refl ltac:(lia) eq_refl eq_refl).
Defined.

(** X13: for a stream with a mime type, [Content-Type] is
    [application/json] in directory mode, else [application/octet-stream]
    under [noMime] and the mime type otherwise; under [noMime] the mime
    type is sent as [X-VFS-Content-Type], also in directory mode, and
    without [noMime] that header is not written. *)
Theorem onGet_mime (noMime : bool) (date : string) (st : get_state)
    (res : response) (m : meta) (s : source) (mi : string) :
  rangeNotSatisfiable m = None →
  stream m = Some s →
  oversized m = false →
  mime m = Some mi →
  let r := onGet noMime date st res None m in
  headers (g_res r) !! "Content-Type" =
    Some (if encoding_null st then "application/json"
          else if noMime then "application/octet-stream" else mi) ∧
  headers (g_res r) !! "X-VFS-Content-Type" =
    (if noMime then Some mi else headers res !! "X-VFS-Content-Type").
Proof.
  intros Hrange Hstream Hover Hmime. cbv zeta.
  unfold onGet, content_headers. rewrite Hrange, Hstream, Hover, Hmime.
  rewrite (bool_decide_eq_true_2 (is_Some (Some s))) by eauto. cbn [orb set_if].
  split.
  - destruct (encoding_null st), noMime; skip_writes; by rewrite lookup_insert_eq.
  - destruct (encoding_null st), noMime; skip_writes;
      by rewrite ?lookup_insert_eq.
Qed.


Lemma onGet_mime_example :
  let m := mkMeta None None false None (Some "text/html") None None None
             (Some (mkSource 4 true true true)) in
  let r := onGet true "Thu, 01 Jan 1970 00:00:00 GMT" (mkGetState false false false)
             fresh_response None m in
  headers (g_res r) !! "Content-Type" = Some "application/octet-stream" ∧
  headers (g_res r) !! "X-VFS-Content-Type" = Some "text/html".
Proof.
  exact (onGet_mime true "Thu, 01 Jan 1970 00:00:00 GMT"
           (mkGetState false false false) fresh_response
           (mkMeta None None false None (Some "text/html") None None None
              (Some (mkSource 4 true true true)))
           (mkSource 4 true true true) "text/html"
           eq_refl eq_refl eq_refl eq_refl).
Defined.

(** ** A GET from the request to the last callback *)

Lemma onGet_no_retry (noMime : bool) (date : string) (st : get_state)
    (res : response) (err : option error) (m : meta) :
  tryAgain st = false →
  existsb (get_action_eqb Readdir) (g_actions (onGet noMime date st res err m)) = false
  ∧ g_state (onGet noMime date st res err m) = st.
Proof.
  intros Htry. unfold onGet. rewrite Htry.
  destruct err; [done|].
  destruct (rangeNotSatisfiable m); [done|].
  destruct (stream m); [|done].
  destruct (oversized m); [done|].
  by destruct (encoding_null st).
Qed.

(** X14: a GET or HEAD of a directory under a mount with [autoIndex]
    first reads the index file.  When that read fails, the directory
    itself is read, once, in directory mode: if this second read fails
    too the error is answered through the error handler and no third
    read is made; if it succeeds the listing is sent as
    [application/json] through the encoder. *)
Theorem autoIndex_falls_back_once (mo : mount_options) (mount : string)
    (req : request) (rest index date : string) (res : response)
    (e : error) (m1 : meta) (second : vfs_result) :
  (req_method req = "GET" ∨ req_method req = "HEAD") →
  req_pathname req = normalize_mount mount +:+ rest →
  ends_with_slash ("/" +:+ rest) = true →
  mo_autoIndex mo = Some index →
  index ≠ "" →
  req_headers req !! "range" = None →
  headersSent res = false →
  ∃ o st,
    handle mo mount req = Readfile ("/" +:+ rest +:+ index) o st ∧
    let r := get_exchange mo date res st (Some e, m1) second in
    g_state r = mkGetState false (bool_decide (req_method req = "HEAD")) true ∧
    existsb (get_action_eqb Readdir) (g_actions r) = false ∧
    (∀ e2, fst second = Some e2 →
       statusCode (g_res r) = status_of e2 None ∧
       body (g_res r) = Some (err_message_or_toString e2 +:+ nl) ∧
       g_actions r = []) ∧
    (∀ s, fst second = None →
       rangeNotSatisfiable (snd second) = None →
       stream (snd second) = Some s →
       oversized (snd second) = false →
       headers (g_res r) !! "Content-Type" = Some "application/json" ∧
       g_actions r =
         [OnStreamError (src_id s); PipeJson (src_id s); OnReqClose (src_id s)]).
Proof.
  intros Hm Hpath Hslash Hindex Hne Hnorange Hsent.
  assert (Hget : is_method req "HEAD" || is_method req "GET" = true).
  { apply orb_true_iff. rewrite !is_method_true. tauto. }
  rewrite (handle_under_mount mo mount req rest); [|done|].
  2:{ rewrite (orb_comm (is_method req "GET")), Hget. cbn. apply andb_false_r. }
  cbv zeta. rewrite Hget. unfold handle_get. rewrite Hnorange, Hslash, Hindex.
  destruct index as [|c index]; [done|]. cbn [nonempty].
  eexists _, _. split; [reflexivity|].
  unfold get_exchange. cbn [fst snd].
  set (st1 := mkGetState false (is_method req "HEAD") true).
  assert (Hfirst : onGet (mo_noMime mo) date (mkGetState true (is_method req "HEAD") false)
                     res (Some e) m1
                   = mkGetResult (setHeader "Date" date res) st1 [Readdir])
    by reflexivity.
  rewrite Hfirst. cbn [g_actions g_state g_res existsb get_action_eqb orb].
  destruct (onGet_no_retry (mo_noMime mo) date st1 (setHeader "Date" date res)
              (fst second) (snd second) eq_refl) as [Hno Hst].
  split.
  { rewrite Hst. unfold st1. f_equal. unfold is_method.
    destruct (String.eqb_spec (req_method req) "HEAD").
    - by rewrite bool_decide_eq_true_2.
    - by rewrite bool_decide_eq_false_2. }
  split; [done|]. split.
  - intros e2 ->. unfold onGet. cbn [tryAgain st1].
    rewrite errorHandler_unsent by done. done.
  - intros s -> Hrange Hstream Hover. unfold onGet.
    rewrite Hrange, Hstream, Hover. cbn [encoding_null st1].
    split; [|done].
    rewrite (bool_decide_eq_true_2 (is_Some (Some s))) by eauto. cbn [orb].
    unfold content_headers. cbn [encoding_null st1].
    skip_writes. by rewrite lookup_insert_eq.
Qed.

Lemma autoIndex_falls_back_once_example :
  ∃ o st,
    handle (mkMountOptions false (Some "index.html") false) "/vfs"
      (mkRequest "GET" "/vfs/docs/" ∅) = Readfile "/docs/index.html" o st ∧
    let r := get_exchange (mkMountOptions false (Some "index.html") false)
               "Thu, 01 Jan 1970 00:00:00 GMT" fresh_response st
               (Some (ErrObject (CodeStr "ENOENT") (Some "no index") "Error: no index"),
                mkMeta None None false None None None None None None)
               (None, mkMeta None None false None None None None None
                        (Some (mkSource 4 true true true))) in
    headers (g_res r) !! "Content-Type" = Some "application/json" ∧
    g_actions r = [OnStreamError 4; PipeJson 4; OnReqClose 4].
Proof.
  destruct (autoIndex_falls_back_once (mkMountOptions false (Some "index.html") false)
              "/vfs" (mkRequest "GET" "/vfs/docs/" ∅) "docs/" "index.html"
              "Thu, 01 Jan 1970 00:00:00 GMT" fresh_response
              (ErrObject (CodeStr "ENOENT") (Some "no index") "Error: no index")
              (mkMeta None None false None None None None None None)
              (None, mkMeta None None false None None None None None
                       (Some (mkSource 4 true true true)))
              (or_introl eq_refl) eq_refl eq_refl eq_refl ltac:(discriminate)
              eq_refl eq_refl)
    as (o & st & Hhandle & H).
  exists o, st. split; [exact Hhandle|].
  cbv zeta in H |- *. destruct H as (_ & _ & _ & Hok).
  exact (Hok (mkSource 4 true true true) eq_refl eq_refl eq_refl eq_refl).
Defined.

(** ** The request closes *)

(** X15: once a stream is being sent, the close of the request destroys
    it if it is still readable and marks it unreadable; a stream that is
    not readable is left alone, and a second close destroys nothing. *)
Theorem req_close_destroys_once (noMime : bool) (date : string) (st : get_state)
    (res : response) (m : meta) (s : source) :
  rangeNotSatisfiable m = None →
  stream m = Some s →
  oversized m = false →
  let r := onGet noMime date st res None m in
  let s' := fst (on_req_close s) in
  req_close r s = (if src_readable s then [Destroy (src_id s)] else []) ∧
  src_readable s' = false ∧
  src_id s' = src_id s ∧
  req_close r s' = [].
Proof.
  intros Hrange Hstream Hover. cbv zeta.
  unfold onGet. rewrite Hrange, Hstream, Hover.
  unfold req_close. cbn [g_actions existsb get_action_eqb].
  assert (Hsame : src_id (fst (on_req_close s)) = src_id s).
  { unfold on_req_close. by destruct (src_readable s). }
  rewrite Hsame, Nat.eqb_refl. cbn [orb].
  rewrite !orb_true_r. unfold on_req_close.
  destruct (src_readable s) eqn:E; cbn [fst snd src_readable]; rewrite ?E; done.
Qed.

Lemma req_close_destroys_once_example :
  let s := mkSource 4 true true true in
  let m := mkMeta None None false None None None None None (Some s) in
  let r := onGet false "Thu, 01 Jan 1970 00:00:00 GMT" (mkGetState false false false)
             fresh_response None m in
  req_close r s = [Destroy 4] ∧
  req_close r (fst (on_req_close s)) = [].
Proof.
  destruct (req_close_destroys_once false "Thu, 01 Jan 1970 00:00:00 GMT"
              (mkGetState false false false) fresh_response
              (mkMeta None None false None None None None None
                 (Some (mkSource 4 true true true)))
              (mkSource 4 true true true) eq_refl eq_refl eq_refl)
    as (H1 & _ & _ & H2).
  split; [exact H1 | exact H2].
Defined.

(** ** The error handler *)

Lemma errorHandler_sent (res : response) (e : error) (code : option Z) :
  headersSent res = true → errorHandler res e code = res_end "" res.
Proof. intros H. unfold errorHandler. by rewrite H. Qed.

(** X16: the error handler always ends the response, and once it has
    run a second error changes neither the status nor the headers: the
    response is only ended again with an empty chunk. *)
Theorem errorHandler_answers_once (res : response) (e e' : error)
    (code code' : option Z) :
  let r := errorHandler res e code in
  headersSent r = true ∧
  statusCode (errorHandler r e' code') = statusCode r ∧
  headers (errorHandler r e' code') = headers r ∧
  body (errorHandler r e' code') = Some "".
Proof.
  cbv zeta.
  assert (Hsent : headersSent (errorHandler res e code) = true).
  { unfold errorHandler. by destruct (headersSent res). }
  split; [done|]. by rewrite !(errorHandler_sent _ e' code' Hsent).
Qed.

(** ** PROPFIND *)

(** X17: a successful PROPFIND is answered with the unchanged status,
    [Content-Type] [application/json] and the JSON text of the stat
    followed by a newline, which parses back to the stat. *)
Theorem propfind_reply_parses (res : response) (meta : json) :
  let r := propfind_reply res None meta in
  headers r !! "Content-Type" = Some "application/json" ∧
  statusCode r = statusCode res ∧
  ∃ text, body r = Some text ∧ parse text = Some meta.
Proof.
  cbv zeta. unfold propfind_reply. cbn [headers statusCode body res_end setHeader].
  split; [by rewrite lookup_insert_eq|]. split; [done|].
  eexists. split; [reflexivity|].
  unfold parse.
  pose proof (reads_back_all meta (S (String.length (stringify meta +:+ nl))) "" nl) as H.
  rewrite append_nil_l in H. rewrite H; [done| |done|done].
  pose proof (weight_le_length meta). rewrite length_append. lia.
Qed.

(** ** The parts of an upload *)

Fixpoint count_char (c : ascii) (s : string) : nat :=
  match s with
  | "" => O
  | String x r => ((if Ascii.eqb x c then 1 else 0) + count_char c r)%nat
  end.

Lemma count_char_app (c : ascii) (a b : string) :
  count_char c (a +:+ b) = (count_char c a + count_char c b)%nat.
Proof.
  induction a as [|x a IH]; [done|].
  rewrite append_cons. cbn [count_char]. rewrite IH. lia.
Qed.

Lemma count_char_none (c : ascii) (s : string) :
  indexOf c s = None → count_char c s = O.
Proof.
  induction s as [|x s IH]; [done|]. cbn [indexOf count_char].
  destruct (Ascii.eqb x c); [done|]. intros H. rewrite IH; [done|].
  by destruct (indexOf c s).
Qed.

Lemma strip_prefix_Some (p s rest : string) :
  strip_prefix p s = Some rest → s = p +:+ rest.
Proof.
  revert s. induction p as [|a p IH]; intros s.
  - cbn. intros [= ->]. by rewrite append_nil_l.
  - destruct s as [|b s]; [done|]. cbn [strip_prefix].
    destruct (Ascii.eqb_spec a b) as [->|]; [|done].
    intros H. rewrite (IH _ H). by rewrite append_cons.
Qed.

Lemma take_until_stop (stop : ascii) (s v : string) (c : ascii) (r : string) :
  take_until stop s = (v, String c r) → (1 ≤ count_char stop s)%nat.
Proof.
  revert v. induction s as [|x s IH]; intros v; [done|].
  cbn [take_until count_char]. destruct (Ascii.eqb x stop); [lia|].
  destruct (take_until stop s) as [tok rest] eqn:E. intros [= <- ->].
  specialize (IH _ eq_refl). lia.
Qed.

Lemma quoted_at_quotes (key s v : string) :
  quoted_at key s = Some v → (2 ≤ count_char (ascii_of_nat 34) s)%nat.
Proof.
  unfold quoted_at. destruct (strip_prefix _ s) as [rest|] eqn:E; [|done].
  apply strip_prefix_Some in E as ->.
  destruct (take_until (ascii_of_nat 34) rest) as [value [|c r]] eqn:T; [done|].
  intros _. apply take_until_stop in T.
  rewrite !count_char_app. unfold dq. cbn [count_char].
  rewrite Ascii.eqb_refl. lia.
Qed.

Lemma match_quoted_quotes (key : string) (inside : bool) (s v : string) :
  match_quoted key inside s = Some v → (2 ≤ count_char (ascii_of_nat 34) s)%nat.
Proof.
  revert inside. induction s as [|c s IH]; intros inside; cbn [match_quoted].
  - destruct inside; [done|]. destruct (quoted_at key "") eqn:E; [|done].
    intros _. by apply quoted_at_quotes in E.
  - destruct (if inside then None else quoted_at key (String c s)) eqn:E.
    + intros _. destruct inside; [done|]. by apply quoted_at_quotes in E.
    + intros H. apply IH in H. cbn [count_char]. lia.
Qed.

(** No match in a value that closes with the only quote left. *)
Lemma match_quoted_closing (key : string) (inside : bool) (value : string) :
  indexOf (ascii_of_nat 34) value = None →
  match_quoted key inside (value +:+ dq) = None.
Proof.
  intros Hq. destruct (match_quoted key inside (value +:+ dq)) eqn:E; [|done].
  apply match_quoted_quotes in E. rewrite count_char_app, count_char_none in E by done.
  unfold dq in E. cbn [count_char] in E. rewrite Ascii.eqb_refl in E. lia.
Qed.

Lemma quoted_value (value tail : string) :
  indexOf (ascii_of_nat 34) value = None →
  take_until (ascii_of_nat 34) (value +:+ dq +:+ tail) = (value, dq +:+ tail).
Proof. intros Hq. by apply take_until_run. Qed.

(** X28: a part of an upload is stored under the request path, a
    slash and the quoted value of [name] in its [Content-Disposition];
    the value of [filename] is used only when there is no [name] or an
    empty one.  A header with neither is refused with "Missing filename
    in Content-Disposition header in part", a missing or empty header
    with "Missing Content-Disposition header in part". *)
Theorem on_part_target (path name filename : string) :
  indexOf (ascii_of_nat 34) name = None →
  indexOf (ascii_of_nat 34) filename = None →
  let both := "form-data; name=" +:+ dq +:+ name +:+ dq
              +:+ "; filename=" +:+ dq +:+ filename +:+ dq in
  let only := "form-data; filename=" +:+ dq +:+ filename +:+ dq in
  (name ≠ "" → on_part path (Some both) = PartMkfile (path +:+ "/" +:+ name)) ∧
  (name = "" → on_part path (Some both) = PartMkfile (path +:+ "/" +:+ filename)) ∧
  on_part path (Some only) = PartMkfile (path +:+ "/" +:+ filename) ∧
  on_part path (Some "form-data") =
    PartError "Missing filename in Content-Disposition header in part" ∧
  on_part path (Some "") = PartError "Missing Content-Disposition header in part" ∧
  on_part path None = PartError "Missing Content-Disposition header in part".
Proof.
  intros Hname Hfile. cbv zeta.
  assert (Hm1 : ∀ tail,
            match_quoted "name" false
              ("form-data; name=" +:+ dq +:+ name +:+ dq +:+ tail) = Some name).
  { intros tail.
    change (match_quoted "name" false
              ("form-data; name=" +:+ dq +:+ name +:+ dq +:+ tail))
      with (match
              match take_until (ascii_of_nat 34) (name +:+ dq +:+ tail) with
              | (value, String _ _) => Some value
              | _ => None
              end
            with
            | Some value => Some value
            | None => match_quoted "name" true ("ame=" +:+ dq +:+ name +:+ dq +:+ tail)
            end).
    by rewrite quoted_value. }
  split; [|split; [|split; [|split; [|split]]]]; try reflexivity.
  - intros Hne. unfold on_part. cbn [nonempty negb]. cbv zeta.
    rewrite Hm1. destruct name as [|c name']; [done|]. cbn [nonempty].
    by case_match.
  - intros ->. unfold on_part. cbn [nonempty negb]. cbv zeta.
    rewrite Hm1. cbn [nonempty].
    change (match_quoted "filename" false
              ("form-data; name=" +:+ dq +:+ "" +:+ dq +:+ "; filename=" +:+ dq
                 +:+ filename +:+ dq))
      with (match
              match take_until (ascii_of_nat 34) (filename +:+ dq +:+ "") with
              | (value, String _ _) => Some value
              | _ => None
              end
            with
            | Some value => Some value
            | None => match_quoted "filename" true
                        ("ilename=" +:+ dq +:+ filename +:+ dq)
            end).
    by rewrite quoted_value.
  - unfold on_part. cbn [nonempty negb]. cbv zeta.
    change (match_quoted "name" false
              ("form-data; filename=" +:+ dq +:+ filename +:+ dq))
      with (match_quoted "name" false (filename +:+ dq)).
    rewrite match_quoted_closing by done.
    change (match_quoted "filename" false
              ("form-data; filename=" +:+ dq +:+ filename +:+ dq))
      with (match
              match take_until (ascii_of_nat 34) (filename +:+ dq +:+ "") with
              | (value, String _ _) => Some value
              | _ => None
              end
            with
            | Some value => Some value
            | None => match_quoted "filename" true
                        ("ilename=" +:+ dq +:+ filename +:+ dq)
            end).
    by rewrite quoted_value.
Qed.

Lemma on_part_target_example :
  on_part "/up/"
    (Some ("form-data; name=" +:+ dq +:+ "field" +:+ dq
           +:+ "; filename=" +:+ dq +:+ "a.txt" +:+ dq))
  = PartMkfile "/up//field".
Proof.
  destruct (on_part_target "/up/" "field" "a.txt" eq_refl eq_refl) as [H _].
  exact (H ltac:(discriminate)).
Defined.

End GatewayFacts.

(** * Properties of the socket worker *)

Module WorkerFacts.
Import Json Worker.

#[local] Arguments allocate : simpl never.

(** ** Running computations *)


Lemma bind_run {A B : Type} (m : M A) (k : A → M B) (st st1 : state) (a : A) :
  m st = Some (a, st1) → bind m k st = k a st1.
Proof. unfold bind. by intros ->. Qed.

(** ** The rolling allocator *)

Lemma next_id_mod (c : Z) : 0 ≤ c → next_id c = (c + 1) mod RING.
Proof. intros H. unfold next_id, RING. apply Z.rem_mod_nonneg; lia. Qed.

Lemma next_id_range (c : Z) : 0 ≤ c → 0 ≤ next_id c < RING.
Proof. intros H. rewrite next_id_mod by done. apply Z.mod_pos_bound. done. Qed.

(** What the probing loop computes: the first free slot met when walking
    the ring from [c], or nothing after [fuel] occupied slots. *)
Lemma probe_spec {V : Type} (fuel : nat) (m : gmap Z V) (c : Z) :
  0 ≤ c < RING →
  match probe fuel m c with
  | Some id =>
    ∃ j, 0 ≤ j < Z.of_nat fuel ∧ id = (c + j) mod RING ∧ m !! id = None ∧
         ∀ i, 0 ≤ i < j → is_Some (m !! ((c + i) mod RING))
  | None => ∀ i, 0 ≤ i < Z.of_nat fuel → is_Some (m !! ((c + i) mod RING))
  end.
Proof.
  revert c. induction fuel as [|fuel IH]; intros c Hc.
  - cbn. intros i Hi. lia.
  - cbn [probe]. case_bool_decide as Hocc.
    + specialize (IH (next_id c) (next_id_range c ltac:(lia))).
      rewrite next_id_mod in IH |- * by lia.
      assert (Hshift : ∀ i, ((c + 1) mod RING + i) mod RING = (c + (1 + i)) mod RING).
      { intros i. rewrite Zplus_mod_idemp_l. f_equal. lia. }
      destruct (probe fuel m ((c + 1) mod RING)) as [id|].
      * destruct IH as (j & Hj & -> & Hfree & Hskip).
        exists (1 + j). rewrite <- Hshift. repeat split; try lia; try done.
        intros i Hi. destruct (decide (i = 0)) as [->|Hne].
        -- rewrite Z.add_0_r, Z.mod_small by done. done.
        -- replace i with (1 + (i - 1)) by lia. rewrite <- Hshift.
           apply Hskip. lia.
      * intros i Hi. destruct (decide (i = 0)) as [->|Hne].
        -- rewrite Z.add_0_r, Z.mod_small by done. done.
        -- replace i with (1 + (i - 1)) by lia. rewrite <- Hshift.
           apply IH. lia.
    + exists 0. rewrite Z.add_0_r, Z.mod_small by done.
      repeat split; try lia.
      by apply eq_None_not_Some.
Qed.

(** A registry in which every slot of the ring is taken holds at least
    [RING] handles. *)
Lemma ring_full_size {V : Type} (m : gmap Z V) :
  (∀ k, 0 ≤ k < RING → is_Some (m !! k)) → (Z.to_nat RING ≤ size m)%nat.
Proof.
  intros Hfull.
  assert (Hsub : (list_to_set (seqZ 0 RING) : gset Z) ⊆ dom m).
  { intros k Hk. apply elem_of_list_to_set, elem_of_seqZ in Hk.
    apply elem_of_dom, Hfull. lia. }
  apply subseteq_size in Hsub.
  rewrite size_list_to_set in Hsub by apply NoDup_seqZ.
  rewrite length_seqZ in Hsub. rewrite size_dom in Hsub. done.
Qed.

(** The slot an allocation yields, given the cursor before it. *)
Definition first_free {V : Type} (m : gmap Z V) (cursor id : Z) : Prop :=
  0 ≤ id ≤ 9999 ∧ m !! id = None ∧
  ∃ j, 0 ≤ j < RING ∧ id = (cursor + 1 + j) mod RING ∧
       ∀ i, 0 ≤ i < j → is_Some (m !! ((cursor + 1 + i) mod RING)).

Lemma allocate_spec {V : Type} (m : gmap Z V) (cursor : Z) :
  0 ≤ cursor < RING →
  Z.of_nat (size m) < RING →
  ∃ id, allocate m cursor = Some id ∧ first_free m cursor id.
Proof.
  intros Hc Hsize. unfold allocate.
  pose proof (probe_spec (Z.to_nat RING) m (next_id cursor)
                (next_id_range cursor ltac:(lia))) as H.
  rewrite next_id_mod in * by lia.
  assert (Hshift : ∀ i, ((cursor + 1) mod RING + i) mod RING = (cursor + 1 + i) mod RING).
  { intros i. by rewrite Zplus_mod_idemp_l. }
  destruct (probe _ m _) as [id|].
  - destruct H as (j & Hj & Hid & Hfree & Hskip). exists id. split; [done|].
    rewrite Hshift in Hid. split.
    + pose proof (Z.mod_pos_bound (cursor + 1 + j) RING ltac:(done)).
      unfold RING in *. lia.
    + split; [done|]. exists j. rewrite Z2Nat.id in Hj by done.
      repeat split; try lia; try done.
      intros i Hi. rewrite <- Hshift. by apply Hskip.
  - exfalso. assert (Hfull : (Z.to_nat RING ≤ size m)%nat); [|unfold RING in *; lia].
    apply ring_full_size. intros k Hk.
    specialize (H ((k - (cursor + 1)) mod RING)).
    rewrite Hshift, Zplus_mod_idemp_r in H.
    replace (cursor + 1 + (k - (cursor + 1))) with k in H by lia.
    rewrite (Z.mod_small k) in H by done. apply H.
    rewrite Z2Nat.id by done. apply Z.mod_pos_bound. done.
Qed.

(** Two states with the same fields are the same. *)
Lemma state_eq (s1 s2 : state) :
  heap s1 = heap s2 → proxyStreams s1 = proxyStreams s2 →
  streams s1 = streams s2 → watchers s1 = watchers s2 →
  processes s1 = processes s2 → apis s1 = apis s2 →
  nextStreamID s1 = nextStreamID s2 → nextWatcherID s1 = nextWatcherID s2 →
  remote s1 = remote s2 → clock s1 = clock s2 → trace s1 = trace s2 →
  s1 = s2.
Proof. destruct s1, s2; cbn; intros; by subst. Qed.

Lemma object_eq (a b : object) :
  o_token a = o_token b → o_id a = o_id b → o_readable a = o_readable b →
  o_writable a = o_writable b → o_pause a = o_pause b → o_resume a = o_resume b →
  o_socket a = o_socket b → o_pid a = o_pid b → o_unreffed a = o_unreffed b →
  o_kill a = o_kill b → o_stdin a = o_stdin b → o_stdout a = o_stdout b →
  o_stderr a = o_stderr b → o_name a = o_name b → o_names a = o_names b →
  o_listeners a = o_listeners b →
  a = b.
Proof. destruct a, b; cbn; intros; by subst. Qed.

Lemma result_eq {A : Type} (a : A) (s1 s2 : state) :
  s1 = s2 → Some (a, s1) = Some (a, s2).
Proof. by intros ->. Qed.

(** ** [storeStream] *)

(** The object as [storeStream] leaves it. *)
Definition stream_listeners (id : Z) (stream : ref) (readable : bool)
    : list (event * listener) :=
  [(EvError, LStreamError id)] ++
  (if readable then [(EvData, LStreamData id stream); (EvEnd, LStreamEnd id)] else []) ++
  [(EvClose, LStreamClose id)].

Definition stored_stream (id : Z) (stream : ref) (o : object) : object :=
  mkObject (Some (TokStream id (o_readable o) (o_writable o))) (Some id)
    (o_readable o) (o_writable o) (o_pause o) (o_resume o)
    (o_socket o) (o_pid o) (o_unreffed o) (o_kill o) (o_stdin o) (o_stdout o)
    (o_stderr o) (o_name o) (o_names o)
    (o_listeners o ++ stream_listeners id stream (is_true (o_readable o))).

Definition after_storeStream (id : Z) (stream : ref) (o : object) (st : state) : state :=
  mkState (<[stream := stored_stream id stream o]> (heap st)) (proxyStreams st)
    (<[id := stream]> (streams st)) (watchers st) (processes st) (apis st)
    id (nextWatcherID st) (remote st) (clock st) (trace st).

(** Unfolding the plumbing of a computation, and nothing else. *)
Ltac run :=
  unfold on, update_obj, get_obj, log, when, of_option, modify, get, ret, throw, bind;
  cbn beta iota;
  cbn [heap proxyStreams streams watchers processes apis nextStreamID
       nextWatcherID remote clock trace
       upd_heap upd_proxyStreams upd_streams upd_watchers upd_processes upd_apis
       set_nextStreamID set_nextWatcherID set_clock upd_trace fst snd].

Ltac run_in H :=
  unfold on, update_obj, get_obj, log, when, of_option, modify, get, ret, throw, bind in H;
  cbn beta iota in H;
  cbn [heap proxyStreams streams watchers processes apis nextStreamID
       nextWatcherID remote clock trace
       upd_heap upd_proxyStreams upd_streams upd_watchers upd_processes upd_apis
       set_nextStreamID set_nextWatcherID set_clock upd_trace fst snd] in H.

(** Reading a field through a chain of updates. *)
Ltac fields :=
  cbn [heap proxyStreams streams watchers processes apis nextStreamID
       nextWatcherID remote clock trace
       upd_heap upd_proxyStreams upd_streams upd_watchers upd_processes upd_apis
       set_nextStreamID set_nextWatcherID set_clock upd_trace].

(** Properties of an object after a property write. *)
Ltac objs :=
  cbn [o_token o_id o_readable o_writable o_pause o_resume o_socket o_pid
       o_unreffed o_kill o_stdin o_stdout o_stderr o_name o_names o_listeners
       with_token with_id with_pause with_resume with_unreffed with_kill
       add_listener is_true].

Lemma storeStream_registered (st : state) (stream : ref) (o : object) (t : token) :
  heap st !! stream = Some o → o_token o = Some t →
  storeStream stream st = Some (t, st).
Proof.
  intros Ho Ht. unfold storeStream. run. rewrite Ho. run. by rewrite Ht.
Qed.

Lemma storeStream_new (st : state) (stream : ref) (o : object) (id : Z) :
  heap st !! stream = Some o → o_token o = None →
  allocate (streams st) (nextStreamID st) = Some id →
  storeStream stream st =
    Some (TokStream id (o_readable o) (o_writable o), after_storeStream id stream o st).
Proof.
  intros Ho Ht Hid. unfold storeStream. run. rewrite Ho. run. rewrite Ht, Hid. run.
  rewrite Ho. run. rewrite lookup_insert_eq. run.
  unfold after_storeStream, stored_stream, stream_listeners.
  destruct (o_readable o) as [[]|] eqn:Hr; objs; run;
    repeat (rewrite lookup_insert_eq; run);
    apply result_eq, state_eq; fields; try reflexivity;
    rewrite ?insert_insert_eq; f_equal; apply object_eq; objs; try done;
    cbn [app]; rewrite <- ?app_assoc; reflexivity.
Qed.

(** ** [storeWatcher] *)

Definition stored_watcher (id : Z) (o : object) : object :=
  mkObject (o_token o) (Some id) (o_readable o) (o_writable o) (o_pause o) (o_resume o)
    (o_socket o) (o_pid o) (o_unreffed o) (o_kill o) (o_stdin o) (o_stdout o)
    (o_stderr o) (o_name o) (o_names o)
    (o_listeners o ++ [(EvChange, LWatcherChange id)]).

Definition after_storeWatcher (id : Z) (watcher : ref) (o : object) (st : state) : state :=
  mkState (<[watcher := stored_watcher id o]> (heap st)) (proxyStreams st)
    (streams st) (<[id := watcher]> (watchers st)) (processes st) (apis st)
    (nextStreamID st) id (remote st) (clock st) (trace st).

Lemma storeWatcher_run (st : state) (watcher : ref) (o : object) (id : Z) :
  heap st !! watcher = Some o →
  allocate (watchers st) (nextWatcherID st) = Some id →
  storeWatcher watcher st = Some (TokWatcher id, after_storeWatcher id watcher o st).
Proof.
  intros Ho Hid. unfold storeWatcher. run. rewrite Hid. run.
  rewrite Ho. run. rewrite lookup_insert_eq. run.
  unfold after_storeWatcher, stored_watcher.
  apply result_eq, state_eq; fields; try reflexivity.
  rewrite ?insert_insert_eq. f_equal.
Qed.

(** A long-lived connection: [n] times, a watcher is stored and then
    closed by the peer; the result is the token of one more watcher
    stored after that. *)
Fixpoint watch_again (n : nat) (watcher : ref) : M token :=
  match n with
  | O => storeWatcher watcher
  | S n' =>
    t <- storeWatcher watcher ;;
    match t with
    | TokWatcher id => closeWatcher id
    | _ => ret tt
    end ;;;
    watch_again n' watcher
  end.

Definition plain_object : object :=
  mkObject None None None None None None None 0 false OwnKill None None None "" [] [].

Definition readable_stream : object :=
  mkObject None None (Some true) None (Some OwnMethod) (Some OwnMethod) None 0 false
    OwnKill None None None "" [] [].

(** C5, the claim as stated fails: the cursor runs over 0..9999, so the
    allocation that follows the one yielding 9999 yields 0.  Here a
    connection that has watched and closed 9998 times stores one more
    watcher: its identifier is 0, outside 1..9999. *)
Lemma watcher_id_zero :
  fst <$> watch_again (Z.to_nat 9998) 0%nat (init {[0%nat := plain_object]} full_remote)
    = Some (TokWatcher 0) ∧
  (1 <=? 0) = false.
Proof. split; [vm_compute; reflexivity | reflexivity]. Qed.

(** C5 (amended): identifiers of streams and of watchers are rolling
    integers within 0..9999, each kind with its own cursor and registry.
    With both cursors inside the ring, storing a stream that has no token
    yet, while fewer than 10000 streams are live, returns a token whose
    identifier is the first free slot met from [(cursor + 1) mod 10000]
    on, every slot passed over being occupied; the cursor becomes that
    identifier, the stream is entered under it, every handle that was
    live keeps its own, different identifier, and the watchers are
    untouched.  The same holds for watchers, with streams untouched. *)
Theorem rolling_ids (st : state) :
  0 ≤ nextStreamID st < 10000 →
  0 ≤ nextWatcherID st < 10000 →
  (∀ stream o,
     heap st !! stream = Some o → o_token o = None →
     Z.of_nat (size (streams st)) < 10000 →
     ∃ id st',
       storeStream stream st = Some (TokStream id (o_readable o) (o_writable o), st') ∧
       first_free (streams st) (nextStreamID st) id ∧
       nextStreamID st' = id ∧
       streams st' = <[id := stream]> (streams st) ∧
       (∀ k r, streams st !! k = Some r → k ≠ id ∧ streams st' !! k = Some r) ∧
       watchers st' = watchers st ∧ nextWatcherID st' = nextWatcherID st) ∧
  (∀ watcher o,
     heap st !! watcher = Some o →
     Z.of_nat (size (watchers st)) < 10000 →
     ∃ id st',
       storeWatcher watcher st = Some (TokWatcher id, st') ∧
       first_free (watchers st) (nextWatcherID st) id ∧
       nextWatcherID st' = id ∧
       watchers st' = <[id := watcher]> (watchers st) ∧
       (∀ k r, watchers st !! k = Some r → k ≠ id ∧ watchers st' !! k = Some r) ∧
       streams st' = streams st ∧ nextStreamID st' = nextStreamID st).
Proof.
  intros Hs Hw. split.
  - intros stream o Ho Ht Hsize.
    destruct (allocate_spec (streams st) (nextStreamID st) Hs Hsize)
      as (id & Hid & Hfree).
    exists id, (after_storeStream id stream o st).
    split; [by apply storeStream_new|]. split; [done|].
    cbn. repeat split; try done.
    + intros ->. destruct Hfree as (_ & Hnone & _). congruence.
    + rewrite lookup_insert_ne; [done|].
      intros <-. destruct Hfree as (_ & Hnone & _). congruence.
  - intros watcher o Ho Hsize.
    destruct (allocate_spec (watchers st) (nextWatcherID st) Hw Hsize)
      as (id & Hid & Hfree).
    exists id, (after_storeWatcher id watcher o st).
    split; [by apply storeWatcher_run|]. split; [done|].
    cbn. repeat split; try done.
    + intros ->. destruct Hfree as (_ & Hnone & _). congruence.
    + rewrite lookup_insert_ne; [done|].
      intros <-. destruct Hfree as (_ & Hnone & _). congruence.
Qed.

(** The first stream of a connection gets the identifier 2. *)
Lemma rolling_ids_first_stream :
  ∃ id st',
    storeStream 0%nat (init {[0%nat := readable_stream]} full_remote)
      = Some (TokStream id (Some true) None, st') ∧
    id = 2 ∧ nextStreamID st' = 2.
Proof.
  destruct (rolling_ids (init {[0%nat := readable_stream]} full_remote)
              ltac:(cbn; lia) ltac:(cbn; lia)) as [Hstream _].
  destruct (Hstream 0%nat readable_stream eq_refl eq_refl ltac:(done))
    as (id & st' & Hrun & Hfree & Hcur & _).
  exists id, st'. split; [exact Hrun|].
  assert (id = 2) as Hid.
  { rewrite storeStream_new with (o := readable_stream) (id := 2) in Hrun
      by reflexivity.
    congruence. }
  split; [exact Hid | congruence].
Defined.

(** ** Loops over a registry *)

Lemma Object_keys_spec {V : Type} (m : gmap Z V) (k : Z) :
  k ∈ Object_keys m ↔ is_Some (m !! k).
Proof.
  unfold Object_keys. rewrite merge_sort_Permutation.
  rewrite list_elem_of_fmap. split.
  - intros ([k' v] & -> & Hin). apply elem_of_map_to_list in Hin. eauto.
  - intros [v Hv]. exists (k, v). split; [done|]. by apply elem_of_map_to_list.
Qed.


Lemma Object_keys_empty {V : Type} : Object_keys (∅ : gmap Z V) = [].
Proof. unfold Object_keys. by rewrite map_to_list_empty. Qed.

(** A loop that cannot throw, with an invariant over the elements
    already visited. *)
Lemma forEach_split_invariant {A : Type} (I : list A → state → Prop) (xs : list A)
    (f : A → M unit) (st : state) :
  I [] st →
  (∀ seen x rest st1, xs = seen ++ x :: rest → I seen st1 →
     ∃ st2, f x st1 = Some (tt, st2) ∧ I (seen ++ [x]) st2) →
  ∃ st', forEach xs f st = Some (tt, st') ∧ I xs st'.
Proof.
  intros Hinit Hstep.
  assert (Hgen : ∀ todo seen st1, xs = seen ++ todo → I seen st1 →
            ∃ st', forEach todo f st1 = Some (tt, st') ∧ I (seen ++ todo) st').
  { induction todo as [|x todo IH]; intros seen st1 Hxs Hseen.
    - exists st1. rewrite app_nil_r. done.
    - destruct (Hstep seen x todo st1 Hxs Hseen) as (st2 & Hx & Hseen2).
      destruct (IH (seen ++ [x]) st2) as (st' & Hrest & Hfinal).
      { by rewrite <- app_assoc. }
      { done. }
      exists st'. split.
      + cbn [forEach]. unfold bind at 1. by rewrite Hx.
      + by rewrite <- app_assoc in Hfinal. }
  destruct (Hgen xs [] st) as (st' & ? & ?); [done|done|]. eauto.
Qed.

Lemma forEach_invariant {A : Type} (I : list A → state → Prop) (xs : list A)
    (f : A → M unit) (st : state) :
  I [] st →
  (∀ seen x st1, I seen st1 → x ∈ xs →
     ∃ st2, f x st1 = Some (tt, st2) ∧ I (seen ++ [x]) st2) →
  ∃ st', forEach xs f st = Some (tt, st') ∧ I xs st'.
Proof.
  intros Hinit Hstep. apply forEach_split_invariant; [done|].
  intros seen x rest st1 -> Hseen. apply Hstep; [done|].
  apply elem_of_app. right. by left.
Qed.


(** ** Idempotence of the store functions *)

Definition eval {A : Type} (m : M A) (st : state) : option A := fst <$> m st.

Definition exec {A : Type} (m : M A) (st : state) : option state := snd <$> m st.

Definition listeners_of (r : ref) (st : state) : option (list (event * listener)) :=
  o_listeners <$> heap st !! r.

(** Storing a stream leaves its token on it. *)
Lemma storeStream_token (st st' : state) (stream : ref) (t : token) :
  storeStream stream st = Some (t, st') →
  ∃ o', heap st' !! stream = Some o' ∧ o_token o' = Some t.
Proof.
  intros Hrun.
  destruct (heap st !! stream) as [o|] eqn:Ho;
    [|unfold storeStream in Hrun; run_in Hrun; by rewrite Ho in Hrun].
  destruct (o_token o) as [t0|] eqn:Ht.
  - rewrite (storeStream_registered st stream o t0) in Hrun by done.
    injection Hrun as <- <-. eauto.
  - destruct (allocate (streams st) (nextStreamID st)) as [id|] eqn:Hid.
    + rewrite (storeStream_new st stream o id) in Hrun by done.
      injection Hrun as <- <-. eexists. split.
      * cbn [after_storeStream heap]. apply lookup_insert_eq.
      * reflexivity.
    + unfold storeStream in Hrun. run_in Hrun. rewrite Ho in Hrun.
      cbn beta iota in Hrun. rewrite Ht in Hrun. by rewrite Hid in Hrun.
Qed.

(** [storeStream] is idempotent: a second call on the same stream
    registers nothing, subscribes nothing and returns the same token. *)
Lemma storeStream_idempotent (st st' : state) (stream : ref) (t : token) :
  storeStream stream st = Some (t, st') →
  storeStream stream st' = Some (t, st').
Proof.
  intros Hrun. destruct (storeStream_token _ _ _ _ Hrun) as (o' & Ho' & Ht').
  by apply storeStream_registered with o'.
Qed.

(** A process with its three stdio streams. *)
Definition process_object (pid : Z) (stdin stdout stderr : ref) : object :=
  mkObject None None None None None None None pid false OwnKill
    (Some stdin) (Some stdout) (Some stderr) "" [] [].

Definition writable_stream : object :=
  mkObject None None None (Some true) None None None 0 false OwnKill None None None "" [] [].

Definition process_heap : gmap ref object :=
  {[ 0%nat := process_object 4711 1%nat 2%nat 3%nat;
     1%nat := writable_stream;
     2%nat := readable_stream;
     3%nat := readable_stream ]}.

(** C2, the defect: [storeProcess] tests [processes.token], which is
    never defined, in place of [process.token].  Storing the same process
    twice therefore runs the registration twice: the token returned has
    the same contents, but the process is subscribed a second time to
    [exit] and [close], so each of these events will be reported to the
    peer twice. *)
Theorem storeProcess_subscribes_again :
  let st0 := init process_heap full_remote in
  let token :=
    TokProcess 4711
      (Some (TokStream 2 None (Some true),
             TokStream 3 (Some true) None,
             TokStream 4 (Some true) None)) in
  eval (storeProcess 0%nat false) st0 = Some (StoredToken (Some token)) ∧
  eval (storeProcess 0%nat false ;;; storeProcess 0%nat false) st0
    = Some (StoredToken (Some token)) ∧
  (exec (storeProcess 0%nat false) st0 ≫= listeners_of 0%nat)
    = Some [(EvExit, LProcExit 4711); (EvClose, LProcClose 4711 false 0%nat)] ∧
  (exec (storeProcess 0%nat false ;;; storeProcess 0%nat false) st0 ≫= listeners_of 0%nat)
    = Some [(EvExit, LProcExit 4711); (EvClose, LProcClose 4711 false 0%nat);
            (EvExit, LProcExit 4711); (EvClose, LProcClose 4711 false 0%nat)].
Proof. repeat split; vm_compute; reflexivity. Qed.

(** ** Backpressure *)

(** The object on which a [pause] or [resume] lands. *)
Definition flow_target (self : ref) (m : flow_method) : ref :=
  match m with
  | OwnMethod => self
  | BoundTo socket => socket
  end.

Lemma call_flow_Some (self : ref) (name : method_name) (m : flow_method) (st : state) :
  call_flow self name (Some m) st =
    Some (tt, upd_trace (λ t, t ++ [Call (flow_target self m) name NoPayload]) st).
Proof. by destruct m. Qed.

(** A [data] listener of [storeStream] forwards the chunk and pauses the
    stream when the peer answered [false]; it changes nothing but the
    trace. *)
Lemma run_data_listener (st : state) (stream : ref) (o : object) (id : Z)
    (p : payload) (answer : Z → payload → bool) :
  heap st !! stream = Some o →
  r_onData (remote st) = Some answer →
  ∃ st', run_listener (LStreamData id stream) p st = Some (tt, st') ∧
    heap st' = heap st ∧ remote st' = remote st ∧
    (∀ e, e ∈ trace st → e ∈ trace st') ∧
    (∀ m, answer id p = false → o_pause o = Some m →
       Call (flow_target stream m) MPause NoPayload ∈ trace st').
Proof.
  intros Ho Hans. unfold run_listener. run. rewrite Hans. run.
  destruct (answer id p) eqn:Hanswer; run.
  - eexists. split; [reflexivity|]. fields. repeat split; try done.
    intros e He. set_solver.
  - rewrite Ho. run. destruct (o_pause o) as [m|] eqn:Hm.
    + rewrite call_flow_Some. eexists. split; [reflexivity|]. fields.
      repeat split; try done; [set_solver|].
      intros m' _ [= <-]. set_solver.
    + eexists. split; [reflexivity|]. fields. repeat split; try done.
      intros e He. set_solver.
Qed.

(** The loops of the [drain] listener. *)
Definition drain_stream (id : Z) : M unit :=
  st <- get ;;
  stream <- of_option (streams st !! id) ;;
  o <- get_obj stream ;;
  when (is_true (o_readable o)) (call_flow stream MResume (o_resume o)).

Definition drain_proxy (id : Z) : M unit :=
  st <- get ;;
  p <- of_option (proxyStreams st !! id) ;;
  when (is_true (p_writable p)) (log (ProxyEmit id EvDrain NoPayload)).

Lemma on_drain_unfold (st : state) :
  on_drain st =
    (forEach (Object_keys (streams st)) drain_stream ;;;
     st' <- get ;; forEach (Object_keys (proxyStreams st')) drain_proxy) st.
Proof. reflexivity. Qed.

(** A step that only appends to the trace. *)
Definition same_registry (st st' : state) : Prop :=
  heap st' = heap st ∧ proxyStreams st' = proxyStreams st ∧
  streams st' = streams st ∧ watchers st' = watchers st ∧
  processes st' = processes st ∧ apis st' = apis st ∧
  ∀ e, e ∈ trace st → e ∈ trace st'.

Lemma same_registry_refl (st : state) : same_registry st st.
Proof. by repeat split. Qed.

Lemma same_registry_trans (a b c : state) :
  same_registry a b → same_registry b c → same_registry a c.
Proof.
  intros (?&?&?&?&?&?&?) (?&?&?&?&?&?&?). repeat split; try congruence. auto.
Qed.

Lemma drain_stream_run (st : state) (id : Z) (stream : ref) (o : object) :
  streams st !! id = Some stream → heap st !! stream = Some o →
  ∃ st', drain_stream id st = Some (tt, st') ∧ same_registry st st' ∧
    (∀ m, o_readable o = Some true → o_resume o = Some m →
       Call (flow_target stream m) MResume NoPayload ∈ trace st').
Proof.
  intros Hid Ho. unfold drain_stream. run. rewrite Hid. run. rewrite Ho. run.
  destruct (o_readable o) as [[]|] eqn:Hr; cbn [is_true].
  - destruct (o_resume o) as [m|] eqn:Hm.
    + rewrite call_flow_Some. eexists. split; [reflexivity|]. split.
      * repeat split; fields; try done. set_solver.
      * intros m' _ [= <-]. fields. set_solver.
    + eexists. split; [reflexivity|]. split; [apply same_registry_refl|done].
  - eexists. split; [reflexivity|]. split; [apply same_registry_refl|done].
  - eexists. split; [reflexivity|]. split; [apply same_registry_refl|done].
Qed.

Lemma drain_proxy_run (st : state) (id : Z) (p : proxy) :
  proxyStreams st !! id = Some p →
  ∃ st', drain_proxy id st = Some (tt, st') ∧ same_registry st st' ∧
    (p_writable p = Some true → ProxyEmit id EvDrain NoPayload ∈ trace st').
Proof.
  intros Hid. unfold drain_proxy. run. rewrite Hid. run.
  destruct (p_writable p) as [[]|] eqn:Hw; cbn [is_true].
  - eexists. split; [reflexivity|]. split.
    + repeat split; fields; try done. set_solver.
    + intros _. fields. set_solver.
  - eexists. split; [reflexivity|]. split; [apply same_registry_refl|done].
  - eexists. split; [reflexivity|]. split; [apply same_registry_refl|done].
Qed.

Lemma emit_data_pauses (st : state) (stream : ref) (o : object) (id : Z)
    (p : payload) (answer : Z → payload → bool) (m : flow_method) :
  heap st !! stream = Some o →
  Forall (λ l, ∃ id', l = LStreamData id' stream) (listeners_for EvData o) →
  LStreamData id stream ∈ listeners_for EvData o →
  r_onData (remote st) = Some answer →
  answer id p = false →
  o_pause o = Some m →
  ∃ st', emit stream EvData p st = Some (tt, st') ∧
    Call (flow_target stream m) MPause NoPayload ∈ trace st'.
Proof.
  intros Ho Hall Hin Hans Hfalse Hm. unfold emit. run. rewrite Ho. run.
  set (st0 := upd_trace _ st).
  destruct (forEach_invariant
    (λ seen st1, heap st1 = heap st ∧ remote st1 = remote st ∧
       (LStreamData id stream ∈ seen →
          Call (flow_target stream m) MPause NoPayload ∈ trace st1))
    (listeners_for EvData o) (λ l, run_listener l p) st0)
    as (st' & Hrun & _ & _ & Hseen).
  - repeat split; try done. intros H. by apply elem_of_nil in H.
  - intros seen l st1 (Hheap & Hremote & Hdone) Hl.
    rewrite Forall_forall in Hall. destruct (Hall l Hl) as [id' ->].
    destruct (run_data_listener st1 stream o id' p answer) as
      (st2 & Hstep & Hheap2 & Hremote2 & Hmono & Hpause); [congruence..|].
    exists st2. split; [done|]. repeat split; try congruence.
    intros Hin'. apply elem_of_app in Hin' as [Hold|Hnew].
    + auto.
    + apply list_elem_of_singleton in Hnew. injection Hnew as <-. auto.
  - exists st'. split; [done|auto].
Qed.

Lemma on_drain_resumes (st : state) :
  (∀ id stream, streams st !! id = Some stream → is_Some (heap st !! stream)) →
  ∃ st', on_drain st = Some (tt, st') ∧ same_registry st st' ∧
    (∀ id stream o m,
       streams st !! id = Some stream → heap st !! stream = Some o →
       o_readable o = Some true → o_resume o = Some m →
       Call (flow_target stream m) MResume NoPayload ∈ trace st') ∧
    (∀ id p,
       proxyStreams st !! id = Some p → p_writable p = Some true →
       ProxyEmit id EvDrain NoPayload ∈ trace st').
Proof.
  intros Hclosed. rewrite on_drain_unfold.
  destruct (forEach_invariant
    (λ seen st1, same_registry st st1 ∧
       ∀ id stream o m, id ∈ seen →
         streams st !! id = Some stream → heap st !! stream = Some o →
         o_readable o = Some true → o_resume o = Some m →
         Call (flow_target stream m) MResume NoPayload ∈ trace st1)
    (Object_keys (streams st)) drain_stream st)
    as (st1 & Hrun1 & Hsame1 & Hres).
  - split; [apply same_registry_refl|]. intros ???? H. by apply elem_of_nil in H.
  - intros seen id st1 (Hsame & Hdone) Hid.
    apply Object_keys_spec in Hid as [stream Hstream].
    destruct (Hclosed id stream Hstream) as [o Ho].
    pose proof Hsame as (Hh & _ & Hs & _).
    destruct (drain_stream_run st1 id stream o) as (st2 & Hstep & Hsame2 & Hcall);
      [congruence..|].
    exists st2. split; [done|]. split; [by eapply same_registry_trans|].
    intros id' stream' o' m Hin Hs' Ho' Hr Hm.
    destruct Hsame2 as (_ & _ & _ & _ & _ & _ & Hmono).
    apply elem_of_app in Hin as [Hold|Hnew].
    + eauto.
    + apply list_elem_of_singleton in Hnew. subst id'.
      assert (stream' = stream) as -> by congruence.
      assert (o' = o) as -> by congruence. auto.
  - destruct (forEach_invariant
      (λ seen st2, same_registry st1 st2 ∧
         ∀ id p, id ∈ seen → proxyStreams st !! id = Some p →
           p_writable p = Some true → ProxyEmit id EvDrain NoPayload ∈ trace st2)
      (Object_keys (proxyStreams st1)) drain_proxy st1)
      as (st2 & Hrun2 & Hsame2 & Hprox).
    + split; [apply same_registry_refl|]. intros ?? H. by apply elem_of_nil in H.
    + intros seen id st2 (Hsame & Hdone) Hid.
      apply Object_keys_spec in Hid as [p Hp].
      pose proof Hsame as (_ & Hp2 & _).
      destruct (drain_proxy_run st2 id p) as (st3 & Hstep & Hsame3 & Hemit);
        [congruence|].
      exists st3. split; [done|]. split; [by eapply same_registry_trans|].
      intros id' p' Hin Hp' Hw.
      destruct Hsame3 as (_ & _ & _ & _ & _ & _ & Hmono).
      apply elem_of_app in Hin as [Hold|Hnew].
      * eauto.
      * apply list_elem_of_singleton in Hnew. subst id'.
        destruct Hsame1 as (_ & Hp1 & _).
        assert (p' = p) as -> by congruence. auto.
    + exists st2. split.
      { unfold bind at 1. rewrite Hrun1. unfold bind, get. exact Hrun2. }
      split; [by eapply same_registry_trans|]. split.
      * intros id stream o m Hs Ho Hr Hm.
        destruct Hsame2 as (_ & _ & _ & _ & _ & _ & Hmono). apply Hmono.
        eapply Hres; eauto. apply Object_keys_spec. eauto.
      * intros id p Hp Hw. eapply Hprox; eauto.
        apply Object_keys_spec. destruct Hsame1 as (_ & -> & _). eauto.
Qed.

Definition refusing_remote : remote_api :=
  mkRemote true (Some (λ _ _, false)) true true true true true true.

(** C3: backpressure in both directions.  When a stream that
    [storeStream] subscribed as readable emits [data], the peer's
    [onData(id, chunk)] returns [false] and the stream has a [pause], then
    [pause()] is called on it.  When the channel emits [drain], every
    registered stream that is readable and has a [resume] gets
    [resume()], and every writable proxy stream emits [drain]; the
    registry itself is left as it was. *)
Theorem backpressure_round_trip (st : state) :
  (∀ id stream, streams st !! id = Some stream → is_Some (heap st !! stream)) →
  (∀ stream o id chunk answer m,
     heap st !! stream = Some o →
     Forall (λ l, ∃ id', l = LStreamData id' stream) (listeners_for EvData o) →
     LStreamData id stream ∈ listeners_for EvData o →
     r_onData (remote st) = Some answer →
     answer id (Chunk chunk) = false →
     o_pause o = Some m →
     ∃ st', emit stream EvData (Chunk chunk) st = Some (tt, st') ∧
       Call (flow_target stream m) MPause NoPayload ∈ trace st') ∧
  (∃ st', on_drain st = Some (tt, st') ∧ same_registry st st' ∧
     (∀ id stream o m,
        streams st !! id = Some stream → heap st !! stream = Some o →
        o_readable o = Some true → o_resume o = Some m →
        Call (flow_target stream m) MResume NoPayload ∈ trace st') ∧
     (∀ id p,
        proxyStreams st !! id = Some p → p_writable p = Some true →
        ProxyEmit id EvDrain NoPayload ∈ trace st')).
Proof.
  intros Hclosed. split.
  - intros. by eapply emit_data_pauses.
  - by apply on_drain_resumes.
Qed.

(** A connection whose peer refuses data, after one readable stream was
    stored and one writable proxy was made. *)
Definition refusing_state : state :=
  upd_proxyStreams (insert 5 (mkProxy None (Some true)))
    (after_storeStream 2 0%nat readable_stream
       (init {[0%nat := readable_stream]} refusing_remote)).

Lemma refusing_state_reached :
  exec (storeStream 0%nat ;;; makeStreamProxy 5 None (Some true))
    (init {[0%nat := readable_stream]} refusing_remote) = Some refusing_state.
Proof.
  unfold exec, bind.
  rewrite (storeStream_new _ 0%nat readable_stream 2) by reflexivity.
  reflexivity.
Qed.

Lemma refusing_state_streams :
  streams refusing_state = <[2 := 0%nat]> ∅.
Proof. reflexivity. Qed.

Lemma refusing_state_heap :
  heap refusing_state =
    <[0%nat := stored_stream 2 0%nat readable_stream]> {[0%nat := readable_stream]}.
Proof. reflexivity. Qed.

Lemma refusing_state_proxies :
  proxyStreams refusing_state = <[5 := mkProxy None (Some true)]> ∅.
Proof. reflexivity. Qed.

(** The round trip on that connection: [data] pauses the stream, [drain]
    resumes it and reaches the proxy. *)
Lemma backpressure_round_trip_example :
  ∃ st1 st2,
    emit 0%nat EvData (Chunk "hi") refusing_state = Some (tt, st1) ∧
    Call 0%nat MPause NoPayload ∈ trace st1 ∧
    on_drain refusing_state = Some (tt, st2) ∧
    Call 0%nat MResume NoPayload ∈ trace st2 ∧
    ProxyEmit 5 EvDrain NoPayload ∈ trace st2.
Proof.
  assert (Hclosed : ∀ id stream, streams refusing_state !! id = Some stream →
            is_Some (heap refusing_state !! stream)).
  { intros id stream H. rewrite refusing_state_streams in H.
    rewrite refusing_state_heap.
    apply lookup_insert_Some in H as [[_ <-]|[_ H]].
    - rewrite lookup_insert_eq. eauto.
    - by rewrite lookup_empty in H. }
  destruct (backpressure_round_trip refusing_state Hclosed)
    as [Hdata (st2 & Hdrain & _ & Hresume & Hproxy)].
  destruct (Hdata 0%nat (stored_stream 2 0%nat readable_stream) 2 "hi"
              (λ _ _, false) OwnMethod) as (st1 & Hemit & Hpause).
  - rewrite refusing_state_heap. apply lookup_insert_eq.
  - repeat constructor. by exists 2.
  - vm_compute. left.
  - reflexivity.
  - reflexivity.
  - reflexivity.
  - exists st1, st2. split; [exact Hemit|]. split; [exact Hpause|].
    split; [exact Hdrain|]. split.
    + apply (Hresume 2 0%nat (stored_stream 2 0%nat readable_stream) OwnMethod).
      * rewrite refusing_state_streams. apply lookup_insert_eq.
      * rewrite refusing_state_heap. apply lookup_insert_eq.
      * reflexivity.
      * reflexivity.
    + apply (Hproxy 5 (mkProxy None (Some true))).
      * rewrite refusing_state_proxies. apply lookup_insert_eq.
      * reflexivity.
Defined.

(** ** Teardown on disconnect *)














(** What a loop of the teardown leaves alone. *)
Definition untouched (st st' : state) : Prop :=
  heap st' = heap st ∧ apis st' = apis st ∧ remote st' = remote st ∧
  nextStreamID st' = nextStreamID st ∧ nextWatcherID st' = nextWatcherID st.

Lemma untouched_refl (st : state) : untouched st st.
Proof. by repeat split. Qed.






(** *** The loop over the local streams *)

#[local] Instance listener_eq_dec : EqDecision listener.
Proof. solve_decision. Defined.






(** *** The whole listener *)








(** *** A session and its teardown *)

Definition pty_object (pid : Z) : object :=
  mkObject None None (Some true) (Some true) (Some OwnMethod) (Some OwnMethod) None
    pid false OwnKill None None None "" [] [].

Definition api_object (name : string) (names : list string) : object :=
  mkObject None None None None None None None 0 false OwnKill None None None
    name names [].

Definition session_heap : gmap ref object :=
  {[ 0%nat := process_object 4711 1%nat 2%nat 3%nat;
     1%nat := writable_stream;
     2%nat := readable_stream;
     3%nat := readable_stream;
     4%nat := plain_object;
     5%nat := api_object "collab" ["send"];
     6%nat := pty_object 99 ]}.

(** A process, a watcher, an api and a pty are handed to the peer, the
    peer unrefs the pty and passes a writable stream of its own. *)
Definition session_script : M unit :=
  storeProcess 0%nat false ;;;
  storeWatcher 4%nat ;;;
  storeApi 5%nat ;;;
  storePty 6%nat ;;;
  unref 99 ;;;
  makeStreamProxy 9 None (Some true).

Definition run_from {A : Type} (st : state) (m : M A) : state :=
  match m st with
  | Some (_, st') => st'
  | None => st
  end.

Definition session : state := run_from (init session_heap full_remote) session_script.

Lemma session_reached :
  exec session_script (init session_heap full_remote) = Some session.
Proof. vm_compute. reflexivity. Qed.




(** ** The callback marshaller *)














(** ** [ping] and the timing of api calls *)

Definition ping_api_heap : gmap ref object := {[0%nat := api_object "ping" ["ping"]]}.

(** C9, the claim as stated fails.  The endpoint [ping] calls its first
    argument: sent ["serverTime", cb] it applies the string as a function,
    which throws, and [cb] is never called.  The timing wrapper sits in
    [call], for an api named [ping]; when no such api is registered,
    [call] returns without calling anything. *)
Lemma ping_serverTime_not_delivered :
  ping [PStr "serverTime"; PFun 7] (init ping_api_heap full_remote) = None ∧
  call "ping" "ping" [PStr "serverTime"; PFun 7] (init ping_api_heap full_remote)
    = Some (tt, init ping_api_heap full_remote) ∧
  trace (init ping_api_heap full_remote) = [].
Proof. repeat split. Qed.

Lemma call_ping_run (st : state) (api : ref) (o : object) (cb : peer_arg) :
  apis st !! "ping" = Some api →
  heap st !! api = Some o →
  existsb (String.eqb "ping") (o_names o) = true →
  call "ping" "ping" [PStr "serverTime"; cb] st =
    Some (tt, upd_trace (λ t, t ++ [ApiApply api "ping"
                [Plain (PStr "serverTime"); Marshalled (PingWrap (clock st) cb)]]) st).
Proof.
  intros Hapi Ho Hnames. unfold call. run. rewrite Hapi. run. rewrite Ho. run.
  rewrite Hnames.
  replace (wrap_last (wrapPingCall (clock st) "ping" "ping" [PStr "serverTime"; cb]))
    with [Plain (PStr "serverTime"); Marshalled (PingWrap (clock st) cb)]
    by reflexivity.
  reflexivity.
Qed.

(** C9 (amended).  The endpoint [ping(callback)] calls [callback] at
    once, with no argument.  Timing is added by [call]: for an api
    registered under the name [ping] that has a method [ping],
    [call("ping", "ping", ["serverTime", cb])] reads the clock and hands
    the api a closure in the place of [cb]; when the api calls that
    closure back without an error, [cb] receives
    [(null, {serverTime: elapsed})] where [elapsed] is the clock at that
    moment minus the clock read by [call], which is not negative as
    long as the clock did not go back; when the api reports an error,
    [cb] receives the serialised error alone. *)
Theorem ping_and_serverTime (st : state) (api : ref) (o : object) (cb : nat) :
  apis st !! "ping" = Some api →
  heap st !! api = Some o →
  existsb (String.eqb "ping") (o_names o) = true →
  (∀ rest, ping (PFun cb :: rest) st =
     Some (tt, upd_trace (λ t, t ++ [PeerCallback cb Args0]) st)) ∧
  call "ping" "ping" [PStr "serverTime"; PFun cb] st =
    Some (tt, upd_trace (λ t, t ++ [ApiApply api "ping"
                [Plain (PStr "serverTime");
                 Marshalled (PingWrap (clock st) (PFun cb))]]) st) ∧
  (∀ node_pid start later meta,
     (meta = RAbsent ∨ ∃ d, meta = RPrimitive d) →
     marshalled_callback node_pid (PingWrap start (PFun cb)) (OutcomeValue meta) later =
       Some (tt, upd_trace
                   (λ t, t ++ [PeerCallback cb (ArgsServerTime (clock later - start))])
                   later) ∧
     (start ≤ clock later → 0 ≤ clock later - start)) ∧
  (∀ node_pid start later e,
     marshalled_callback node_pid (PingWrap start (PFun cb)) (OutcomeError e None) later =
       Some (tt, upd_trace
                   (λ t, t ++ [PeerCallback cb (ArgsError (make_envelope node_pid e))])
                   later)).
Proof.
  intros Hapi Ho Hnames. split; [|split; [|split]].
  - intros rest. reflexivity.
  - by apply call_ping_run with o.
  - intros node_pid start later meta Hmeta. split; [|lia].
    destruct Hmeta as [->|[d ->]]; reflexivity.
  - intros node_pid start later e. reflexivity.
Qed.

(** A connection with a [ping] api: the call is made at time 1000, the
    api answers at time 1050 with the payload it was sent. *)
Definition ping_state : state :=
  set_clock 1000 (run_from (init ping_api_heap full_remote) (storeApi 0%nat)).

Lemma ping_serverTime_example :
  call "ping" "ping" [PStr "serverTime"; PFun 7] ping_state =
    Some (tt, upd_trace (λ t, t ++ [ApiApply 0%nat "ping"
                [Plain (PStr "serverTime"); Marshalled (PingWrap 1000 (PFun 7))]])
                ping_state) ∧
  (trace <$> exec (marshalled_callback 4242 (PingWrap 1000 (PFun 7))
                     (OutcomeValue (RPrimitive (JStr "serverTime"))))
               (set_clock 1050 ping_state))
    = Some [PeerCallback 7 (ArgsServerTime 50)].
Proof.
  destruct (ping_and_serverTime ping_state 0%nat (api_object "ping" ["ping"]) 7
              eq_refl eq_refl eq_refl) as (_ & Hcall & Hreply & _).
  split; [exact Hcall|].
  destruct (Hreply 4242 1000 (set_clock 1050 ping_state)
              (RPrimitive (JStr "serverTime"))) as [Hrun _]; [eauto|].
  unfold exec. rewrite Hrun. reflexivity.
Defined.

End WorkerFacts.

(** * The endpoints and the life of the handles *)

Module EndpointFacts.
Import Json Worker Endpoints WorkerFacts.

(** ** Fixtures *)

(** The state a computation leaves. *)
Definition after {A : Type} (m : M A) (st : state) : state :=
  match m st with
  | Some (_, st') => st'
  | None => st
  end.

Definition bare : object :=
  mkObject None None None None None None None 0 false OwnKill None None None "" [] [].

(** A readable and writable stream with [pause] and [resume]. *)
Definition duplex : object :=
  mkObject None None (Some true) (Some true) (Some OwnMethod) (Some OwnMethod) None 0
    false OwnKill None None None "" [] [].

(** A child process 4711 with its three streams, a pty 99 without
    [pause] and [resume] of its own over a socket that has them, and two
    apis that share a name. *)
Definition fixture_heap : gmap ref object :=
  {[ 0%nat := mkObject None None None None None None None 4711 false OwnKill
                (Some 1%nat) (Some 2%nat) (Some 3%nat) "" [] [];
     1%nat := duplex; 2%nat := duplex; 3%nat := duplex;
     4%nat := mkObject None None (Some true) (Some true) None None (Some 5%nat) 99
                false OwnKill None None None "" [] [];
     5%nat := duplex;
     6%nat := mkObject None None None None None None None 0 false OwnKill None None
                None "fs" ["read"] [];
     7%nat := mkObject None None None None None None None 0 false OwnKill None None
                None "fs" ["read"; "write"] [];
     8%nat := bare ]}.

Definition fixture : state := init fixture_heap full_remote.

(** ** Handles that are not registered *)

(** A call for an identifier that names no local stream does nothing. *)
Lemma stream_endpoints_unknown (st : state) (id : Z) (destroy_of : ref → destroy_prop) :
  streams st !! id = None →
  (∀ c, write id c st = Some (tt, st)) ∧
  (∀ c, end_ id c st = Some (tt, st)) ∧
  pause id st = Some (tt, st) ∧
  resume id st = Some (tt, st) ∧
  destroy destroy_of id st = Some (tt, st).
Proof.
  intros Hid. unfold write, end_, pause, resume, destroy. run. by rewrite Hid.
Qed.

(** The chunk [end] passes on: an empty one counts as none. *)
Definition end_payload (chunk : option string) : payload :=
  match chunk with
  | Some c => if String.eqb c "" then NoPayload else Chunk c
  | None => NoPayload
  end.

(** X18: [end(id, chunk)] and [destroy(id)] release the handle before
    they call the stream: [end] passes the chunk on unless it is empty,
    [destroy] calls the stream only when it has a [destroy] method.
    After either of them every [write], [end], [pause], [resume] and
    [destroy] for that identifier does nothing. *)
Theorem end_and_destroy_release (st : state) (id : Z) (stream : ref)
    (destroy_of : ref → destroy_prop) (chunk : option string) :
  streams st !! id = Some stream →
  let ended := upd_trace (λ t, t ++ [Call stream MEnd (end_payload chunk)])
                 (upd_streams (delete id) st) in
  let destroyed :=
    match destroy_of stream with
    | DestroyFunction =>
      upd_trace (λ t, t ++ [Call stream MDestroy NoPayload]) (upd_streams (delete id) st)
    | _ => upd_streams (delete id) st
    end in
  end_ id chunk st = Some (tt, ended) ∧
  destroy destroy_of id st = Some (tt, destroyed) ∧
  ∀ st', st' = ended ∨ st' = destroyed →
    (∀ c, write id c st' = Some (tt, st')) ∧
    (∀ c, end_ id c st' = Some (tt, st')) ∧
    pause id st' = Some (tt, st') ∧
    resume id st' = Some (tt, st') ∧
    destroy destroy_of id st' = Some (tt, st').
Proof.
  intros Hid. cbv zeta. split; [|split].
  - unfold end_, end_payload. run. rewrite Hid. run.
    destruct chunk as [c|]; [destruct (String.eqb c "")|]; reflexivity.
  - unfold destroy. run. rewrite Hid. run. by destruct (destroy_of stream).
  - intros st' Hst'. apply stream_endpoints_unknown.
    destruct Hst' as [->| ->]; [|destruct (destroy_of stream)]; fields;
      apply lookup_delete_eq.
Qed.


Lemma end_and_destroy_release_example :
  let st := after (storeStream 1%nat) fixture in
  let ended := upd_trace (λ t, t ++ [Call 1%nat MEnd (Chunk "bye")])
                 (upd_streams (delete 2) st) in
  end_ 2 (Some "bye") st = Some (tt, ended) ∧
  write 2 "late" ended = Some (tt, ended).
Proof.
  cbv zeta.
  destruct (end_and_destroy_release (after (storeStream 1%nat) fixture) 2 1%nat
              (λ _, DestroyFunction) (Some "bye") eq_refl) as (Hend & _ & Hlater).
  split; [exact Hend|].
  destruct (Hlater _ (or_introl eq_refl)) as (Hwrite & _).
  exact (Hwrite "late").
Defined.

(** ** Watchers *)

Lemma probe_free {V : Type} (fuel : nat) (m : gmap Z V) (c id : Z) :
  probe fuel m c = Some id → m !! id = None.
Proof.
  revert c. induction fuel as [|fuel IH]; intros c; [done|].
  cbn [probe]. case_bool_decide as Hocc; [apply IH|].
  intros [= <-]. by apply eq_None_not_Some.
Qed.

Lemma allocate_free {V : Type} (m : gmap Z V) (cursor id : Z) :
  allocate m cursor = Some id → m !! id = None.
Proof. apply probe_free. Qed.

Lemma listeners_for_app (ev : event) (o o' : object) (extra : list (event * listener)) :
  o_listeners o' = o_listeners o ++ extra →
  listeners_for ev o' = listeners_for ev o
    ++ map snd (filter (λ el, event_eqb (fst el) ev = true) extra).
Proof.
  unfold listeners_for. intros ->. by rewrite filter_app, map_app.
Qed.

(** X19: a stored watcher reports its [change] events to the peer under
    its identifier.  [close(id)] releases the identifier and closes the
    watcher, once: a second [close(id)] does nothing.  The listener stays
    on the watcher, so a [change] emitted after the close is still
    reported under the released identifier. *)
Theorem watcher_lifecycle (st : state) (watcher : ref) (o : object) (id : Z)
    (p : payload) :
  heap st !! watcher = Some o →
  allocate (watchers st) (nextWatcherID st) = Some id →
  listeners_for EvChange o = [] →
  r_onChange (remote st) = true →
  let st1 := after_storeWatcher id watcher o st in
  let st2 := upd_trace (λ t, t ++ [Call watcher MClose NoPayload])
               (upd_watchers (delete id) st1) in
  let report (s : state) :=
    upd_trace (λ t, t ++ [Emit watcher EvChange p; RemoteOnChange id p]) s in
  storeWatcher watcher st = Some (TokWatcher id, st1) ∧
  emit watcher EvChange p st1 = Some (tt, report st1) ∧
  closeWatcher id st1 = Some (tt, st2) ∧
  watchers st2 = watchers st ∧
  closeWatcher id st2 = Some (tt, st2) ∧
  emit watcher EvChange p st2 = Some (tt, report st2).
Proof.
  intros Ho Hid Hnone Hremote. cbv zeta.
  assert (Hlisten : listeners_for EvChange (stored_watcher id o) = [LWatcherChange id]).
  { rewrite (listeners_for_app EvChange o _ [(EvChange, LWatcherChange id)]) by done.
    by rewrite Hnone. }
  assert (Hemit : ∀ s, heap s !! watcher = Some (stored_watcher id o) →
            r_onChange (remote s) = true →
            emit watcher EvChange p s =
              Some (tt, upd_trace
                          (λ t, t ++ [Emit watcher EvChange p; RemoteOnChange id p]) s)).
  { intros s Hs Hr. unfold emit. run. rewrite Hs. run. rewrite Hlisten.
    cbn [forEach]. unfold run_listener. run. rewrite Hr. run.
    apply result_eq, state_eq; fields; try reflexivity.
    by rewrite <- app_assoc. }
  split; [by apply storeWatcher_run|].
  split; [apply Hemit; [apply lookup_insert_eq|done]|].
  split.
  { unfold closeWatcher. run. unfold after_storeWatcher at 1. fields.
    rewrite lookup_insert_eq. run. reflexivity. }
  split.
  { unfold after_storeWatcher. fields. rewrite delete_insert_eq.
    apply delete_id. by apply allocate_free in Hid. }
  split.
  { unfold closeWatcher. run. unfold after_storeWatcher. fields.
    by rewrite lookup_delete_eq. }
  apply Hemit; [apply lookup_insert_eq|done].
Qed.


Lemma watcher_lifecycle_example :
  let st1 := after_storeWatcher 2 8%nat bare fixture in
  let st2 := upd_trace (λ t, t ++ [Call 8%nat MClose NoPayload])
               (upd_watchers (delete 2) st1) in
  storeWatcher 8%nat fixture = Some (TokWatcher 2, st1) ∧
  closeWatcher 2 st1 = Some (tt, st2) ∧
  closeWatcher 2 st2 = Some (tt, st2).
Proof.
  cbv zeta.
  destruct (watcher_lifecycle fixture 8%nat bare 2 NoPayload
              eq_refl eq_refl eq_refl eq_refl) as (H1 & _ & H2 & _ & H3 & _).
  split; [exact H1|]. split; [exact H2 | exact H3].
Defined.

(** ** Routed calls and proxy streams *)

(** X20: a routed call whose callback is not a function is dropped
    without any effect; with a callback and [null] options it throws;
    with a callback and a missing path the callback gets an error with
    code [EINVALIDPATH], as an error object and not as an envelope, and no
    VFS function is called, but a stream token under [options.stream]
    has been turned into a proxy stream before, which stays
    registered. *)
Theorem route_refusals (st : state) (name : string) (path : option json)
    (options : option (option stream_token)) (callback : peer_arg) (cb : nat)
    (t : stream_token) :
  ((∀ f, callback ≠ PFun f) →
     route name path options callback st = Some (RouteIgnored, st)) ∧
  route name path None (PFun cb) st = None ∧
  route name None (Some None) (PFun cb) st =
    Some (RouteRefused cb
            (new_Error "refusing to process invalid request: missing path"
               "EINVALIDPATH"), st) ∧
  route name None (Some (Some t)) (PFun cb) st =
    Some (RouteRefused cb
            (new_Error "refusing to process invalid request: missing path"
               "EINVALIDPATH"),
          upd_proxyStreams
            (insert (tok_id t) (mkProxy (tok_readable t) (tok_writable t))) st).
Proof.
  split; [|split; [|split]]; try reflexivity.
  intros Hnot. destruct callback as [| |f]; try reflexivity. by destruct (Hnot f).
Qed.

(** X21: a routed call with a stream token under [options.stream]
    registers a proxy stream under the token's identifier and hands the
    call to the VFS.  [onData] emits [data] on the proxy; [onEnd] and
    [onClose] emit their event and forget the proxy, so that after
    [onEnd] a later [onClose], [onData] or [onEnd] for the identifier
    does nothing. *)
Theorem route_proxy_lifecycle (st : state) (name : string) (path : json)
    (t : stream_token) (cb : nat) (chunk : string) (p : payload) :
  let id := tok_id t in
  let st1 := upd_proxyStreams
               (insert id (mkProxy (tok_readable t) (tok_writable t))) st in
  let st2 := upd_trace (λ tr, tr ++ [ProxyEmit id EvEnd p])
               (upd_proxyStreams (delete id) st1) in
  route name (Some path) (Some (Some t)) (PFun cb) st
    = Some (RouteVfs name path (Some id) cb, st1) ∧
  proxyStreams st1 !! id = Some (mkProxy (tok_readable t) (tok_writable t)) ∧
  onData id chunk st1
    = Some (tt, upd_trace (λ tr, tr ++ [ProxyEmit id EvData (Chunk chunk)]) st1) ∧
  onClose id st1
    = Some (tt, upd_trace (λ tr, tr ++ [ProxyEmit id EvClose NoPayload])
                  (upd_proxyStreams (delete id) st1)) ∧
  onEnd id p st1 = Some (tt, st2) ∧
  onClose id st2 = Some (tt, st2) ∧
  onData id chunk st2 = Some (tt, st2) ∧
  onEnd id p st2 = Some (tt, st2).
Proof.
  cbv zeta.
  split; [reflexivity|]. split; [apply lookup_insert_eq|].
  unfold onData, onClose, onEnd. run.
  rewrite !lookup_insert_eq, !lookup_delete_eq. done.
Qed.


(** ** Calls to stored apis *)






(** ** Subscriptions to VFS events *)









(** ** The events of a stored stream *)

(** The listener [storeStream] subscribes to an event. *)
Definition stream_listener (ev : event) (id : Z) (stream : ref) (readable : bool)
    : list listener :=
  match ev with
  | EvError => [LStreamError id]
  | EvData => if readable then [LStreamData id stream] else []
  | EvEnd => if readable then [LStreamEnd id] else []
  | EvClose => [LStreamClose id]
  | _ => []
  end.

Lemma stream_listeners_for (ev : event) (id : Z) (stream : ref) (readable : bool) :
  map snd (filter (λ el, event_eqb (fst el) ev = true)
             (stream_listeners id stream readable))
  = stream_listener ev id stream readable.
Proof. by destruct ev, readable. Qed.

(** X24: after [storeStream] on a stream that had no token and no
    listener, with a peer that offers every callback and accepts the
    data: [error] and [close] are reported under the stream's identifier,
    and [close] releases the identifier, leaving the registry as it was
    before the store; [data] and [end] are reported (and [end] releases
    the identifier) only when the stream was readable when stored;
    otherwise they are emitted without any report and the stream stays
    registered. *)
Theorem stream_events_forwarded (st : state) (stream : ref) (o : object) (id : Z)
    (p : payload) :
  heap st !! stream = Some o →
  o_token o = None →
  o_listeners o = [] →
  allocate (streams st) (nextStreamID st) = Some id →
  remote st = full_remote →
  let st1 := after_storeStream id stream o st in
  let sent (ev : event) (e : list effect) (s : state) :=
    upd_trace (λ t, t ++ Emit stream ev p :: e) s in
  storeStream stream st = Some (TokStream id (o_readable o) (o_writable o), st1) ∧
  emit stream EvError p st1 = Some (tt, sent EvError [RemoteOnError id p] st1) ∧
  emit stream EvClose p st1
    = Some (tt, sent EvClose [RemoteOnClose id] (upd_streams (delete id) st1)) ∧
  streams (upd_streams (delete id) st1) = streams st ∧
  (is_true (o_readable o) = true →
     emit stream EvData p st1 = Some (tt, sent EvData [RemoteOnData id p] st1) ∧
     emit stream EvEnd p st1
       = Some (tt, sent EvEnd [RemoteOnEnd id p] (upd_streams (delete id) st1))) ∧
  (is_true (o_readable o) = false →
     emit stream EvData p st1 = Some (tt, sent EvData [] st1) ∧
     emit stream EvEnd p st1 = Some (tt, sent EvEnd [] st1)).
Proof.
  intros Ho Htok Hnone Hid Hremote. cbv zeta.
  assert (Hheap : heap (after_storeStream id stream o st) !! stream
                  = Some (stored_stream id stream o))
    by apply lookup_insert_eq.
  assert (Hr : remote (after_storeStream id stream o st) = full_remote) by done.
  assert (Hlisten : ∀ ev, listeners_for ev (stored_stream id stream o) =
            map snd (filter (λ el, event_eqb (fst el) ev = true)
                       (stream_listeners id stream (is_true (o_readable o))))).
  { intros ev. unfold listeners_for, stored_stream. cbn [o_listeners].
    by rewrite Hnone. }
  split; [by apply storeStream_new|].
  assert (Hemit : ∀ ev, emit stream ev p (after_storeStream id stream o st) =
            (log (Emit stream ev p) ;;;
             forEach (stream_listener ev id stream (is_true (o_readable o)))
               (λ l, run_listener l p)) (after_storeStream id stream o st)).
  { intros ev. unfold emit. run. rewrite Hheap. run.
    by rewrite Hlisten, stream_listeners_for. }
  set (st1 := after_storeStream id stream o st) in *.
  assert (Hremote1 : remote st1 = full_remote) by done.
  assert (Hflags : r_onError (remote st1) = true ∧ r_onClose (remote st1) = true ∧
            r_onEnd (remote st1) = true ∧
            r_onData (remote st1) = Some (λ _ _, true)) by (by rewrite Hremote1).
  destruct Hflags as (Herr & Hclose & Hend & Hdata).
  split; [|split; [|split; [|split]]].
  - rewrite Hemit. cbn [stream_listener forEach]. unfold run_listener. run.
    rewrite Herr. run.
    apply result_eq, state_eq; fields; try reflexivity. by rewrite <- app_assoc.
  - rewrite Hemit. cbn [stream_listener forEach]. unfold run_listener. run.
    rewrite Hclose. run.
    apply result_eq, state_eq; fields; try reflexivity. by rewrite <- app_assoc.
  - unfold st1, after_storeStream. fields. rewrite delete_insert_eq.
    apply delete_id. by apply allocate_free in Hid.
  - intros Hread. rewrite !Hemit, Hread. cbn [stream_listener forEach].
    unfold run_listener. run. rewrite Hdata, Hend. run. split.
    + apply result_eq, state_eq; fields; try reflexivity. by rewrite <- app_assoc.
    + apply result_eq, state_eq; fields; try reflexivity. by rewrite <- app_assoc.
  - intros Hread. rewrite !Hemit, Hread. cbn [stream_listener forEach]. run. done.
Qed.


Lemma stream_events_forwarded_example :
  let st1 := after_storeStream 2 1%nat duplex fixture in
  storeStream 1%nat fixture = Some (TokStream 2 (Some true) (Some true), st1) ∧
  emit 1%nat EvEnd (Chunk "x") st1
  = Some (tt, upd_trace
                (λ t, t ++ [Emit 1%nat EvEnd (Chunk "x"); RemoteOnEnd 2 (Chunk "x")])
                (upd_streams (delete 2) st1)).
Proof.
  cbv zeta.
  destruct (stream_events_forwarded fixture 1%nat duplex 2 (Chunk "x")
              eq_refl eq_refl eq_refl eq_refl eq_refl)
    as (H1 & _ & _ & _ & Hread & _).
  split; [exact H1|]. destruct (Hread eq_refl) as [_ Hend]. exact Hend.
Defined.

(** ** Processes *)

(** The process object after the first half of [storeProcess]. *)
Definition registered_process (onlyPid : bool) (process : ref) (o : object) : object :=
  mkObject (Some (TokProcess (o_pid o) None)) (o_id o) (o_readable o) (o_writable o)
    (o_pause o) (o_resume o) (o_socket o) (o_pid o) (o_unreffed o)
    (Killtree (o_pid o)) (o_stdin o) (o_stdout o) (o_stderr o) (o_name o) (o_names o)
    (o_listeners o ++
       [(EvExit, LProcExit (o_pid o)); (EvClose, LProcClose (o_pid o) onlyPid process)]).

Definition after_register (process : ref) (onlyPid : bool) (o : object) (st : state)
    : state :=
  mkState (<[process := registered_process onlyPid process o]> (heap st))
    (proxyStreams st) (streams st) (watchers st)
    (<[o_pid o := process]> (processes st)) (apis st)
    (nextStreamID st) (nextWatcherID st) (remote st) (clock st) (trace st).

Lemma storeProcess_onlyPid (st : state) (process : ref) (o : object) :
  heap st !! process = Some o →
  storeProcess process true st
    = Some (StoredPid (o_pid o), after_register process true o st).
Proof.
  intros Ho. unfold storeProcess. run. rewrite Ho. run.
  cbn [processes_token]. run. rewrite Ho. run.
  repeat (rewrite lookup_insert_eq; run).
  unfold after_register, registered_process.
  apply result_eq, state_eq; fields; try reflexivity.
  rewrite ?insert_insert_eq. f_equal. apply object_eq; objs; try done.
  by rewrite <- app_assoc.
Qed.

Lemma storeProcess_streams (st : state) (process : ref) (o : object) :
  heap st !! process = Some o →
  storeProcess process false st =
    (stdin <- of_option (o_stdin o) ;; tin <- storeStream stdin ;;
     stdout <- of_option (o_stdout o) ;; tout <- storeStream stdout ;;
     stderr <- of_option (o_stderr o) ;; terr <- storeStream stderr ;;
     let token := TokProcess (o_pid o) (Some (tin, tout, terr)) in
     update_obj process (with_token (Some token)) ;;;
     ret (StoredToken (Some token))) (after_register process false o st).
Proof.
  intros Ho. unfold storeProcess at 1. unfold bind at 1. unfold get_obj at 1.
  unfold bind at 1. unfold get at 1. rewrite Ho. unfold of_option at 1.
  unfold ret at 1. unfold bind at 1. unfold get at 1. cbn [processes_token].
  unfold bind at 1. unfold modify at 1.
  unfold bind at 1. unfold on at 1, update_obj at 1, bind at 1, get_obj at 1,
    bind at 1, get at 1. fields. rewrite Ho.
  unfold of_option at 1, ret at 1, modify at 1.
  unfold bind at 1. unfold on at 1, update_obj at 1, bind at 1, get_obj at 1,
    bind at 1, get at 1. fields. rewrite lookup_insert_eq.
  unfold of_option at 1, ret at 1, modify at 1.
  unfold bind at 1. unfold update_obj at 1, bind at 1, get_obj at 1,
    bind at 1, get at 1. fields. rewrite lookup_insert_eq.
  unfold of_option at 1, ret at 1, modify at 1.
  unfold bind at 1. unfold update_obj at 1, bind at 1, get_obj at 1,
    bind at 1, get at 1. fields. rewrite lookup_insert_eq.
  unfold of_option at 1, ret at 1, modify at 1.
  f_equal. unfold after_register, registered_process.
  apply state_eq; fields; try reflexivity.
  rewrite ?insert_insert_eq. f_equal. apply object_eq; objs; try done.
  by rewrite <- app_assoc.
Qed.


Lemma delete_fresh_insert {V : Type} (m : gmap Z V) (k : Z) (v : V) :
  m !! k = None → delete k (<[k := v]> m) = m.
Proof. intros H. rewrite delete_insert_eq. by apply delete_id. Qed.

Lemma release_three {V : Type} (m : gmap Z V) (a b c : Z) (i u e : V) :
  m !! a = None → <[a := i]> m !! b = None → <[b := u]> (<[a := i]> m) !! c = None →
  delete a (delete c (delete b (<[c := e]> (<[b := u]> (<[a := i]> m))))) = m.
Proof.
  intros Ha Hb Hc.
  apply lookup_insert_None in Hb as [Hb Hab].
  apply lookup_insert_None in Hc as [Hc Hbc].
  apply lookup_insert_None in Hc as [Hc Hac].
  apply map_eq. intros k.
  destruct (decide (k = a)) as [->|Hka]; [by rewrite lookup_delete_eq|].
  rewrite lookup_delete_ne by done.
  destruct (decide (k = c)) as [->|Hkc]; [by rewrite lookup_delete_eq|].
  rewrite lookup_delete_ne by done.
  destruct (decide (k = b)) as [->|Hkb]; [by rewrite lookup_delete_eq|].
  rewrite lookup_delete_ne by done.
  by rewrite !lookup_insert_ne.
Qed.

(** X25: storing a process that was not registered, whose three
    streams are distinct objects without token, registers the process
    under its pid and the streams under three fresh identifiers, and
    returns the token of the pid with the three stream tokens.  From
    then on [kill(pid)] goes to [vfs.killtree(pid)].  The [exit] event
    releases the pid alone; the [close] event releases the pid and the
    three stream identifiers, so that both registries are as before the
    store, and is reported to the peer. *)
Theorem process_lifecycle (st : state) (process i u e : ref)
    (o oi ou oe : object) (a b c : Z) (code : option Z) (p : payload) :
  heap st !! process = Some o →
  o_listeners o = [] →
  processes st !! o_pid o = None →
  o_stdin o = Some i → o_stdout o = Some u → o_stderr o = Some e →
  NoDup [process; i; u; e] →
  heap st !! i = Some oi → heap st !! u = Some ou → heap st !! e = Some oe →
  o_token oi = None → o_token ou = None → o_token oe = None →
  allocate (streams st) (nextStreamID st) = Some a →
  allocate (<[a := i]> (streams st)) a = Some b →
  allocate (<[b := u]> (<[a := i]> (streams st))) b = Some c →
  remote st = full_remote →
  let pid := o_pid o in
  let token :=
    TokProcess pid
      (Some (TokStream a (o_readable oi) (o_writable oi),
             TokStream b (o_readable ou) (o_writable ou),
             TokStream c (o_readable oe) (o_writable oe))) in
  ∃ st1,
    storeProcess process false st = Some (StoredToken (Some token), st1) ∧
    processes st1 = <[pid := process]> (processes st) ∧
    streams st1 = <[c := e]> (<[b := u]> (<[a := i]> (streams st))) ∧
    trace st1 = trace st ∧
    kill pid code st1
      = Some (tt, upd_trace (λ t, t ++ [VfsKilltree pid]) st1) ∧
    emit process EvExit p st1
      = Some (tt, upd_trace (λ t, t ++ [Emit process EvExit p; RemoteOnExit pid p])
                    (upd_processes (delete pid) st1)) ∧
    ∃ st2,
      emit process EvClose p st1 = Some (tt, st2) ∧
      processes st2 = processes st ∧
      streams st2 = streams st ∧
      trace st2 = trace st ++ [Emit process EvClose p; RemoteOnProcessClose pid p].
Proof.
  intros Ho Hnone Hfree Hin Hout Herr Hdup Hi Hu He Hti Htu Hte Ha Hb Hc Hremote.
  cbv zeta.
  apply NoDup_cons in Hdup as [Hp Hdup]. apply NoDup_cons in Hdup as [Hiu Hdup].
  apply NoDup_cons in Hdup as [Hue _].
  assert (Hpi : process ≠ i) by (intros ->; apply Hp; set_solver).
  assert (Hpu : process ≠ u) by (intros ->; apply Hp; set_solver).
  assert (Hpe : process ≠ e) by (intros ->; apply Hp; set_solver).
  assert (Hiu' : i ≠ u) by (intros ->; apply Hiu; set_solver).
  assert (Hie : i ≠ e) by (intros ->; apply Hiu; set_solver).
  assert (Hue' : u ≠ e) by (intros ->; apply Hue; set_solver).
  set (s0 := after_register process false o st).
  set (s1 := after_storeStream a i oi s0).
  set (s2 := after_storeStream b u ou s1).
  set (s3 := after_storeStream c e oe s2).
  set (token := TokProcess (o_pid o) _).
  set (final := with_token (Some token) (registered_process false process o)).
  assert (H1 : storeStream i s0 = Some (TokStream a (o_readable oi) (o_writable oi), s1)).
  { apply storeStream_new; [|done|done].
    unfold s0, after_register. fields. by rewrite lookup_insert_ne. }
  assert (H2 : storeStream u s1 = Some (TokStream b (o_readable ou) (o_writable ou), s2)).
  { apply storeStream_new; [|done|done].
    unfold s1, s0, after_storeStream, after_register. fields.
    by rewrite !lookup_insert_ne. }
  assert (H3 : storeStream e s2 = Some (TokStream c (o_readable oe) (o_writable oe), s3)).
  { apply storeStream_new; [|done|done].
    unfold s2, s1, s0, after_storeStream, after_register. fields.
    by rewrite !lookup_insert_ne. }
  assert (Hproc3 : heap s3 !! process = Some (registered_process false process o)).
  { unfold s3, s2, s1, s0, after_storeStream, after_register. fields.
    rewrite !lookup_insert_ne by done. apply lookup_insert_eq. }
  set (st1 := upd_heap (insert process final) s3).
  assert (Hstore : storeProcess process false st = Some (StoredToken (Some token), st1)).
  { rewrite (storeProcess_streams st process o Ho). fold s0.
    rewrite Hin, Hout, Herr.
    unfold bind at 1. unfold of_option at 1, ret at 1.
    rewrite (bind_run _ _ _ _ _ H1).
    unfold bind at 1. unfold of_option at 1, ret at 1.
    rewrite (bind_run _ _ _ _ _ H2).
    unfold bind at 1. unfold of_option at 1, ret at 1.
    rewrite (bind_run _ _ _ _ _ H3).
    cbv zeta. run. rewrite Hproc3. run. reflexivity. }
  assert (Hheap1 : heap st1 !! process = Some final) by apply lookup_insert_eq.
  assert (Hstreams1 : streams st1 = <[c := e]> (<[b := u]> (<[a := i]> (streams st))))
    by reflexivity.
  assert (Hprocs1 : processes st1 = <[o_pid o := process]> (processes st))
    by reflexivity.
  assert (Hremote1 : remote st1 = full_remote) by done.
  assert (Hlisten : ∀ ev, listeners_for ev final =
            match ev with
            | EvExit => [LProcExit (o_pid o)]
            | EvClose => [LProcClose (o_pid o) false process]
            | _ => []
            end).
  { intros ev. unfold listeners_for, final, registered_process.
    cbn [o_listeners with_token]. rewrite Hnone. by destruct ev. }
  exists st1. split; [done|]. split; [done|]. split; [done|]. split; [done|].
  split; [|split].
  - unfold kill. run. rewrite Hprocs1, lookup_insert_eq. run. rewrite Hheap1. run.
    reflexivity.
  - unfold emit. run. rewrite Hheap1. run. rewrite Hlisten. cbn [forEach].
    unfold run_listener. run. rewrite Hremote1. cbn [full_remote r_onExit]. run.
    apply result_eq, state_eq; fields; try reflexivity. by rewrite <- app_assoc.
  - assert (Hfa : streams st !! a = None) by (by apply allocate_free in Ha).
    assert (Hfb : <[a := i]> (streams st) !! b = None) by (by apply allocate_free in Hb).
    assert (Hfc : <[b := u]> (<[a := i]> (streams st)) !! c = None)
      by (by apply allocate_free in Hc).
    assert (Hhu : heap st1 !! u = Some (stored_stream b u ou)).
    { unfold st1, s3, s2, after_storeStream. fields.
      rewrite !lookup_insert_ne by done. apply lookup_insert_eq. }
    assert (Hhe : heap st1 !! e = Some (stored_stream c e oe)).
    { unfold st1, s3, after_storeStream. fields.
      rewrite lookup_insert_ne by done. apply lookup_insert_eq. }
    assert (Hhi : heap st1 !! i = Some (stored_stream a i oi)).
    { unfold st1, s3, s2, s1, after_storeStream. fields.
      rewrite !lookup_insert_ne by done. apply lookup_insert_eq. }
    eexists. split.
    + unfold emit. run. rewrite Hheap1. run. rewrite Hlisten. cbn [forEach].
      unfold run_listener, id_of, delete_stream. run. rewrite Hheap1. run.
      unfold final, registered_process. objs. rewrite Hout, Herr, Hin. run.
      rewrite Hhu. cbn [stored_stream o_id]. run.
      rewrite Hhe. cbn [stored_stream o_id]. run.
      rewrite Hhi. cbn [stored_stream o_id]. run.
      rewrite Hremote1. cbn [full_remote r_onProcessClose]. run. reflexivity.
    + fields. rewrite Hprocs1, Hstreams1.
      split; [by apply delete_fresh_insert|]. split; [|by rewrite <- app_assoc].
      by apply release_three.
Qed.


Lemma process_lifecycle_example :
  ∃ st1,
    storeProcess 0%nat false fixture
    = Some (StoredToken
              (Some (TokProcess 4711
                       (Some (TokStream 2 (Some true) (Some true),
                              TokStream 3 (Some true) (Some true),
                              TokStream 4 (Some true) (Some true))))), st1) ∧
    ∃ st2,
      emit 0%nat EvClose (ExitStatus (Some 0) None) st1 = Some (tt, st2) ∧
      processes st2 = processes fixture ∧
      streams st2 = streams fixture.
Proof.
  destruct (process_lifecycle fixture 0%nat 1%nat 2%nat 3%nat
              (mkObject None None None None None None None 4711 false OwnKill
                 (Some 1%nat) (Some 2%nat) (Some 3%nat) "" [] [])
              duplex duplex duplex 2 3 4 None (ExitStatus (Some 0) None))
    as (st1 & Hstore & _ & _ & _ & _ & _ & st2 & Hclose & Hp & Hs & _);
    try reflexivity.
  { compute_done. }
  exists st1. split; [exact Hstore|]. exists st2. split; [exact Hclose|].
  split; [exact Hp | exact Hs].
Defined.

(** ** Ptys *)

(** What [socket_method] answers; it reads the heap and writes nothing. *)
Definition socket_result (pick : object → option flow_method) (o : object)
    (st : state) : option (option flow_method) :=
  match pick o, o_socket o with
  | None, Some socket =>
    match heap st !! socket with
    | Some so => Some (option_map (bound_method socket) (pick so))
    | None => None
    end
  | _, _ => Some None
  end.

Lemma socket_method_run (pick : object → option flow_method) (o : object) (st : state) :
  socket_method pick o st = option_map (λ r, (r, st)) (socket_result pick o st).
Proof.
  unfold socket_method, socket_result.
  destruct (pick o); [done|]. destruct (o_socket o) as [socket|]; [|done].
  run. by destruct (heap st !! socket).
Qed.

(** The state while [storePty] works on the pty, whose object is [obj]. *)
Definition pty_state (pty : ref) (o obj : object) (st : state) : state :=
  mkState (<[pty := obj]> (heap st)) (proxyStreams st) (streams st) (watchers st)
    (<[o_pid o := pty]> (processes st)) (apis st)
    (nextStreamID st) (nextWatcherID st) (remote st) (clock st) (trace st).

Definition set_flow (set : flow_method → object → object) (m : option flow_method)
    (o : object) : object :=
  match m with
  | Some m => set m o
  | None => o
  end.

(** The pty object when [storePty] returns. *)
Definition stored_pty (id : Z) (pty : ref) (o : object)
    (res pau : option flow_method) : object :=
  let o3 := set_flow with_pause pau
              (set_flow with_resume res
                 (with_token None (registered_process true pty o))) in
  add_listener EvKill (LPtyKill (o_pid o))
    (with_token (Some (TokPty id (o_readable o) (o_writable o) (o_pid o)))
       (stored_stream id pty o3)).

Definition after_storePty (id : Z) (pty : ref) (o : object)
    (res pau : option flow_method) (st : state) : state :=
  mkState (<[pty := stored_pty id pty o res pau]> (heap st)) (proxyStreams st)
    (<[id := pty]> (streams st)) (watchers st)
    (<[o_pid o := pty]> (processes st)) (apis st)
    id (nextWatcherID st) (remote st) (clock st) (trace st).

Lemma set_flow_keeps (set : flow_method → object → object) (m : option flow_method)
    (o : object) :
  (∀ m o, o_token (set m o) = o_token o ∧ o_readable (set m o) = o_readable o ∧
          o_writable (set m o) = o_writable o ∧ o_pid (set m o) = o_pid o) →
  o_token (set_flow set m o) = o_token o ∧
  o_readable (set_flow set m o) = o_readable o ∧
  o_writable (set_flow set m o) = o_writable o ∧
  o_pid (set_flow set m o) = o_pid o.
Proof. intros H. destruct m; [apply H|done]. Qed.

(** [storePty], step by step. *)
Lemma storePty_unfold (st : state) (pty : ref) :
  storePty pty st =
    match heap st !! pty with
    | None => None
    | Some o =>
      if bool_decide (processes st !! o_pid o = Some pty) then Some (o_token o, st)
      else
        let o1 := with_token None (registered_process true pty o) in
        match socket_result o_resume o1 (pty_state pty o o1 st) with
        | None => None
        | Some res =>
          let o2 := set_flow with_resume res o1 in
          match socket_result o_pause o2 (pty_state pty o o2 st) with
          | None => None
          | Some pau =>
            match allocate (streams st) (nextStreamID st) with
            | None => None
            | Some id =>
              Some (Some (TokPty id (o_readable o) (o_writable o) (o_pid o)),
                    after_storePty id pty o res pau st)
            end
          end
        end
    end.
Proof.
  unfold storePty. unfold bind at 1. unfold get_obj at 1. unfold bind at 1.
  unfold get at 1. destruct (heap st !! pty) as [o|] eqn:Ho; [|done].
  unfold of_option at 1, ret at 1. unfold bind at 1, get at 1.
  case_bool_decide as Hreg; [done|].
  rewrite (bind_run _ _ _ _ _ (storeProcess_onlyPid st pty o Ho)).
  cbv zeta.
  set (o1 := with_token None (registered_process true pty o)).
  assert (Hs1 : update_obj pty (with_token None) (after_register pty true o st)
                = Some (tt, pty_state pty o o1 st)).
  { unfold update_obj, get_obj. run. unfold after_register at 1. fields.
    rewrite lookup_insert_eq. run. unfold after_register, pty_state.
    apply result_eq, state_eq; fields; try reflexivity. by rewrite insert_insert_eq. }
  rewrite (bind_run _ _ _ _ _ Hs1).
  assert (Hget : ∀ obj, get_obj pty (pty_state pty o obj st)
                        = Some (obj, pty_state pty o obj st)).
  { intros obj. unfold get_obj. run. unfold pty_state at 1. fields.
    by rewrite lookup_insert_eq. }
  assert (Hupd : ∀ obj f, update_obj pty f (pty_state pty o obj st)
                          = Some (tt, pty_state pty o (f obj) st)).
  { intros obj f. unfold update_obj. rewrite (bind_run _ _ _ _ _ (Hget obj)).
    unfold modify, pty_state. apply result_eq, state_eq; fields; try reflexivity.
    by rewrite insert_insert_eq. }
  rewrite (bind_run _ _ _ _ _ (Hget o1)).
  unfold bind at 1. rewrite socket_method_run.
  destruct (socket_result o_resume o1 (pty_state pty o o1 st)) as [res|]; [|done].
  cbn [option_map].
  set (o2 := set_flow with_resume res o1).
  assert (Hs2 : match res with
                | Some m => update_obj pty (with_resume m)
                | None => ret tt
                end (pty_state pty o o1 st) = Some (tt, pty_state pty o o2 st)).
  { unfold o2. destruct res; [apply Hupd|done]. }
  rewrite (bind_run _ _ _ _ _ Hs2).
  rewrite (bind_run _ _ _ _ _ (Hget o2)).
  unfold bind at 1. rewrite socket_method_run.
  destruct (socket_result o_pause o2 (pty_state pty o o2 st)) as [pau|]; [|done].
  cbn [option_map].
  set (o3 := set_flow with_pause pau o2).
  assert (Hs3 : match pau with
                | Some m => update_obj pty (with_pause m)
                | None => ret tt
                end (pty_state pty o o2 st) = Some (tt, pty_state pty o o3 st)).
  { unfold o3. destruct pau; [apply Hupd|done]. }
  rewrite (bind_run _ _ _ _ _ Hs3).
  assert (Hkeep : o_token o3 = None ∧ o_readable o3 = o_readable o ∧
                  o_writable o3 = o_writable o ∧ o_pid o3 = o_pid o).
  { unfold o3, o2.
    destruct (set_flow_keeps with_pause pau (set_flow with_resume res o1))
      as (-> & -> & -> & ->); [done|].
    destruct (set_flow_keeps with_resume res o1) as (-> & -> & -> & ->); done. }
  destruct Hkeep as (Htok3 & Hr3 & Hw3 & Hpid3).
  destruct (allocate (streams st) (nextStreamID st)) as [id|] eqn:Hid.
  - assert (Hstore : storeStream pty (pty_state pty o o3 st) =
              Some (TokStream id (o_readable o) (o_writable o),
                    after_storeStream id pty o3 (pty_state pty o o3 st))).
    { rewrite <- Hr3, <- Hw3. apply storeStream_new; [|done|done].
      unfold pty_state. fields. apply lookup_insert_eq. }
    rewrite (bind_run _ _ _ _ _ Hstore).
    unfold on. run. unfold after_storeStream at 1. fields.
    rewrite lookup_insert_eq. run. repeat (rewrite lookup_insert_eq; run).
    f_equal. f_equal.
    unfold after_storePty, after_storeStream, pty_state, stored_pty.
    apply state_eq; fields; try reflexivity.
    rewrite ?insert_insert_eq. f_equal.
  - unfold bind at 1. unfold storeStream. run. unfold pty_state at 1. fields.
    rewrite lookup_insert_eq. run. rewrite Htok3. unfold pty_state at 1 2. fields.
    by rewrite Hid.
Qed.


Lemma stored_pty_facts (id : Z) (pty : ref) (o : object) (res pau : option flow_method) :
  o_pid (stored_pty id pty o res pau) = o_pid o ∧
  o_token (stored_pty id pty o res pau)
    = Some (TokPty id (o_readable o) (o_writable o) (o_pid o)) ∧
  o_kill (stored_pty id pty o res pau) = Killtree (o_pid o).
Proof. unfold stored_pty. by destruct res, pau. Qed.

(** X26: [storePty] is idempotent: whenever a call returns, a second
    call on the same pty returns the same token and leaves the state as
    it is, so nothing is registered or subscribed twice. *)
Theorem storePty_idempotent (st st' : state) (pty : ref) (t : option token) :
  storePty pty st = Some (t, st') →
  storePty pty st' = Some (t, st').
Proof.
  rewrite (storePty_unfold st). intros H.
  destruct (heap st !! pty) as [o|] eqn:Ho; [|done].
  case_bool_decide as Hreg.
  - injection H as <- <-. rewrite storePty_unfold, Ho.
    by rewrite bool_decide_eq_true_2.
  - cbv zeta in H.
    destruct (socket_result o_resume _ _) as [res|]; [|done].
    destruct (socket_result o_pause _ _) as [pau|]; [|done].
    destruct (allocate (streams st) (nextStreamID st)) as [id|]; [|done].
    injection H as <- <-.
    destruct (stored_pty_facts id pty o res pau) as (Hpid & Htok & _).
    assert (Hheap : heap (after_storePty id pty o res pau st) !! pty
                    = Some (stored_pty id pty o res pau)) by apply lookup_insert_eq.
    assert (Hproc : processes (after_storePty id pty o res pau st) !! o_pid o
                    = Some pty) by apply lookup_insert_eq.
    rewrite storePty_unfold, Hheap, Hpid, Hproc, Htok.
    by rewrite bool_decide_eq_true_2.
Qed.

Lemma storePty_idempotent_example :
  storePty 4%nat (after (storePty 4%nat) fixture)
  = Some (Some (TokPty 2 (Some true) (Some true) 99), after (storePty 4%nat) fixture).
Proof.
  apply (storePty_idempotent fixture).
  vm_compute. reflexivity.
Defined.


(** X27: a pty that is not registered yet, has no [pause] and [resume]
    of its own and sits on a socket that has both, is stored as a
    process under its pid and as a stream under a fresh identifier; the
    token carries both.  From then on [pause(id)] and [resume(id)] call
    the socket's methods, and [kill(pid)] goes to [vfs.killtree(pid)]. *)
Theorem pty_flow_through_socket (st : state) (pty socket : ref) (o so : object)
    (id : Z) (code : option Z) :
  heap st !! pty = Some o →
  processes st !! o_pid o ≠ Some pty →
  o_pause o = None → o_resume o = None →
  o_socket o = Some socket →
  socket ≠ pty →
  heap st !! socket = Some so →
  o_pause so = Some OwnMethod → o_resume so = Some OwnMethod →
  allocate (streams st) (nextStreamID st) = Some id →
  let st' := after_storePty id pty o (Some (BoundTo socket)) (Some (BoundTo socket)) st in
  storePty pty st
    = Some (Some (TokPty id (o_readable o) (o_writable o) (o_pid o)), st') ∧
  streams st' !! id = Some pty ∧
  processes st' !! o_pid o = Some pty ∧
  pause id st' = Some (tt, upd_trace (λ t, t ++ [Call socket MPause NoPayload]) st') ∧
  resume id st' = Some (tt, upd_trace (λ t, t ++ [Call socket MResume NoPayload]) st') ∧
  kill (o_pid o) code st'
    = Some (tt, upd_trace (λ t, t ++ [VfsKilltree (o_pid o)]) st').
Proof.
  intros Ho Hreg Hpause Hresume Hsock Hne Hso Hsp Hsr Hid. cbv zeta.
  assert (Hheap : heap (after_storePty id pty o (Some (BoundTo socket))
                          (Some (BoundTo socket)) st) !! pty
                  = Some (stored_pty id pty o (Some (BoundTo socket))
                            (Some (BoundTo socket)))) by apply lookup_insert_eq.
  split; [|split; [|split; [|split; [|split]]]].
  - rewrite storePty_unfold, Ho. rewrite bool_decide_eq_false_2 by done. cbv zeta.
    unfold socket_result at 1. objs. unfold registered_process at 1 2. objs.
    rewrite Hresume, Hsock. unfold pty_state at 1. fields.
    rewrite lookup_insert_ne by done. rewrite Hso, Hsr. cbn [option_map bound_method].
    unfold socket_result at 1. cbn [set_flow]. objs.
    unfold registered_process at 1 2. objs.
    rewrite Hpause, Hsock. unfold pty_state at 1. fields.
    rewrite lookup_insert_ne by done. rewrite Hso, Hsp. cbn [option_map bound_method].
    by rewrite Hid.
  - apply lookup_insert_eq.
  - apply lookup_insert_eq.
  - unfold pause. run. unfold after_storePty at 1. fields. rewrite lookup_insert_eq.
    run. rewrite Hheap. run. reflexivity.
  - unfold resume. run. unfold after_storePty at 1. fields. rewrite lookup_insert_eq.
    run. rewrite Hheap. run. reflexivity.
  - unfold kill. run. unfold after_storePty at 1. fields. rewrite lookup_insert_eq.
    run. rewrite Hheap. run. reflexivity.
Qed.

Lemma pty_flow_through_socket_example :
  let st' := after_storePty 2 4%nat
               (mkObject None None (Some true) (Some true) None None (Some 5%nat) 99
                  false OwnKill None None None "" [] [])
               (Some (BoundTo 5%nat)) (Some (BoundTo 5%nat)) fixture in
  storePty 4%nat fixture = Some (Some (TokPty 2 (Some true) (Some true) 99), st') ∧
  pause 2 st' = Some (tt, upd_trace (λ t, t ++ [Call 5%nat MPause NoPayload]) st').
Proof.
  cbv zeta.
  destruct (pty_flow_through_socket fixture 4%nat 5%nat
              (mkObject None None (Some true) (Some true) None None (Some 5%nat) 99
                 false OwnKill None None None "" [] [])
              duplex 2 None)
    as (Hstore & _ & _ & Hpause & _); try reflexivity; try discriminate.
  split; [exact Hstore | exact Hpause].
Defined.

End EndpointFacts.
